(** * Message-signing key service and trained-model routes

    A shallow embedding of two server-side fragments of the repository:

    - [MessageSigningService] (generate / store / rotate an EC key pair, sign
      a message, read the public key), a sequential procedure over a saved
      object store and Node's [crypto] module;
    - [trainedModelsRoutes], the HTTP route handlers in front of the
      machine-learning client.

    Asynchronous methods are functions in a state-and-exception monad over an
    explicit world: the saved objects, the encrypted-saved-objects setup, the
    entropy position, a plan that says which dependency calls throw, and the
    trace of the dependency calls made so far. *)

From Stdlib Require Import NArith ZArith Strings.Byte Strings.Ascii Strings.String Lia.
From stdpp Require Import base option list sorting strings gmap.

Open Scope string_scope.
Open Scope list_scope.

Set Default Proof Using "Type".

(** ** Buffers and their string encodings *)

Module Encoding.

Definition Buffer := list byte.

Definition hex_digit (n : N) : ascii :=
  match String.get (N.to_nat n) "0123456789abcdef" with
  | Some c => c
  | None => "0"%char
  end.

(** [buf.toString('hex')]: two lower-case digits per byte. *)
Fixpoint toString_hex (b : Buffer) : string :=
  match b with
  | [] => ""
  | x :: rest =>
      let n := Byte.to_N x in
      String (hex_digit (n / 16)) (String (hex_digit (n mod 16)) (toString_hex rest))
  end.

Definition b64_char (n : N) : ascii :=
  match String.get (N.to_nat n)
          "ABCDEFGHIJKLMNOPQRSTUVWXYZabcdefghijklmnopqrstuvwxyz0123456789+/" with
  | Some c => c
  | None => "="%char
  end.

(** [buf.toString('base64')]: three bytes become four characters, the last
    group is padded with [=]. *)
Fixpoint toString_base64 (b : Buffer) : string :=
  match b with
  | [] => ""
  | [x] =>
      let n := Byte.to_N x in
      String (b64_char (n / 4))
        (String (b64_char ((n mod 4) * 16)) "==")
  | [x; y] =>
      let n := Byte.to_N x in
      let m := Byte.to_N y in
      String (b64_char (n / 4))
        (String (b64_char ((n mod 4) * 16 + m / 16))
           (String (b64_char ((m mod 16) * 4)) "="))
  | x :: y :: z :: rest =>
      let n := Byte.to_N x in
      let m := Byte.to_N y in
      let k := Byte.to_N z in
      String (b64_char (n / 4))
        (String (b64_char ((n mod 4) * 16 + m / 16))
           (String (b64_char ((m mod 16) * 4 + k / 64))
              (String (b64_char (k mod 64)) (toString_base64 rest))))
  end.

(** [Buffer.from(s, 'utf8')]: a string is modelled by its UTF-8 bytes. *)
Definition Buffer_from_utf8 (s : string) : Buffer := list_byte_of_string s.

(** The value of a character of the base64 alphabets ([-] and [_] are the
    URL-safe forms of [+] and [/]); other characters have none. *)
Definition unbase64 (c : ascii) : option N :=
  let n := N_of_ascii c in
  if ((65 <=? n) && (n <=? 90))%N then Some (n - 65)%N
  else if ((97 <=? n) && (n <=? 122))%N then Some (n - 71)%N
  else if ((48 <=? n) && (n <=? 57))%N then Some (n + 4)%N
  else if ((n =? 43) || (n =? 45))%N then Some 62%N
  else if ((n =? 47) || (n =? 95))%N then Some 63%N
  else None.

(** The six-bit values of a base64 string: decoding stops at the first [=]
    and skips the characters outside the alphabets. *)
Fixpoint sextets (s : string) : list N :=
  match s with
  | EmptyString => []
  | String c rest =>
      if Ascii.eqb c "="%char then []
      else match unbase64 c with
           | Some v => v :: sextets rest
           | None => sextets rest
           end
  end.

Definition byte_of_N (n : N) : byte := default x00 (Byte.of_N (n mod 256)).

Fixpoint bytes_of_sextets (l : list N) : Buffer :=
  match l with
  | a :: b :: c :: d :: rest =>
      byte_of_N (a * 4 + b / 16) :: byte_of_N ((b mod 16) * 16 + c / 4)
      :: byte_of_N ((c mod 4) * 64 + d) :: bytes_of_sextets rest
  | [a; b; c] => [byte_of_N (a * 4 + b / 16); byte_of_N ((b mod 16) * 16 + c / 4)]
  | [a; b] => [byte_of_N (a * 4 + b / 16)]
  | _ => []
  end.

(** [Buffer.from(s, 'base64')] as Node decodes it. *)
Definition from_base64 (s : string) : Buffer := bytes_of_sextets (sextets s).

(** The digits of [toString('hex')]. *)
Definition hex_digits : list ascii := list_ascii_of_string "0123456789abcdef".

End Encoding.

(** ** JavaScript values the service tests for truthiness *)

Module Js.

(** A value of type [string | undefined]. *)
Definition truthy (v : option string) : bool :=
  match v with
  | Some (String _ _) => true
  | _ => false
  end.

(** [a || b]. *)
Definition or (a b : option string) : option string :=
  if truthy a then a else b.

End Js.

(** ** The message-signing key service *)

Module MessageSigning.
Import Encoding.

(** *** Data model *)

(** [Partial<MessageSigningKeys>]: every attribute may be absent. *)
Record MessageSigningKeys := {
  private_key : option string;
  public_key : option string;
  passphrase : option string;
  passphrase_plain : option string;
}.

(** A saved object of type [MESSAGE_SIGNING_KEYS_SAVED_OBJECT_TYPE]. The
    identifier is an opaque token; a natural number stands for it. *)
Record SavedObject := {
  so_id : nat;
  attributes : option MessageSigningKeys;
}.

(** What [generateKeyPair] resolves to. *)
Module KeyPair.
Record t := { privateKey : string; publicKey : string; passphrase : string }.
End KeyPair.

Record Signed := { data : Buffer; signature : string }.

Record EncryptedSavedObjectsSetup := { canEncrypt : bool }.

(** The dependency calls of the service: the point-in-time finder, the
    saved objects client and the [crypto] primitives. *)
Inductive Op :=
| CreatePointInTimeFinder
| FinderFind
| FinderClose
| SoCreate (a : MessageSigningKeys)
| SoUpdate (i : nat) (a : MessageSigningKeys)
| SoDelete (i : nat)
| RandomBytes (n : nat)
| GenerateKeyPairSync
| CreateSign
| SignerSign.

(** One dependency call and, when it threw, the error code. *)
Record Event := { ev_op : Op; ev_threw : option nat }.

(** The store keeps the saved objects of the key type newest first, which
    is the order the finder asks for ([sortField: 'created_at'],
    [sortOrder: 'desc']); a created object is the newest one. Attributes are
    held as the decrypting finder returns them. The scoped client behind the
    [soClient] getter is the store itself. [faults] is indexed by the number
    of dependency calls made so far. *)
Record World := {
  objects : list SavedObject;
  encryptedSavedObjectsSetup : option EncryptedSavedObjectsSetup;
  rng : nat;
  faults : nat → option nat;
  trace : list Event;
}.

Definition set_objects (l : list SavedObject) (w : World) : World :=
  {| objects := l; encryptedSavedObjectsSetup := encryptedSavedObjectsSetup w;
     rng := rng w; faults := faults w; trace := trace w |}.

Definition set_rng (n : nat) (w : World) : World :=
  {| objects := objects w; encryptedSavedObjectsSetup := encryptedSavedObjectsSetup w;
     rng := n; faults := faults w; trace := trace w |}.

(** *** The monad of asynchronous methods *)

Inductive Exn :=
| DependencyError (code : nat)
| Error (message : string).

Inductive Result (A : Type) :=
| Ok (a : A)
| Throw (e : Exn).
Arguments Ok {A} a.
Arguments Throw {A} e.

Definition M (A : Type) : Type := World → Result A * World.

#[export] Instance M_ret : MRet M := λ A a w, (Ok a, w).

#[export] Instance M_bind : MBind M := λ A B f m w,
  match m w with
  | (Ok a, w') => f a w'
  | (Throw e, w') => (Throw e, w')
  end.

Definition throw {A} (e : Exn) : M A := λ w, (Throw e, w).

Definition threw {A} (r : Result A) : option nat :=
  match r with
  | Throw (DependencyError e) => Some e
  | _ => None
  end.

(** A dependency call: it throws when the plan says so, and otherwise does
    what [body] does to the store and the entropy. Either way the call is
    appended to the trace. *)
Definition call {A} (op : Op) (body : World → Result A * World) : M A := λ w,
  match faults w (length (trace w)) with
  | Some e =>
      (Throw (DependencyError e),
       {| objects := objects w; encryptedSavedObjectsSetup := encryptedSavedObjectsSetup w;
          rng := rng w; faults := faults w;
          trace := trace w ++ [ {| ev_op := op; ev_threw := Some e |} ] |})
  | None =>
      let '(r, w') := body w in
      (r,
       {| objects := objects w'; encryptedSavedObjectsSetup := encryptedSavedObjectsSetup w';
          rng := rng w'; faults := faults w;
          trace := trace w ++ [ {| ev_op := op; ev_threw := threw r |} ] |})
  end.

(** A call that is not awaited: the caller goes on whatever happens. *)
Definition not_awaited {A} (m : M A) : M () := λ w, (Ok (), (m w).2).

(** *** The saved objects client *)

Definition not_found : nat := 404.

Definition fresh_id (l : list SavedObject) : nat := S (foldr max 0 (so_id <$> l)).

Definition over (new old : option string) : option string :=
  match new with
  | Some _ => new
  | None => old
  end.

(** [update] is a partial update: the given attributes replace the stored
    ones, the others stay. *)
Definition merge (old : option MessageSigningKeys) (new : MessageSigningKeys)
  : MessageSigningKeys :=
  match old with
  | None => new
  | Some o =>
      {| private_key := over (private_key new) (private_key o);
         public_key := over (public_key new) (public_key o);
         passphrase := over (passphrase new) (passphrase o);
         passphrase_plain := over (passphrase_plain new) (passphrase_plain o) |}
  end.

Fixpoint update_object (i : nat) (a : MessageSigningKeys) (l : list SavedObject)
  : option (list SavedObject) :=
  match l with
  | [] => None
  | o :: rest =>
      if Nat.eqb (so_id o) i
      then Some ({| so_id := i; attributes := Some (merge (attributes o) a) |} :: rest)
      else cons o <$> update_object i a rest
  end.

Fixpoint delete_object (i : nat) (l : list SavedObject) : option (list SavedObject) :=
  match l with
  | [] => None
  | o :: rest =>
      if Nat.eqb (so_id o) i then Some rest else cons o <$> delete_object i rest
  end.

Definition soClient_create (a : MessageSigningKeys) : M SavedObject :=
  call (SoCreate a) (λ w,
    let o := {| so_id := fresh_id (objects w); attributes := Some a |} in
    (Ok o, set_objects (o :: objects w) w)).

Definition soClient_update (i : nat) (a : MessageSigningKeys) : M () :=
  call (SoUpdate i a) (λ w,
    match update_object i a (objects w) with
    | Some l => (Ok (), set_objects l w)
    | None => (Throw (DependencyError not_found), w)
    end).

Definition soClient_delete (i : nat) : M () :=
  call (SoDelete i) (λ w,
    match delete_object i (objects w) with
    | Some l => (Ok (), set_objects l w)
    | None => (Throw (DependencyError not_found), w)
    end).

(** *** The point-in-time finder *)

Record Finder := { perPage : nat }.

Definition createPointInTimeFinderDecryptedAsInternalUser (n : nat) : M Finder :=
  call CreatePointInTimeFinder (λ w, (Ok {| perPage := n |}, w)).

(** The first page that [finder.find()] yields. *)
Definition finder_find (f : Finder) : M (list SavedObject) :=
  call FinderFind (λ w, (Ok (take (perPage f) (objects w)), w)).

Definition finder_close (f : Finder) : M () :=
  call FinderClose (λ w, (Ok (), w)).

Definition isEncryptionAvailable (w : World) : bool :=
  default false (canEncrypt <$> encryptedSavedObjectsSetup w).

Definition get_isEncryptionAvailable : M bool := λ w, (Ok (isEncryptionAvailable w), w).

(** *** The service *)

Section Service.

(** [Record<string, unknown>] and its serialisation. *)
Variable JsRecord : Type.
Variable JSON_stringify : JsRecord → string.

(** The bytes the platform's random source yields, by position. *)
Variable entropy : nat → byte.

(** EC key generation on the curve [prime256v1] from a seed and a
    passphrase: the DER encodings of the private key ([pkcs8], encrypted
    with [aes-256-cbc] under the passphrase) and of the public key
    ([spki]). *)
Variable prime256v1 : nat → string → Buffer * Buffer.

(** [Buffer.from(s, 'base64')]. *)
Variable Buffer_from_base64 : string → Buffer.

(** The base64 SHA256 signature of the data under a DER [pkcs8] key and
    its passphrase. *)
Variable SHA256_sign : Buffer → Buffer → string → string.

Inductive Message :=
| MsgBuffer (b : Buffer)
| MsgRecord (r : JsRecord).

Definition randomBytes (n : nat) : M Buffer :=
  call (RandomBytes n) (λ w, (Ok (entropy <$> seq (rng w) n), set_rng (rng w + n) w)).

Definition generateKeyPairSync (passphrase : string) : M (Buffer * Buffer) :=
  call GenerateKeyPairSync (λ w, (Ok (prime256v1 (rng w) passphrase), set_rng (S (rng w)) w)).

(** [createSign('SHA256')], [update] and [end]: the signer holds the data. *)
Definition createSign (msgBuffer : Buffer) : M Buffer :=
  call CreateSign (λ w, (Ok msgBuffer, w)).

Definition signer_sign (signer : Buffer) (key : Buffer) (passphrase : string) : M string :=
  call SignerSign (λ w, (Ok (SHA256_sign signer key passphrase), w)).

Definition generatePassphrase : M string :=
  b ← randomBytes 32;
  mret (toString_hex b).

Definition getCurrentKeyPairObj : M (option SavedObject) :=
  finder ← createPointInTimeFinderDecryptedAsInternalUser 1;
  result ← finder_find finder;
  let soDoc := result !! 0%nat in
  not_awaited (finder_close finder);;
  mret soDoc.

Definition checkForExistingKeyPair : M (option KeyPair.t) :=
  currentKeyPair ← getCurrentKeyPairObj;
  match currentKeyPair with
  | None => mret None
  | Some currentKeyPair =>
      match attributes currentKeyPair with
      | None => mret None
      | Some attrs =>
          let privateKey := private_key attrs in
          let publicKey := public_key attrs in
          let passphraseEncrypted := passphrase attrs in
          let passphrasePlain := passphrase_plain attrs in
          let passphrase := Js.or passphraseEncrypted passphrasePlain in
          if negb (Js.truthy privateKey) || negb (Js.truthy publicKey)
             || negb (Js.truthy passphrase)
          then mret None
          else
            enc ← get_isEncryptionAvailable;
            (if Js.truthy passphrasePlain && (enc : bool)
             then soClient_update (so_id currentKeyPair)
                    {| private_key := private_key attrs;
                       public_key := public_key attrs;
                       passphrase := passphrase;
                       passphrase_plain := Some "" |}
             else mret ());;
            mret (Some {| KeyPair.privateKey := default "" privateKey;
                          KeyPair.publicKey := default "" publicKey;
                          KeyPair.passphrase := default "" passphrase |})
      end
  end.

Definition generateKeyPair (providedPassphrase : option string) : M KeyPair.t :=
  existingKeyPair ← checkForExistingKeyPair;
  match existingKeyPair with
  | Some existingKeyPair => mret existingKeyPair
  | None =>
      passphrase ← (if Js.truthy providedPassphrase
                    then mret (default "" providedPassphrase)
                    else generatePassphrase);
      keyPair ← generateKeyPairSync passphrase;
      let privateKey := toString_base64 (keyPair : Buffer * Buffer).1 in
      let publicKey := toString_base64 keyPair.2 in
      enc ← get_isEncryptionAvailable;
      let keypairSoObject :=
        if (enc : bool)
        then {| private_key := Some privateKey; public_key := Some publicKey;
                passphrase := Some passphrase; passphrase_plain := None |}
        else {| private_key := Some privateKey; public_key := Some publicKey;
                passphrase := None; passphrase_plain := Some passphrase |} in
      soClient_create keypairSoObject;;
      mret {| KeyPair.privateKey := privateKey;
              KeyPair.publicKey := publicKey;
              KeyPair.passphrase := passphrase |}
  end.

(** [Buffer.isBuffer(message) ? message : Buffer.from(JSON.stringify(message), 'utf8')] *)
Definition msgBuffer (message : Message) : Buffer :=
  match message with
  | MsgBuffer b => b
  | MsgRecord r => Buffer_from_utf8 (JSON_stringify r)
  end.

Definition sign (message : Message) : M Signed :=
  kp ← generateKeyPair None;
  let serializedPrivateKey := KeyPair.privateKey kp in
  let passphrase := KeyPair.passphrase kp in
  let msgBuffer := msgBuffer message in
  signer ← createSign msgBuffer;
  if negb (Js.truthy (Some serializedPrivateKey))
  then throw (Error "unable to find private key")
  else if negb (Js.truthy (Some passphrase))
  then throw (Error "unable to find passphrase")
  else
    let privateKey := Buffer_from_base64 serializedPrivateKey in
    signature ← signer_sign signer privateKey passphrase;
    mret {| data := msgBuffer; signature := signature |}.

Definition getPublicKey : M string :=
  kp ← generateKeyPair None;
  let publicKey := KeyPair.publicKey kp in
  if negb (Js.truthy (Some publicKey))
  then throw (Error "unable to find public key")
  else mret publicKey.

Definition removeKeyPair : M bool :=
  currentKeyPair ← getCurrentKeyPairObj;
  match currentKeyPair with
  | Some currentKeyPair =>
      soClient_delete (so_id currentKeyPair);;
      mret true
  | None => mret false
  end.

Definition rotateKeyPair : M bool :=
  isRemoved ← removeKeyPair;
  if (isRemoved : bool)
  then generateKeyPair None;; mret true
  else mret false.

End Service.

(** *** Notions the properties are stated with *)

(** No dependency call throws on its own account. *)
Definition no_faults (w : World) : Prop := ∀ i, faults w i = None.

(** The dependency calls made between [w] and [w']. *)
Definition new_events (w w' : World) : list Event := drop (length (trace w)) (trace w').

(** The object the finder returns: the newest one. *)
Definition current (w : World) : option SavedObject := head (objects w).

(** A saved object that holds the key pair [kp]: a non-empty private key, a
    non-empty public key, and a non-empty passphrase in the [passphrase]
    attribute or, when that one is absent or empty, in [passphrase_plain]. *)
Definition stored_key_pair (o : SavedObject) (kp : KeyPair.t) : Prop :=
  ∃ a, attributes o = Some a
     ∧ private_key a = Some (KeyPair.privateKey kp) ∧ KeyPair.privateKey kp ≠ ""
     ∧ public_key a = Some (KeyPair.publicKey kp) ∧ KeyPair.publicKey kp ≠ ""
     ∧ KeyPair.passphrase kp ≠ ""
     ∧ (passphrase a = Some (KeyPair.passphrase kp)
        ∨ (Js.truthy (passphrase a) = false
           ∧ passphrase_plain a = Some (KeyPair.passphrase kp))).

Definition has_key_pair (w : World) (kp : KeyPair.t) : Prop :=
  ∃ o, current w = Some o ∧ stored_key_pair o kp.

Definition is_create (ev : Event) : Prop := ∃ a, ev_op ev = SoCreate a.

(** A call whose failure reaches the caller: every call but the finder's
    [close], which is not awaited. *)
Definition awaited (ev : Event) : Prop := ev_op ev ≠ FinderClose.

(** The world after the dependency call [op], which left the store as it is
    in [w']. *)
Definition after (op : Op) (e : option nat) (w w' : World) : World :=
  {| objects := objects w'; encryptedSavedObjectsSetup := encryptedSavedObjectsSetup w';
     rng := rng w'; faults := faults w;
     trace := trace w ++ [ {| ev_op := op; ev_threw := e |} ] |}.

(** [wp m Q w]: running [m] from [w] ends in a result and a world that
    satisfy [Q]. *)
Definition wp {A} (m : M A) (Q : Result A → World → Prop) (w : World) : Prop :=
  Q (m w).1 (m w).2.

(** *** Outcomes of the methods *)

Section Outcomes.

Variable JsRecord : Type.
Variable JSON_stringify : JsRecord → string.
Variable entropy : nat → byte.
Variable prime256v1 : nat → string → Buffer * Buffer.
Variable Buffer_from_base64 : string → Buffer.
Variable SHA256_sign : Buffer → Buffer → string → string.

Local Abbreviation msgBuffer := (msgBuffer JsRecord JSON_stringify).

(** What a method leaves alone: the setup and the plan; the trace grows by
    [evs]. *)
Definition frame (w w' : World) (evs : list Event) : Prop :=
  encryptedSavedObjectsSetup w' = encryptedSavedObjectsSetup w
  ∧ faults w' = faults w
  ∧ trace w' = trace w ++ evs.

Definition finder_ops : list Op := [CreatePointInTimeFinder; FinderFind; FinderClose].

Definition planned (w : World) (e : nat) : Prop := ∃ k, faults w k = Some e.

(** Outcome of [getCurrentKeyPairObj] on any plan. *)
Definition found (w : World) (r : Result (option SavedObject)) (w' : World) : Prop :=
  objects w' = objects w ∧ rng w' = rng w
  ∧ ∃ evs, frame w w' evs
    ∧ match r with
      | Ok o => o = current w ∧ ev_op <$> evs = finder_ops
      | Throw (DependencyError e) =>
          planned w e ∧ Forall (λ ev, ev_op ev ∈ finder_ops) evs
      | Throw (Error _) => False
      end.

(** The attributes [checkForExistingKeyPair] writes back when it moves a
    plaintext passphrase to the encrypted attribute. *)
Definition encrypted (a : MessageSigningKeys) (pass : string) : MessageSigningKeys :=
  {| private_key := private_key a; public_key := public_key a;
     passphrase := Some pass; passphrase_plain := Some "" |}.

Definition rewritten (o : SavedObject) (a : MessageSigningKeys) (pass : string) : SavedObject :=
  {| so_id := so_id o; attributes := Some (encrypted a pass) |}.

Definition complete (a : MessageSigningKeys) : bool :=
  Js.truthy (private_key a) && Js.truthy (public_key a)
  && Js.truthy (Js.or (passphrase a) (passphrase_plain a)).

Definition key_pair_of (a : MessageSigningKeys) : KeyPair.t :=
  {| KeyPair.privateKey := default "" (private_key a);
     KeyPair.publicKey := default "" (public_key a);
     KeyPair.passphrase := default "" (Js.or (passphrase a) (passphrase_plain a)) |}.

(** Reading the complete key pair [kp] off the newest object: the store is
    left as it is, or the newest object has its passphrase moved to the
    encrypted attribute. *)
Definition read_existing (w w' : World) (evs : list Event) (kp : KeyPair.t) : Prop :=
  ∃ o rest a, objects w = o :: rest ∧ attributes o = Some a
    ∧ complete a = true ∧ kp = key_pair_of a
    ∧ if Js.truthy (passphrase_plain a) && isEncryptionAvailable w
      then objects w' = rewritten o a (KeyPair.passphrase kp) :: rest
           ∧ ev_op <$> evs
             = finder_ops ++ [SoUpdate (so_id o) (encrypted a (KeyPair.passphrase kp))]
      else objects w' = objects w ∧ ev_op <$> evs = finder_ops.

(** Outcome of [checkForExistingKeyPair] on any plan. *)
Definition checked (w : World) (r : Result (option KeyPair.t)) (w' : World) : Prop :=
  rng w' = rng w
  ∧ ∃ evs, frame w w' evs
    ∧ match r with
      | Ok (Some kp) => read_existing w w' evs kp
      | Ok None =>
          (∀ kp, ¬ has_key_pair w kp) ∧ objects w' = objects w ∧ ev_op <$> evs = finder_ops
      | Throw (DependencyError e) => planned w e ∧ Forall (λ ev, ¬ is_create ev) evs
      | Throw (Error _) => False
      end.

(** The passphrase, the seed and the key pair of a fresh generation from [w]. *)
Definition passphrase_for (p : option string) (w : World) : string :=
  if Js.truthy p then default "" p else toString_hex (entropy <$> seq (rng w) 32).

Definition seed_for (p : option string) (w : World) : nat :=
  if Js.truthy p then rng w else rng w + 32.

Definition passphrase_ops (p : option string) : list Op :=
  if Js.truthy p then [] else [RandomBytes 32].

Definition fresh_key_pair (p : option string) (w : World) : KeyPair.t :=
  let pass := passphrase_for p w in
  let keys := prime256v1 (seed_for p w) pass in
  {| KeyPair.privateKey := toString_base64 keys.1;
     KeyPair.publicKey := toString_base64 keys.2;
     KeyPair.passphrase := pass |}.

Definition attributes_of (enc : bool) (kp : KeyPair.t) : MessageSigningKeys :=
  if enc
  then {| private_key := Some (KeyPair.privateKey kp);
          public_key := Some (KeyPair.publicKey kp);
          passphrase := Some (KeyPair.passphrase kp); passphrase_plain := None |}
  else {| private_key := Some (KeyPair.privateKey kp);
          public_key := Some (KeyPair.publicKey kp);
          passphrase := None; passphrase_plain := Some (KeyPair.passphrase kp) |}.

(** Generating and persisting the key pair [kp] from [w]. *)
Definition created (p : option string) (w w' : World) (evs : list Event) (kp : KeyPair.t)
  : Prop :=
  let a := attributes_of (isEncryptionAvailable w) kp in
  kp = fresh_key_pair p w
  ∧ objects w' = {| so_id := fresh_id (objects w); attributes := Some a |} :: objects w
  ∧ rng w' = S (seed_for p w)
  ∧ ev_op <$> evs = finder_ops ++ passphrase_ops p ++ [GenerateKeyPairSync; SoCreate a].

(** Outcome of [generateKeyPair] on any plan. *)
Definition generated (p : option string) (w : World) (r : Result KeyPair.t) (w' : World)
  : Prop :=
  ∃ evs, frame w w' evs
    ∧ match r with
      | Ok kp =>
          (has_key_pair w kp ∧ rng w' = rng w ∧ read_existing w w' evs kp)
          ∨ ((∀ kp', ¬ has_key_pair w kp') ∧ created p w w' evs kp)
      | Throw (DependencyError e) =>
          planned w e ∧ Forall (λ ev, is_create ev → is_Some (ev_threw ev)) evs
      | Throw (Error _) => False
      end.

(** Outcome of [providedPassphrase || this.generatePassphrase()] on any plan. *)
Definition chosen (p : option string) (w : World) (r : Result string) (w' : World) : Prop :=
  objects w' = objects w
  ∧ ∃ evs, frame w w' evs ∧ Forall (λ ev, ¬ is_create ev) evs
    ∧ match r with
      | Ok pass =>
          pass = passphrase_for p w ∧ rng w' = seed_for p w
          ∧ ev_op <$> evs = passphrase_ops p
      | Throw (DependencyError e) => planned w e
      | Throw (Error _) => False
      end.

(** Outcome of [sign] on any plan, after [generateKeyPair] returned [kp] in
    the world [w1]. *)
Definition signed (m : Message JsRecord) (kp : KeyPair.t) (w1 : World)
  (r : Result Signed) (w' : World) : Prop :=
  objects w' = objects w1 ∧ rng w' = rng w1
  ∧ ∃ evs, frame w1 w' evs
    ∧ match r with
      | Ok s =>
          s = {| data := msgBuffer m;
                 signature := SHA256_sign (msgBuffer m)
                                (Buffer_from_base64 (KeyPair.privateKey kp))
                                (KeyPair.passphrase kp) |}
          ∧ ev_op <$> evs = [CreateSign; SignerSign]
      | Throw (DependencyError e) => planned w1 e
      | Throw (Error _) => False
      end.

(** Outcome of [removeKeyPair] on any plan. *)
Definition removed (w : World) (r : Result bool) (w' : World) : Prop :=
  rng w' = rng w
  ∧ ∃ evs, frame w w' evs
    ∧ match r with
      | Ok true =>
          ∃ o rest, objects w = o :: rest ∧ objects w' = rest
            ∧ ev_op <$> evs = finder_ops ++ [SoDelete (so_id o)]
      | Ok false => objects w = [] ∧ objects w' = [] ∧ ev_op <$> evs = finder_ops
      | Throw (DependencyError e) => planned w e
      | Throw (Error _) => False
      end.

(** No awaited call in [evs] threw. *)
Definition quiet (evs : list Event) : Prop :=
  Forall (λ ev, awaited ev → ev_threw ev = None) evs.

(** A method is regular when, on every plan, either no awaited call threw, or
    the last call is an awaited one that threw and the method throws what
    that call threw. *)
Definition regular {A} (m : M A) : Prop :=
  ∀ w, ∃ evs, trace (m w).2 = trace w ++ evs
    ∧ match (m w).1 with
      | Throw (DependencyError e) =>
          ∃ pre op, evs = pre ++ [ {| ev_op := op; ev_threw := Some e |} ]
            ∧ op ≠ FinderClose ∧ quiet pre
      | _ => quiet evs
      end.

(** A dependency error reaches the caller as it is, and nothing is called
    after it. *)
Definition propagates {A} (m : M A) : Prop :=
  ∀ w,
    trace (m w).2 = trace w ++ new_events w (m w).2
    ∧ ∀ pre ev post e,
        new_events w (m w).2 = pre ++ ev :: post →
        awaited ev → ev_threw ev = Some e →
        post = [] ∧ (m w).1 = Throw (DependencyError e).

End Outcomes.

(** *** Calls through [MessageSigningServiceInterface] *)

Section Interface.

Variable JsRecord : Type.
Variable JSON_stringify : JsRecord → string.
Variable entropy : nat → byte.
Variable prime256v1 : nat → string → Buffer * Buffer.
Variable Buffer_from_base64 : string → Buffer.
Variable SHA256_sign : Buffer → Buffer → string → string.

Inductive Request :=
| GenerateKeyPair (providedPassphrase : option string)
| Sign (message : Message JsRecord)
| GetPublicKey
| RotateKeyPair.

(** The world a call leaves behind, whether it returns or throws. *)
Definition serve (r : Request) (w : World) : World :=
  match r with
  | GenerateKeyPair p => (generateKeyPair entropy prime256v1 p w).2
  | Sign m =>
      (sign JsRecord JSON_stringify entropy prime256v1 Buffer_from_base64 SHA256_sign m w).2
  | GetPublicKey => (getPublicKey entropy prime256v1 w).2
  | RotateKeyPair => (rotateKeyPair entropy prime256v1 w).2
  end.

Definition serve_all (rs : list Request) (w : World) : World :=
  foldl (λ w r, serve r w) w rs.

End Interface.

(** At most one saved object, and it holds a key pair. *)
Definition single_key_pair (w : World) : Prop :=
  objects w = [] ∨ ∃ o kp, objects w = [o] ∧ stored_key_pair o kp.

(** A method that throws leaves the saved objects as they were. *)
(** No saved object carries a passphrase in [passphrase_plain]. *)
Definition no_plaintext_passphrase (w : World) : Prop :=
  Forall (λ o, ∀ a, attributes o = Some a → Js.truthy (passphrase_plain a) = false)
    (objects w).

Definition store_kept_on_throw {A} (w : World) (r : Result A) (w' : World) : Prop :=
  match r with
  | Throw _ => objects w' = objects w
  | Ok _ => True
  end.

(** Every dependency call of a method satisfies [P], on every plan. *)
Definition calls_only {A} (P : Op → Prop) (m : M A) : Prop :=
  ∀ w, ∃ evs, trace (m w).2 = trace w ++ evs ∧ faults (m w).2 = faults w
    ∧ Forall (λ ev, P (ev_op ev)) evs.

Definition is_delete (op : Op) : Prop := ∃ i, op = SoDelete i.

End MessageSigning.

(** ** The trained-model routes *)

Module TrainedModelsRoutes.

(** *** Values of requests and responses *)

#[local] Unset Elimination Schemes.
Inductive Json :=
| JUndefined
| JNull
| JBool (b : bool)
| JNum (n : Z)
| JStr (s : string)
| JArr (xs : list Json)
| JObj (fields : list (string * Json)).
#[local] Set Elimination Schemes.

(** An object literal: its properties in insertion order. *)
Definition Obj := list (string * Json).

Definition truthy (j : Json) : bool :=
  match j with
  | JUndefined | JNull => false
  | JBool b => b
  | JNum n => negb (n =? 0)%Z
  | JStr s => negb (String.eqb s "")
  | JArr _ | JObj _ => true
  end.

Fixpoint prop (k : string) (o : Obj) : Json :=
  match o with
  | [] => JUndefined
  | (k', v) :: rest => if String.eqb k' k then v else prop k rest
  end.

(** [j.k] on a validated value. *)
Definition get (k : string) (j : Json) : Json :=
  match j with
  | JObj o => prop k o
  | _ => JUndefined
  end.

(** [o[k] = v]: an existing property keeps its place. *)
Fixpoint set (k : string) (v : Json) (o : Obj) : Obj :=
  match o with
  | [] => [(k, v)]
  | (k', v') :: rest => if String.eqb k' k then (k, v) :: rest else (k', v') :: set k v rest
  end.

(** [{ ...a, ...b }] *)
Definition spread (a b : Obj) : Obj := foldl (λ acc kv, set kv.1 kv.2 acc) a b.

(** The own properties a spread copies out of a validated value. *)
Definition props (j : Json) : Obj :=
  match j with
  | JObj o => o
  | _ => []
  end.

(** [const { k: _, ...rest } = o] *)
Definition omit (k : string) (o : Obj) : Obj := filter (λ kv, kv.1 ≠ k) o.

(** [modelId ? { model_id: modelId } : {}] *)
Definition model_id_if (modelId : string) : Obj :=
  if truthy (JStr modelId) then [("model_id", JStr modelId)] else [].

(** A validated request. An absent optional [modelId] is the empty string,
    which the handlers do not tell apart from [undefined]. *)
Record Request := {
  modelId : string;
  query : Obj;
  body : Json;
}.

(** [Object.keys(o)] *)
Definition keys (o : Obj) : list string := fst <$> o.

(** The names an object literal inherits from [Object.prototype]: [acc[k]]
    finds a value under them on [{}] too. *)
Definition Object_prototype : list string :=
  ["constructor"; "__proto__"; "hasOwnProperty"; "isPrototypeOf"; "propertyIsEnumerable";
   "toLocaleString"; "toString"; "valueOf"; "__defineGetter__"; "__defineSetter__";
   "__lookupGetter__"; "__lookupSetter__"].

(** A key under which [acc[k]] on an object literal finds own properties
    only. *)
Definition own_key (k : string) : Prop := k ∉ Object_prototype.

#[export] Instance own_key_dec (k : string) : Decision (own_key k).
Proof. unfold own_key. apply _. Defined.

(** Whether [acc[k]] on an object literal without own property [k] finds a
    value all the same: a function, or [Object.prototype] itself, neither of
    which has [push] or [reduce]. *)
Definition inherited (k : string) : bool := bool_decide (k ∈ Object_prototype).

(** An array index: the canonical numeric string of an integer below
    [2^32 - 1]. *)
Definition digit (c : ascii) : option N :=
  let n := N_of_ascii c in
  if (48 <=? n)%N && (n <=? 57)%N then Some (n - 48)%N else None.

Fixpoint decimal (acc : N) (s : string) : option N :=
  match s with
  | EmptyString => Some acc
  | String c rest => d ← digit c; decimal (10 * acc + d)%N rest
  end.

Definition array_index (k : string) : option N :=
  match k with
  | EmptyString => None
  | String c rest =>
      if Ascii.eqb c "0" && negb (String.eqb rest "") then None
      else n ← decimal 0 k; if (n <? 4294967295)%N then Some n else None
  end.

(** [Object.values(o)] of an object given by its properties in insertion
    order: the values under array indices in ascending order, then the
    others in insertion order. *)
Definition index_le {A} (x y : string * A) : Prop :=
  (default 0 (array_index x.1) ≤ default 0 (array_index y.1))%N.

#[export] Instance index_le_dec {A} : RelDecision (@index_le A) :=
  λ x y, N.le_dec (default 0%N (array_index x.1)) (default 0%N (array_index y.1)).

Definition Object_values {A} (o : list (string * A)) : list A :=
  snd <$> (merge_sort index_le (filter (λ kv, is_Some (array_index kv.1)) o)
           ++ filter (λ kv, ¬ is_Some (array_index kv.1)) o).

(** *** The clients and the handler monad *)

Section Routes.

(** [PipelineDefinition], the errors the clients throw and what [wrapError]
    makes of them. *)
Variable Pipeline : Type.
Variable Err : Type.
Variable WrappedError : Type.
Variable wrapError : Err → WrappedError.

(** The [TypeError] of calling the method named on a value that has no such
    method. *)
Variable TypeError : string → Err.

(** [Record<string, PipelineDefinition>] *)
Definition Pipelines := gmap string Pipeline.

Record Metadata := { model_aliases : option (list string) }.

Record TrainedModelConfigResponse := {
  model_id : string;
  metadata : option Metadata;
  pipelines : option Pipelines;
  config : Json;
}.

Record TrainedModelsResponse := {
  count : Z;
  trained_model_configs : list TrainedModelConfigResponse;
}.

Record DeploymentStats := { deployment_id : string }.

Record TrainedModelStats := {
  stats_model_id : string;
  deployment_stats : option DeploymentStats;
  stats : Json;
}.

Record TrainedModelsStatsResponse := {
  stats_count : Z;
  trained_model_stats : list TrainedModelStats;
}.

(** A [Map<string, Record<string, PipelineDefinition> | null>], in insertion
    order. *)
Definition PipelinesMap := list (string * option Pipelines).

Record ModelPipelines := {
  mp_model_id : string;
  mp_pipelines : option Pipelines;
}.

Inductive Outcome (A : Type) :=
| Returns (a : A)
| Throws (e : Err).
Arguments Returns {A} a.
Arguments Throws {A} e.

(** What a handler can reach: the machine-learning client, the models
    provider and the ingest API of the internal user. The answer to a call
    depends on its arguments. *)
Record Client := {
  mlClient_getTrainedModels : Obj → Outcome TrainedModelsResponse;
  mlClient_getTrainedModelsStats : option Obj → Outcome TrainedModelsStatsResponse;
  modelsProvider_getModelsPipelines : list string → Outcome PipelinesMap;
  mlClient_putTrainedModel : Obj → Outcome Json;
  mlClient_deleteTrainedModel : Obj → Outcome Json;
  mlClient_startTrainedModelDeployment : Obj → Outcome Json;
  mlClient_updateTrainedModelDeployment : Obj → Outcome Json;
  mlClient_stopTrainedModelDeployment : Obj → Outcome Json;
  ingest_simulate : Obj → Outcome Json;
  mlClient_inferTrainedModel : Obj → Outcome Json;
}.

(** What a handler did, in order. *)
Inductive Call :=
| getTrainedModels (params : Obj)
| getTrainedModelsStats (params : option Obj)
| getModelsPipelines (ids : list string)
| putTrainedModel (params : Obj)
| deleteTrainedModel (params : Obj)
| startTrainedModelDeployment (params : Obj)
| updateTrainedModelDeployment (params : Obj)
| stopTrainedModelDeployment (params : Obj)
| simulate (params : Obj)
| inferTrainedModel (params : Obj)
| mlLog_debug (e : Err).

Inductive Response (B : Type) :=
| ok (body : B)
| customError (e : WrappedError).
Arguments ok {B} body.
Arguments customError {B} e.

Definition H (A : Type) : Type := list Call → Outcome A * list Call.

#[export] Instance H_ret : MRet H := λ A a log, (Returns a, log).

#[export] Instance H_bind : MBind H := λ A B f m log,
  match m log with
  | (Returns a, log') => f a log'
  | (Throws e, log') => (Throws e, log')
  end.

(** [try { m } catch (e) { h e }] *)
Definition try_catch {A} (m : H A) (h : Err → H A) : H A := λ log,
  match m log with
  | (Returns a, log') => (Returns a, log')
  | (Throws e, log') => h e log'
  end.

(** An awaited call with its outcome. *)
Definition await {A} (c : Call) (r : Outcome A) : H A := λ log, (r, log ++ [c]).

Definition debug (e : Err) : H () := λ log, (Returns (), log ++ [mlLog_debug e]).

Variable client : Client.

(** *** The handlers *)

(** [stats.trained_model_stats.reduce(...)]: the deployment ids by model id. *)
Fixpoint push (k : string) (v : string) (acc : list (string * list string))
  : list (string * list string) :=
  match acc with
  | [] => [(k, [v])]
  | (k', vs) :: rest =>
      if String.eqb k' k then (k', vs ++ [v]) :: rest else (k', vs) :: push k v rest
  end.

(** The reduce starts from [{}]: under a name inherited from
    [Object.prototype], which is never an own key of [acc], [acc[k]] is
    truthy and [acc[k].push] is no function. *)
Definition add_deployment (acc : Outcome (list (string * list string)))
    (curr : TrainedModelStats) : Outcome (list (string * list string)) :=
  match acc with
  | Throws e => Throws e
  | Returns acc =>
      match deployment_stats curr with
      | None => Returns acc
      | Some d =>
          if inherited (stats_model_id curr)
          then Throws (TypeError "push")
          else Returns (push (stats_model_id curr) (deployment_id d) acc)
      end
  end.

Definition modelDeploymentsMap (l : list TrainedModelStats)
  : Outcome (list (string * list string)) :=
  foldl add_deployment (Returns []) l.

(** [Array.from(new Set(l))]: the first occurrence of each element. *)
Definition unique (l : list string) : list string :=
  foldl (λ acc x, if bool_decide (x ∈ acc) then acc else acc ++ [x]) [] l.

(** [metadata?.model_aliases ?? []] *)
Definition aliases (m : TrainedModelConfigResponse) : list string :=
  default [] (metadata m ≫= model_aliases).

Definition modelIdsAndAliases (result : list TrainedModelConfigResponse)
    (deployments : list (string * list string)) : list string :=
  unique (concat ((λ m, model_id m :: aliases m) <$> result)
          ++ concat (Object_values deployments)).

Fixpoint Map_get (k : string) (m : PipelinesMap) : option (option Pipelines) :=
  match m with
  | [] => None
  | (k', v) :: rest => if String.eqb k' k then Some v else Map_get k rest
  end.

(** [pipelinesResponse.get(k) ?? {}] *)
Definition pipelines_of (pipelinesResponse : PipelinesMap) (k : string) : Pipelines :=
  default ∅ (mjoin (Map_get k pipelinesResponse)).

(** [l.reduce((acc, k) => ({ ...acc, ...(pipelinesResponse.get(k) ?? {}) }), {})] *)
Definition collect (pipelinesResponse : PipelinesMap) (l : list string) : Pipelines :=
  foldl (λ acc k, pipelines_of pipelinesResponse k ∪ acc) ∅ l.

(** [modelDeploymentsMap[k] ?? []] *)
Fixpoint deployments_of (k : string) (m : list (string * list string)) : list string :=
  match m with
  | [] => []
  | (k', vs) :: rest => if String.eqb k' k then vs else deployments_of k rest
  end.

(** The assignment to [model.pipelines]. *)
Definition with_pipelines (pipelinesResponse : PipelinesMap)
    (deployments : list (string * list string)) (model : TrainedModelConfigResponse)
  : TrainedModelConfigResponse :=
  {| model_id := model_id model;
     metadata := metadata model;
     pipelines :=
       Some (collect pipelinesResponse (deployments_of (model_id model) deployments)
             ∪ (collect pipelinesResponse (aliases model)
                ∪ pipelines_of pipelinesResponse (model_id model)));
     config := config model |}.

(** The assignment [model.pipelines = { ... }] of the loop:
    [modelDeploymentsMap[model.model_id]] under an inherited name is a value
    without [reduce]. *)
Definition assign_pipelines (pipelinesResponse : PipelinesMap)
    (deployments : list (string * list string)) (model : TrainedModelConfigResponse)
  : Outcome TrainedModelConfigResponse :=
  if inherited (model_id model)
  then Throws (TypeError "reduce")
  else Returns (with_pipelines pipelinesResponse deployments model).

(** [for (const model of result) { model.pipelines = ... }]: the models are
    assigned in place, so those assigned before an assignment throws stay
    assigned. *)
Fixpoint for_of (f : TrainedModelConfigResponse → Outcome TrainedModelConfigResponse)
    (models : list TrainedModelConfigResponse)
  : Outcome () * list TrainedModelConfigResponse :=
  match models with
  | [] => (Returns (), [])
  | model :: rest =>
      match f model with
      | Returns model' => let '(r, rest') := for_of f rest in (r, model' :: rest')
      | Throws e => (Throws e, model :: rest)
      end
  end.

(** A block that assigns to the models of [result]. The array is shared with
    what follows the block, so the block ends with the models as it left
    them, also when it throws. *)
Definition Block (A : Type) : Type :=
  list TrainedModelConfigResponse → list Call
  → Outcome A * list TrainedModelConfigResponse * list Call.

#[export] Instance Block_ret : MRet Block := λ A a models log, (Returns a, models, log).

#[export] Instance Block_bind : MBind Block := λ A B f m models log,
  match m models log with
  | (Returns a, models', log') => f a models' log'
  | (Throws e, models', log') => (Throws e, models', log')
  end.

(** A step of a block that leaves the models alone. *)
Definition lift {A} (m : H A) : Block A := λ models log,
  let '(r, log') := m log in (r, models, log').

(** A computation without calls: it returns or throws. *)
Definition eval {A} (r : Outcome A) : H A := λ log, (r, log).

Definition for_of_result
    (f : TrainedModelConfigResponse → Outcome TrainedModelConfigResponse) : Block () :=
  λ models log, let '(r, models') := for_of f models in (r, models', log).

(** [try { m } catch (e) { h e }] in a block: the handler finds the models
    as [m] left them. *)
Definition try_catch_block {A} (m : Block A) (h : Err → Block A) : Block A :=
  λ models log,
  match m models log with
  | (Returns a, models', log') => (Returns a, models', log')
  | (Throws e, models', log') => h e models' log'
  end.

(** Running a block on the models of [result]; what follows reads [result]
    as the block left it. *)
Definition with_models {A} (result : list TrainedModelConfigResponse) (m : Block A)
  : H (list TrainedModelConfigResponse) := λ log,
  match m result log with
  | (Returns _, models, log') => (Returns models, log')
  | (Throws e, _, log') => (Throws e, log')
  end.

(** [GET /api/ml/trained_models/{modelId?}] *)
Definition GetTrainedModel (request : Request) : H (Response (list TrainedModelConfigResponse)) :=
  try_catch
    (let withPipelines := prop "with_pipelines" (query request) in
     let query := omit "with_pipelines" (query request) in
     let params := spread (spread [("size", JNum 1000)] query) (model_id_if (modelId request)) in
     body ← await (getTrainedModels params) (mlClient_getTrainedModels client params);
     let result := trained_model_configs body in
     result ← with_models result
       (try_catch_block
          (if truthy withPipelines
           then
             let params := spread (model_id_if (modelId request)) [("size", JNum 10000)] in
             stats ← lift (await (getTrainedModelsStats (Some params))
                             (mlClient_getTrainedModelsStats client (Some params)));
             deployments ← lift (eval (modelDeploymentsMap (trained_model_stats stats)));
             let ids := modelIdsAndAliases result deployments in
             pipelinesResponse ← lift (await (getModelsPipelines ids)
                                         (modelsProvider_getModelsPipelines client ids));
             for_of_result (assign_pipelines pipelinesResponse deployments)
           else mret ())
          (λ e, lift (debug e)));
     mret (ok result))
    (λ e, mret (customError (wrapError e))).

(** [GET /api/ml/trained_models/_stats] *)
Definition GetTrainedModelStats (request : Request) : H (Response TrainedModelsStatsResponse) :=
  try_catch
    (body ← await (getTrainedModelsStats None) (mlClient_getTrainedModelsStats client None);
     mret (ok body))
    (λ e, mret (customError (wrapError e))).

(** [GET /api/ml/trained_models/{modelId}/_stats] *)
Definition GetTrainedModelStatsById (request : Request)
  : H (Response TrainedModelsStatsResponse) :=
  try_catch
    (let params := model_id_if (modelId request) in
     body ← await (getTrainedModelsStats (Some params))
              (mlClient_getTrainedModelsStats client (Some params));
     mret (ok body))
    (λ e, mret (customError (wrapError e))).

(** [modelId.split(',')] *)
Fixpoint split_commas (s : string) : list string :=
  match s with
  | EmptyString => [""]
  | String c rest =>
      if Ascii.eqb c ","%char
      then "" :: split_commas rest
      else match split_commas rest with
           | [] => [String c ""]
           | x :: xs => String c x :: xs
           end
  end.

(** [GET /api/ml/trained_models/{modelId}/pipelines] *)
Definition GetTrainedModelPipelines (request : Request) : H (Response (list ModelPipelines)) :=
  try_catch
    (let ids := split_commas (modelId request) in
     result ← await (getModelsPipelines ids) (modelsProvider_getModelsPipelines client ids);
     mret (ok ((λ kv, {| mp_model_id := kv.1; mp_pipelines := kv.2 |}) <$> result)))
    (λ e, mret (customError (wrapError e))).

(** [PUT /api/ml/trained_models/{modelId}] *)
Definition PutTrainedModel (request : Request) : H (Response Json) :=
  try_catch
    (let params :=
       spread [("model_id", JStr (modelId request)); ("body", body request)]
         (if truthy (prop "defer_definition_decompression" (query request))
          then [("defer_definition_decompression", JBool true)]
          else []) in
     body ← await (putTrainedModel params) (mlClient_putTrainedModel client params);
     mret (ok body))
    (λ e, mret (customError (wrapError e))).

(** [DELETE /api/ml/trained_models/{modelId}] *)
Definition DeleteTrainedModel (request : Request) : H (Response Json) :=
  try_catch
    (let params := [("model_id", JStr (modelId request))] in
     body ← await (deleteTrainedModel params) (mlClient_deleteTrainedModel client params);
     mret (ok body))
    (λ e, mret (customError (wrapError e))).

(** [POST /api/ml/trained_models/{modelId}/deployment/_start] *)
Definition StartTrainedModelDeployment (request : Request) : H (Response Json) :=
  try_catch
    (let params := spread [("model_id", JStr (modelId request))] (query request) in
     body ← await (startTrainedModelDeployment params)
              (mlClient_startTrainedModelDeployment client params);
     mret (ok body))
    (λ e, mret (customError (wrapError e))).

(** [POST /api/ml/trained_models/{modelId}/deployment/_update] *)
Definition UpdateTrainedModelDeployment (request : Request) : H (Response Json) :=
  try_catch
    (let params := spread [("model_id", JStr (modelId request))] (props (body request)) in
     body ← await (updateTrainedModelDeployment params)
              (mlClient_updateTrainedModelDeployment client params);
     mret (ok body))
    (λ e, mret (customError (wrapError e))).

(** [x ?? false] *)
Definition or_false (j : Json) : Json :=
  match j with
  | JUndefined | JNull => JBool false
  | _ => j
  end.

(** [POST /api/ml/trained_models/{modelId}/deployment/_stop] *)
Definition StopTrainedModelDeployment (request : Request) : H (Response Json) :=
  try_catch
    (let params := [("model_id", JStr (modelId request));
                    ("force", or_false (prop "force" (query request)))] in
     body ← await (stopTrainedModelDeployment params)
              (mlClient_stopTrainedModelDeployment client params);
     mret (ok body))
    (λ e, mret (customError (wrapError e))).

(** [POST /api/ml/trained_models/pipeline_simulate] *)
Definition SimulateIngestPipeline (request : Request) : H (Response Json) :=
  try_catch
    (let pipeline := get "pipeline" (body request) in
     let docs := get "docs" (body request) in
     let params := [("pipeline", pipeline); ("docs", docs)] in
     body ← await (simulate params) (ingest_simulate client params);
     mret (ok body))
    (λ e, mret (customError (wrapError e))).

(** [POST /api/ml/trained_models/infer/{modelId}] *)
Definition InferTrainedModelDeployment (request : Request) : H (Response Json) :=
  try_catch
    (let params :=
       spread
         [("model_id", JStr (modelId request));
          ("body",
           JObj (spread [("docs", get "docs" (body request))]
                   (if truthy (get "inference_config" (body request))
                    then [("inference_config", get "inference_config" (body request))]
                    else [])))]
         (if truthy (prop "timeout" (query request))
          then [("timeout", prop "timeout" (query request))]
          else []) in
     body ← await (inferTrainedModel params) (mlClient_inferTrainedModel client params);
     mret (ok body))
    (λ e, mret (customError (wrapError e))).

(** What a thin proxy does: one call, whose result is returned with [ok] and
    whose error is returned with [customError (wrapError e)]. *)
Definition proxy {A B} (c : Call) (r : Outcome A) (f : A → B)
  : Outcome (Response B) * list Call :=
  (Returns match r with
           | Returns a => ok (f a)
           | Throws e => customError (wrapError e)
           end,
   [c]).

(** The deployment ids the statistics list for the model [k], in order. *)
Definition deployment_ids (k : string) (l : list TrainedModelStats) : list string :=
  omap (λ s, if String.eqb (stats_model_id s) k
             then deployment_id <$> deployment_stats s else None) l.

(** The keys under which the pipelines of [model] are looked up. *)
Definition lookup_keys (deployments : list (string * list string))
    (model : TrainedModelConfigResponse) : list string :=
  model_id model :: aliases model ++ deployments_of (model_id model) deployments.

End Routes.

Arguments Returns {Err A} a.
Arguments Throws {Err A} e.
Arguments ok {WrappedError B} body.
Arguments customError {WrappedError B} e.

End TrainedModelsRoutes.

(** ** A small concrete platform, to run the service and the routes on *)

Module Sample.
Import Encoding MessageSigning.

Definition JsRecord : Type := list (string * string).

Definition quoted (s : string) : string :=
  String (ascii_of_nat 34) (s +:+ String (ascii_of_nat 34) "").

Fixpoint members (r : JsRecord) : string :=
  match r with
  | [] => ""
  | [(k, v)] => quoted k +:+ ":" +:+ quoted v
  | (k, v) :: rest => quoted k +:+ ":" +:+ quoted v +:+ "," +:+ members rest
  end.

Definition JSON_stringify (r : JsRecord) : string := "{" +:+ members r +:+ "}".

Definition byte_of_nat (n : nat) : byte := default x00 (Byte.of_nat (n mod 256)).

Definition entropy (n : nat) : byte := byte_of_nat (7 * n + 3).

Definition prime256v1 (seed : nat) (passphrase : string) : Buffer * Buffer :=
  ([x30; x81; byte_of_nat seed], [x30; x59; byte_of_nat seed]).

Definition Buffer_from_base64 (s : string) : Buffer := list_byte_of_string s.

Definition SHA256_sign (data key : Buffer) (passphrase : string) : string :=
  toString_base64 (take 4 key ++ list_byte_of_string passphrase ++ data)%list.

Definition generateKeyPair := MessageSigning.generateKeyPair entropy prime256v1.
Definition getPublicKey := MessageSigning.getPublicKey entropy prime256v1.
Definition rotateKeyPair := MessageSigning.rotateKeyPair entropy prime256v1.
Definition sign :=
  MessageSigning.sign JsRecord JSON_stringify entropy prime256v1 Buffer_from_base64 SHA256_sign.

(** A store without key pair. *)
Definition empty_world (enc : bool) : World :=
  {| objects := []; encryptedSavedObjectsSetup := Some {| canEncrypt := enc |};
     rng := 0; faults := λ _, None; trace := [] |}.

(** A key pair saved before encryption was configured. *)
Definition plain_key_pair : SavedObject :=
  {| so_id := 7;
     attributes := Some {| private_key := Some "cHJpdg=="; public_key := Some "cHVi";
                           passphrase := None; passphrase_plain := Some "secret" |} |}.

Definition older_key_pair : SavedObject :=
  {| so_id := 3;
     attributes := Some {| private_key := Some "b2xk"; public_key := Some "b2xkcHVi";
                           passphrase := Some "older"; passphrase_plain := None |} |}.

Definition one_key_pair (enc : bool) : World :=
  {| objects := [plain_key_pair]; encryptedSavedObjectsSetup := Some {| canEncrypt := enc |};
     rng := 0; faults := λ _, None; trace := [] |}.

(** The attributes of the key pair generated from the empty store with the
    passphrase [pw] when encryption is not available. *)
Definition plain_attributes : MessageSigningKeys :=
  {| private_key := Some "MIEA"; public_key := Some "MFkA";
     passphrase := None; passphrase_plain := Some "pw" |}.

(** Two key pairs in the store, the newer first. *)
Definition two_key_pairs : World :=
  {| objects := [plain_key_pair; older_key_pair];
     encryptedSavedObjectsSetup := Some {| canEncrypt := false |};
     rng := 0; faults := λ _, None; trace := [] |}.

(** An empty store whose sixth dependency call, [soClient.create], throws. *)
Definition create_fails : World :=
  {| objects := []; encryptedSavedObjectsSetup := Some {| canEncrypt := true |};
     rng := 0; faults := λ i, if Nat.eqb i 5 then Some 503 else None; trace := [] |}.

(** A client whose statistics call throws. *)
Definition model_a : TrainedModelsRoutes.TrainedModelConfigResponse string :=
  {| TrainedModelsRoutes.model_id := "model-a";
     TrainedModelsRoutes.metadata := None;
     TrainedModelsRoutes.pipelines := None;
     TrainedModelsRoutes.config := TrainedModelsRoutes.JNull |}.

Definition client : TrainedModelsRoutes.Client string string :=
  {| TrainedModelsRoutes.mlClient_getTrainedModels := λ _,
       TrainedModelsRoutes.Returns
         {| TrainedModelsRoutes.count := 1%Z;
            TrainedModelsRoutes.trained_model_configs := [model_a] |};
     TrainedModelsRoutes.mlClient_getTrainedModelsStats := λ _,
       TrainedModelsRoutes.Throws "stats unavailable";
     TrainedModelsRoutes.modelsProvider_getModelsPipelines := λ _,
       TrainedModelsRoutes.Returns [];
     TrainedModelsRoutes.mlClient_putTrainedModel := λ _,
       TrainedModelsRoutes.Returns TrainedModelsRoutes.JNull;
     TrainedModelsRoutes.mlClient_deleteTrainedModel := λ _,
       TrainedModelsRoutes.Returns TrainedModelsRoutes.JNull;
     TrainedModelsRoutes.mlClient_startTrainedModelDeployment := λ _,
       TrainedModelsRoutes.Returns TrainedModelsRoutes.JNull;
     TrainedModelsRoutes.mlClient_updateTrainedModelDeployment := λ _,
       TrainedModelsRoutes.Returns TrainedModelsRoutes.JNull;
     TrainedModelsRoutes.mlClient_stopTrainedModelDeployment := λ _,
       TrainedModelsRoutes.Returns TrainedModelsRoutes.JNull;
     TrainedModelsRoutes.ingest_simulate := λ _,
       TrainedModelsRoutes.Returns TrainedModelsRoutes.JNull;
     TrainedModelsRoutes.mlClient_inferTrainedModel := λ _,
       TrainedModelsRoutes.Returns TrainedModelsRoutes.JNull |}.

Definition wrapError (e : string) : nat * string := (500, e).

Definition TypeError (method : string) : string :=
  String.append method " is not a function".

Definition request_with_pipelines : TrainedModelsRoutes.Request :=
  {| TrainedModelsRoutes.modelId := "";
     TrainedModelsRoutes.query := [("with_pipelines", TrainedModelsRoutes.JStr "true")];
     TrainedModelsRoutes.body := TrainedModelsRoutes.JUndefined |}.

(** A store with one key pair whose tenth dependency call, the
    [soClient.create] of a rotation, throws. *)
Definition rotation_fails : World :=
  {| objects := [plain_key_pair]; encryptedSavedObjectsSetup := Some {| canEncrypt := false |};
     rng := 0; faults := λ i, if Nat.eqb i 9 then Some 503 else None; trace := [] |}.

(** A key pair saved with a passphrase in both attributes. *)
Definition both_passphrases : MessageSigningKeys :=
  {| private_key := Some "cHJpdg=="; public_key := Some "cHVi";
     passphrase := Some "sealed"; passphrase_plain := Some "secret" |}.

Definition two_passphrases : World :=
  {| objects := [ {| so_id := 7; attributes := Some both_passphrases |} ];
     encryptedSavedObjectsSetup := Some {| canEncrypt := true |};
     rng := 0; faults := λ _, None; trace := [] |}.

(** A client that answers every call: one model with an alias and a
    deployment, and a pipeline under the alias. *)
Definition model_b : TrainedModelsRoutes.TrainedModelConfigResponse string :=
  {| TrainedModelsRoutes.model_id := "model-b";
     TrainedModelsRoutes.metadata :=
       Some {| TrainedModelsRoutes.model_aliases := Some ["alias-b"] |};
     TrainedModelsRoutes.pipelines := None;
     TrainedModelsRoutes.config := TrainedModelsRoutes.JNull |}.

Definition models_b : TrainedModelsRoutes.TrainedModelsResponse string :=
  {| TrainedModelsRoutes.count := 1%Z;
     TrainedModelsRoutes.trained_model_configs := [model_b] |}.

Definition stats_b : TrainedModelsRoutes.TrainedModelsStatsResponse :=
  {| TrainedModelsRoutes.stats_count := 2%Z;
     TrainedModelsRoutes.trained_model_stats :=
       [ {| TrainedModelsRoutes.stats_model_id := "model-b";
            TrainedModelsRoutes.deployment_stats :=
              Some {| TrainedModelsRoutes.deployment_id := "deployment-b" |};
            TrainedModelsRoutes.stats := TrainedModelsRoutes.JNull |};
         {| TrainedModelsRoutes.stats_model_id := "model-b";
            TrainedModelsRoutes.deployment_stats := None;
            TrainedModelsRoutes.stats := TrainedModelsRoutes.JNull |} ] |}.

Definition pipelines_b : TrainedModelsRoutes.PipelinesMap string :=
  [("alias-b", Some {[ "pipeline-1" := "definition" ]}); ("model-b", None)].

Definition answering_client : TrainedModelsRoutes.Client string string :=
  {| TrainedModelsRoutes.mlClient_getTrainedModels := λ _,
       TrainedModelsRoutes.Returns models_b;
     TrainedModelsRoutes.mlClient_getTrainedModelsStats := λ _,
       TrainedModelsRoutes.Returns stats_b;
     TrainedModelsRoutes.modelsProvider_getModelsPipelines := λ _,
       TrainedModelsRoutes.Returns pipelines_b;
     TrainedModelsRoutes.mlClient_putTrainedModel := λ _,
       TrainedModelsRoutes.Returns TrainedModelsRoutes.JNull;
     TrainedModelsRoutes.mlClient_deleteTrainedModel := λ _,
       TrainedModelsRoutes.Returns TrainedModelsRoutes.JNull;
     TrainedModelsRoutes.mlClient_startTrainedModelDeployment := λ _,
       TrainedModelsRoutes.Returns TrainedModelsRoutes.JNull;
     TrainedModelsRoutes.mlClient_updateTrainedModelDeployment := λ _,
       TrainedModelsRoutes.Returns TrainedModelsRoutes.JNull;
     TrainedModelsRoutes.mlClient_stopTrainedModelDeployment := λ _,
       TrainedModelsRoutes.Returns TrainedModelsRoutes.JNull;
     TrainedModelsRoutes.ingest_simulate := λ _,
       TrainedModelsRoutes.Returns TrainedModelsRoutes.JNull;
     TrainedModelsRoutes.mlClient_inferTrainedModel := λ _,
       TrainedModelsRoutes.Returns TrainedModelsRoutes.JNull |}.

(** [GET /api/ml/trained_models/model-b?with_pipelines=true&size=5] *)
Definition request_model_b : TrainedModelsRoutes.Request :=
  {| TrainedModelsRoutes.modelId := "model-b";
     TrainedModelsRoutes.query :=
       [("with_pipelines", TrainedModelsRoutes.JBool true);
        ("size", TrainedModelsRoutes.JNum 5)];
     TrainedModelsRoutes.body := TrainedModelsRoutes.JUndefined |}.

(** A deployment request with the same threading parameter in the query and
    in the body. *)
Definition request_deployment : TrainedModelsRoutes.Request :=
  {| TrainedModelsRoutes.modelId := "model-b";
     TrainedModelsRoutes.query := [("number_of_allocations", TrainedModelsRoutes.JNum 2)];
     TrainedModelsRoutes.body :=
       TrainedModelsRoutes.JObj [("number_of_allocations", TrainedModelsRoutes.JNum 2)] |}.

(** Statistics that list a deployment of a model called [constructor]. *)
Definition stats_constructor : TrainedModelsRoutes.TrainedModelsStatsResponse :=
  {| TrainedModelsRoutes.stats_count := 1%Z;
     TrainedModelsRoutes.trained_model_stats :=
       [ {| TrainedModelsRoutes.stats_model_id := "constructor";
            TrainedModelsRoutes.deployment_stats :=
              Some {| TrainedModelsRoutes.deployment_id := "deployment-c" |};
            TrainedModelsRoutes.stats := TrainedModelsRoutes.JNull |} ] |}.

Definition constructor_client : TrainedModelsRoutes.Client string string :=
  {| TrainedModelsRoutes.mlClient_getTrainedModels := λ _,
       TrainedModelsRoutes.Returns models_b;
     TrainedModelsRoutes.mlClient_getTrainedModelsStats := λ _,
       TrainedModelsRoutes.Returns stats_constructor;
     TrainedModelsRoutes.modelsProvider_getModelsPipelines := λ _,
       TrainedModelsRoutes.Returns pipelines_b;
     TrainedModelsRoutes.mlClient_putTrainedModel := λ _,
       TrainedModelsRoutes.Returns TrainedModelsRoutes.JNull;
     TrainedModelsRoutes.mlClient_deleteTrainedModel := λ _,
       TrainedModelsRoutes.Returns TrainedModelsRoutes.JNull;
     TrainedModelsRoutes.mlClient_startTrainedModelDeployment := λ _,
       TrainedModelsRoutes.Returns TrainedModelsRoutes.JNull;
     TrainedModelsRoutes.mlClient_updateTrainedModelDeployment := λ _,
       TrainedModelsRoutes.Returns TrainedModelsRoutes.JNull;
     TrainedModelsRoutes.mlClient_stopTrainedModelDeployment := λ _,
       TrainedModelsRoutes.Returns TrainedModelsRoutes.JNull;
     TrainedModelsRoutes.ingest_simulate := λ _,
       TrainedModelsRoutes.Returns TrainedModelsRoutes.JNull;
     TrainedModelsRoutes.mlClient_inferTrainedModel := λ _,
       TrainedModelsRoutes.Returns TrainedModelsRoutes.JNull |}.

(** A client whose models include one called [constructor]. *)
Definition model_constructor : TrainedModelsRoutes.TrainedModelConfigResponse string :=
  {| TrainedModelsRoutes.model_id := "constructor";
     TrainedModelsRoutes.metadata := None;
     TrainedModelsRoutes.pipelines := None;
     TrainedModelsRoutes.config := TrainedModelsRoutes.JNull |}.

Definition two_models_client : TrainedModelsRoutes.Client string string :=
  {| TrainedModelsRoutes.mlClient_getTrainedModels := λ _,
       TrainedModelsRoutes.Returns
         {| TrainedModelsRoutes.count := 2%Z;
            TrainedModelsRoutes.trained_model_configs := [model_b; model_constructor] |};
     TrainedModelsRoutes.mlClient_getTrainedModelsStats := λ _,
       TrainedModelsRoutes.Returns stats_b;
     TrainedModelsRoutes.modelsProvider_getModelsPipelines := λ _,
       TrainedModelsRoutes.Returns pipelines_b;
     TrainedModelsRoutes.mlClient_putTrainedModel := λ _,
       TrainedModelsRoutes.Returns TrainedModelsRoutes.JNull;
     TrainedModelsRoutes.mlClient_deleteTrainedModel := λ _,
       TrainedModelsRoutes.Returns TrainedModelsRoutes.JNull;
     TrainedModelsRoutes.mlClient_startTrainedModelDeployment := λ _,
       TrainedModelsRoutes.Returns TrainedModelsRoutes.JNull;
     TrainedModelsRoutes.mlClient_updateTrainedModelDeployment := λ _,
       TrainedModelsRoutes.Returns TrainedModelsRoutes.JNull;
     TrainedModelsRoutes.mlClient_stopTrainedModelDeployment := λ _,
       TrainedModelsRoutes.Returns TrainedModelsRoutes.JNull;
     TrainedModelsRoutes.ingest_simulate := λ _,
       TrainedModelsRoutes.Returns TrainedModelsRoutes.JNull;
     TrainedModelsRoutes.mlClient_inferTrainedModel := λ _,
       TrainedModelsRoutes.Returns TrainedModelsRoutes.JNull |}.

End Sample.

(** ** Facts about the encodings *)

Module EncodingFacts.
Import Encoding.

Lemma toString_hex_length (b : Buffer) :
  String.length (toString_hex b) = 2 * length b.
Proof. induction b as [|x rest IH]; simpl; [reflexivity | rewrite IH; lia]. Qed.

Example toString_hex_bytes : toString_hex [x00; xff; x1a] = "00ff1a".
Proof. reflexivity. Qed.

Example toString_base64_one_byte : toString_base64 (list_byte_of_string "M") = "TQ==".
Proof. reflexivity. Qed.

Example toString_base64_two_bytes : toString_base64 (list_byte_of_string "Ma") = "TWE=".
Proof. reflexivity. Qed.

Example toString_base64_text :
  toString_base64 (list_byte_of_string "light work.") = "bGlnaHQgd29yay4=".
Proof. reflexivity. Qed.

Lemma toString_hex_nonempty (b : Buffer) : b ≠ [] → toString_hex b ≠ "".
Proof. destruct b; [contradiction | discriminate]. Qed.

Lemma toString_base64_nonempty (b : Buffer) : b ≠ [] → toString_base64 b ≠ "".
Proof. destruct b as [|x [|y [|z rest]]]; [contradiction | discriminate..]. Qed.

Lemma truthy_string (s : string) : Js.truthy (Some s) = true ↔ s ≠ "".
Proof. destruct s; simpl; split; congruence. Qed.

Lemma truthy_default (v : option string) : Js.truthy v = true → default "" v ≠ "".
Proof. destruct v as [[|c s]|]; simpl; discriminate. Qed.

Lemma truthy_eq_Some (v : option string) : Js.truthy v = true → v = Some (default "" v).
Proof. destruct v as [[|c s]|]; simpl; done. Qed.

Lemma b64_char_value (v : N) :
  (v < 64)%N → Ascii.eqb (b64_char v) "="%char = false ∧ unbase64 (b64_char v) = Some v.
Proof.
  intros Hv.
  assert (forallb (λ n, let v := N.of_nat n in
                        negb (Ascii.eqb (b64_char v) "="%char)
                        && bool_decide (unbase64 (b64_char v) = Some v))
            (seq 0 64) = true) as H by (vm_compute; reflexivity).
  rewrite forallb_forall in H. specialize (H (N.to_nat v)).
  rewrite N2Nat.id in H. simpl in H.
  assert (In (N.to_nat v) (seq 0 64)) as Hin by (apply in_seq; lia).
  apply H in Hin as [H1 H2]%andb_prop.
  split; [by apply negb_true_iff | by apply bool_decide_eq_true in H2].
Qed.

Lemma byte_of_to_N (x : byte) : byte_of_N (Byte.to_N x) = x.
Proof.
  unfold byte_of_N. pose proof (Byte.to_N_bounded x).
  rewrite N.mod_small by lia. by rewrite Byte.of_to_N.
Qed.

Lemma group_3 (n m k : N) :
  (n < 256 → m < 256 → k < 256 →
   n / 4 < 64 ∧ (n mod 4) * 16 + m / 16 < 64 ∧ (m mod 16) * 4 + k / 64 < 64 ∧ k mod 64 < 64
   ∧ n / 4 * 4 + ((n mod 4) * 16 + m / 16) / 16 = n
   ∧ (((n mod 4) * 16 + m / 16) mod 16) * 16 + ((m mod 16) * 4 + k / 64) / 4 = m
   ∧ (((m mod 16) * 4 + k / 64) mod 4) * 64 + k mod 64 = k)%N.
Proof. intros. repeat split; zify; Z.to_euclidean_division_equations; lia. Qed.

Lemma list_ind_3 {A} (P : list A → Prop) :
  P [] → (∀ x, P [x]) → (∀ x y, P [x; y]) →
  (∀ x y z l, P l → P (x :: y :: z :: l)) →
  ∀ l, P l.
Proof.
  intros H0 H1 H2 H3 l.
  enough (P l ∧ (∀ x, P (x :: l)) ∧ (∀ x y, P (x :: y :: l))) as [H _] by exact H.
  induction l as [|z l (IH0 & IH1 & IH2)]; [by repeat split |].
  repeat split; [apply IH1 | intros; apply IH2 | intros x y; by apply H3].
Qed.

Lemma sextets_group v1 v2 v3 v4 s :
  (v1 < 64 → v2 < 64 → v3 < 64 → v4 < 64 →
   sextets (String (b64_char v1) (String (b64_char v2) (String (b64_char v3)
              (String (b64_char v4) s))))
   = v1 :: v2 :: v3 :: v4 :: sextets s)%N.
Proof.
  intros H1 H2 H3 H4. cbn [sextets].
  destruct (b64_char_value v1 H1) as [-> ->]. destruct (b64_char_value v2 H2) as [-> ->].
  destruct (b64_char_value v3 H3) as [-> ->]. by destruct (b64_char_value v4 H4) as [-> ->].
Qed.

(** Decoding the base64 form of a buffer gives the buffer back. *)
Lemma from_base64_toString_base64 (b : Buffer) : from_base64 (toString_base64 b) = b.
Proof.
  unfold from_base64. induction b as [|x|x y|x y z rest IH] using list_ind_3.
  - reflexivity.
  - pose proof (Byte.to_N_bounded x) as Hx.
    destruct (group_3 (Byte.to_N x) 0 0) as (H1 & H2 & _ & _ & E1 & _); [lia.. |].
    cbn [toString_base64 sextets]. rewrite N.add_0_r in H2.
    destruct (b64_char_value _ H1) as [-> ->]. destruct (b64_char_value _ H2) as [-> ->].
    cbn. rewrite N.add_0_r in E1. by rewrite E1, byte_of_to_N.
  - pose proof (Byte.to_N_bounded x) as Hx. pose proof (Byte.to_N_bounded y) as Hy.
    destruct (group_3 (Byte.to_N x) (Byte.to_N y) 0) as (H1 & H2 & H3 & _ & E1 & E2 & _);
      [lia.. |].
    cbn [toString_base64 sextets]. rewrite N.add_0_r in H3.
    destruct (b64_char_value _ H1) as [-> ->]. destruct (b64_char_value _ H2) as [-> ->].
    destruct (b64_char_value _ H3) as [-> ->].
    cbn. rewrite N.add_0_r in E2. by rewrite E1, E2, !byte_of_to_N.
  - pose proof (Byte.to_N_bounded x) as Hx. pose proof (Byte.to_N_bounded y) as Hy.
    pose proof (Byte.to_N_bounded z) as Hz.
    destruct (group_3 (Byte.to_N x) (Byte.to_N y) (Byte.to_N z))
      as (H1 & H2 & H3 & H4 & E1 & E2 & E3); [lia.. |].
    cbn [toString_base64]. rewrite sextets_group by done.
    cbn [bytes_of_sextets]. by rewrite E1, E2, E3, IH, !byte_of_to_N.
Qed.

Lemma hex_digit_in (n : N) : hex_digit n ∈ hex_digits.
Proof.
  unfold hex_digit, hex_digits. generalize (N.to_nat n). intros k.
  do 16 (destruct k as [|k]; [apply list_elem_of_In; simpl; tauto |]).
  apply list_elem_of_In. simpl. tauto.
Qed.

Lemma toString_hex_digits (b : Buffer) :
  Forall (λ c, c ∈ hex_digits) (list_ascii_of_string (toString_hex b)).
Proof. induction b as [|x rest IH]; simpl; auto using hex_digit_in. Qed.

End EncodingFacts.

(** ** Properties of the message-signing key service *)

Module MessageSigningProofs.
Import Encoding MessageSigning EncodingFacts.

(** *** Rules of the weakest-precondition calculus *)

Lemma wp_ret {A} (a : A) Q w : Q (Ok a) w → wp (mret a) Q w.
Proof. exact id. Qed.

Lemma wp_throw {A} e (Q : Result A → World → Prop) w : Q (Throw e) w → wp (throw e) Q w.
Proof. exact id. Qed.

Lemma wp_bind {A B} (m : M A) (f : A → M B) Q w :
  wp m (λ r w', match r with Ok a => wp (f a) Q w' | Throw e => Q (Throw e) w' end) w →
  wp (m ≫= f) Q w.
Proof.
  unfold wp, mbind, M_bind. destruct (m w) as [[a|e] w']; simpl; exact id.
Qed.

Lemma wp_call {A} op (body : World → Result A * World) Q w :
  (∀ e, faults w (length (trace w)) = Some e →
        Q (Throw (DependencyError e)) (after op (Some e) w w)) →
  (faults w (length (trace w)) = None →
   Q (body w).1 (after op (threw (body w).1) w (body w).2)) →
  wp (call op body) Q w.
Proof.
  unfold wp, call. intros Hf Hok.
  destruct (faults w (length (trace w))) as [e|].
  - apply Hf. reflexivity.
  - destruct (body w) as [r w']. apply Hok. reflexivity.
Qed.

Lemma wp_not_awaited {A} (m : M A) Q w :
  wp m (λ _ w', Q (Ok ()) w') w → wp (not_awaited m) Q w.
Proof. exact id. Qed.

Lemma wp_get_isEncryptionAvailable Q w :
  Q (Ok (isEncryptionAvailable w)) w → wp get_isEncryptionAvailable Q w.
Proof. exact id. Qed.

Lemma wp_mono {A} (m : M A) (Q Q' : Result A → World → Prop) w :
  wp m Q w → (∀ r w', Q r w' → Q' r w') → wp m Q' w.
Proof. unfold wp. auto. Qed.

Section Properties.

Variable JsRecord : Type.
Variable JSON_stringify : JsRecord → string.
Variable entropy : nat → byte.
Variable prime256v1 : nat → string → Buffer * Buffer.
Variable Buffer_from_base64 : string → Buffer.
Variable SHA256_sign : Buffer → Buffer → string → string.

(** What the service relies on from the cryptographic library: the DER
    encoding of a key is not the empty buffer. *)
Hypothesis prime256v1_nonempty :
  ∀ seed pass, (prime256v1 seed pass).1 ≠ [] ∧ (prime256v1 seed pass).2 ≠ [].

Local Abbreviation generatePassphrase := (MessageSigning.generatePassphrase entropy).
Local Abbreviation generateKeyPair := (MessageSigning.generateKeyPair entropy prime256v1).
Local Abbreviation getPublicKey := (MessageSigning.getPublicKey entropy prime256v1).
Local Abbreviation rotateKeyPair := (MessageSigning.rotateKeyPair entropy prime256v1).
Local Abbreviation msgBuffer := (MessageSigning.msgBuffer JsRecord JSON_stringify).
Local Abbreviation sign :=
  (MessageSigning.sign JsRecord JSON_stringify entropy prime256v1 Buffer_from_base64 SHA256_sign).
Local Abbreviation passphrase_for := (MessageSigning.passphrase_for entropy).
Local Abbreviation fresh_key_pair := (MessageSigning.fresh_key_pair entropy prime256v1).
Local Abbreviation created := (MessageSigning.created entropy prime256v1).
Local Abbreviation generated := (MessageSigning.generated entropy prime256v1).
Local Abbreviation chosen := (MessageSigning.chosen entropy).
Local Abbreviation signed :=
  (MessageSigning.signed JsRecord JSON_stringify Buffer_from_base64 SHA256_sign).

Lemma take_1_lookup_0 {A} (l : list A) : take 1 l !! 0%nat = head l.
Proof. destruct l; reflexivity. Qed.

Lemma wp_getCurrentKeyPairObj w : wp getCurrentKeyPairObj (found w) w.
Proof.
  unfold getCurrentKeyPairObj, createPointInTimeFinderDecryptedAsInternalUser, finder_find,
    finder_close.
  apply wp_bind, wp_call; [intros e He | intros _]; cbn.
  { repeat split; eexists; repeat split; [by exists (length (trace w)) |].
    repeat constructor. }
  apply wp_bind, wp_call; [intros e He | intros _]; cbn.
  { repeat split; eexists. split; [repeat split; cbn; by rewrite <- app_assoc |].
    split; [eexists; exact He | repeat constructor]. }
  apply wp_bind, wp_not_awaited, wp_call; [intros e He | intros _]; cbn;
    apply wp_ret; (repeat split; eexists; split;
      [repeat split; cbn; by rewrite <- !app_assoc
      | split; [apply take_1_lookup_0 | reflexivity]]).
Qed.

Lemma stored_key_pair_complete o kp :
  stored_key_pair o kp ↔
  ∃ a, attributes o = Some a ∧ complete a = true ∧ kp = key_pair_of a.
Proof.
  unfold stored_key_pair, complete, key_pair_of, Js.or. split.
  - intros (a & Ha & Hpriv & Hpriv' & Hpub & Hpub' & Hpass' & Hpass).
    exists a. split; [exact Ha |]. rewrite Hpriv, Hpub.
    destruct kp as [priv pub pass]; simpl in *.
    destruct priv; [done |]. destruct pub; [done |]. destruct pass; [done |].
    destruct Hpass as [-> | [-> ->]]; done.
  - intros (a & Ha & Hc & ->). exists a. split; [exact Ha |]. simpl.
    apply andb_prop in Hc as [Hc Hpass]. apply andb_prop in Hc as [Hpriv Hpub].
    repeat split; auto using truthy_eq_Some, truthy_default.
    destruct (Js.truthy (passphrase a)) eqn:Hp.
    + left. by apply truthy_eq_Some.
    + right. split; [reflexivity | by apply truthy_eq_Some].
Qed.

Lemma has_key_pair_complete w kp :
  has_key_pair w kp ↔
  ∃ o a, current w = Some o ∧ attributes o = Some a ∧ complete a = true ∧ kp = key_pair_of a.
Proof.
  unfold has_key_pair. split.
  - intros (o & Ho & (a & Ha & Hc & Hkp)%stored_key_pair_complete). by exists o, a.
  - intros (o & a & Ho & Ha & Hc & Hkp). exists o. split; [done |].
    apply stored_key_pair_complete. by exists a.
Qed.

Lemma key_pair_of_nonempty a :
  complete a = true →
  KeyPair.privateKey (key_pair_of a) ≠ "" ∧ KeyPair.publicKey (key_pair_of a) ≠ ""
  ∧ KeyPair.passphrase (key_pair_of a) ≠ "".
Proof.
  unfold complete. intros Hc.
  apply andb_prop in Hc as [Hc Hpass]. apply andb_prop in Hc as [Hpriv Hpub].
  simpl. auto using truthy_default.
Qed.

Lemma finder_op_not_create ev : ev_op ev ∈ finder_ops → ¬ is_create ev.
Proof.
  intros Hev [a Ha]. rewrite Ha in Hev. unfold finder_ops in Hev.
  repeat (apply elem_of_cons in Hev as [Hev|Hev]; [discriminate |]).
  by apply elem_of_nil in Hev.
Qed.

Lemma finder_ops_not_create evs :
  ev_op <$> evs = finder_ops → Forall (λ ev, ¬ is_create ev) evs.
Proof.
  intros Hops. apply Forall_forall. intros ev Hev. apply finder_op_not_create.
  rewrite <- Hops. by apply list_elem_of_fmap_2.
Qed.

Lemma not_create_threw evs :
  Forall (λ ev, ¬ is_create ev) evs →
  Forall (λ ev, is_create ev → is_Some (ev_threw ev)) evs.
Proof. intros H. eapply Forall_impl; [exact H |]. intros ev Hn Hc. by destruct Hn. Qed.

Lemma update_object_head o rest a :
  update_object (so_id o) a (o :: rest)
  = Some ({| so_id := so_id o; attributes := Some (merge (attributes o) a) |} :: rest).
Proof. simpl. by rewrite Nat.eqb_refl. Qed.

Lemma delete_object_head o rest : delete_object (so_id o) (o :: rest) = Some rest.
Proof. simpl. by rewrite Nat.eqb_refl. Qed.

Lemma spread_encrypted a :
  complete a = true →
  {| private_key := private_key a; public_key := public_key a;
     passphrase := Js.or (passphrase a) (passphrase_plain a);
     passphrase_plain := Some "" |}
  = encrypted a (KeyPair.passphrase (key_pair_of a)).
Proof.
  unfold complete, encrypted. intros Hc. simpl.
  apply andb_prop in Hc as [_ Hpass]. by rewrite <- (truthy_eq_Some _ Hpass).
Qed.

Lemma merge_encrypted a pass :
  complete a = true → merge (Some a) (encrypted a pass) = encrypted a pass.
Proof.
  unfold complete, encrypted, merge, over. intros Hc. simpl.
  apply andb_prop in Hc as [Hc _]. apply andb_prop in Hc as [Hpriv Hpub].
  by destruct (private_key a), (public_key a).
Qed.

Lemma wp_checkForExistingKeyPair w : wp checkForExistingKeyPair (checked w) w.
Proof.
  unfold checkForExistingKeyPair.
  apply wp_bind. eapply wp_mono; [apply wp_getCurrentKeyPairObj |].
  intros r w1 (Hobj & Hrng & evs & (Hsetup & Hfaults & Htrace) & Hr).
  destruct r as [[o|]|[e|msg]]; [| | | done].
  - destruct Hr as [Ho Hops]. symmetry in Ho.
    destruct (attributes o) as [a|] eqn:Ha.
    2:{ apply wp_ret. split; [done |]. exists evs. repeat split; try done.
        intros kp (o' & a' & Ho' & Ha' & _)%has_key_pair_complete. congruence. }
    destruct (negb _ || _ || _) eqn:Hc.
    { apply wp_ret. split; [done |]. exists evs. repeat split; try done.
      intros kp (o' & a' & Ho' & Ha' & Hc' & _)%has_key_pair_complete.
      assert (a' = a) as -> by congruence. unfold complete in Hc'.
      apply andb_prop in Hc' as [Hc' Hpass]. apply andb_prop in Hc' as [Hpriv Hpub].
      rewrite Hpriv, Hpub, Hpass in Hc. discriminate. }
    assert (complete a = true) as Hcomplete.
    { unfold complete.
      destruct (Js.truthy (private_key a)), (Js.truthy (public_key a)),
        (Js.truthy (Js.or _ _)); done. }
    assert (∃ rest, objects w = o :: rest) as [rest Hw].
    { unfold current in Ho. destruct (objects w) as [|o' rest]; [done |].
      exists rest. simpl in Ho. congruence. }
    assert (isEncryptionAvailable w1 = isEncryptionAvailable w) as Henc.
    { unfold isEncryptionAvailable. by rewrite Hsetup. }
    apply wp_bind, wp_get_isEncryptionAvailable. rewrite Henc.
    apply wp_bind. rewrite spread_encrypted by done.
    destruct (Js.truthy (passphrase_plain a) && isEncryptionAvailable w) eqn:Hmove.
    + unfold soClient_update. apply wp_call; [intros e He | intros _].
      * cbn. split; [done |]. eexists. split.
        { repeat split; cbn; try done. by rewrite Htrace, <- app_assoc. }
        split; [exists (length (trace w1)); by rewrite <- Hfaults |].
        apply Forall_app. split; [by apply finder_ops_not_create |].
        repeat constructor. intros [a' Ha']. discriminate.
      * rewrite Hobj, Hw, update_object_head, Ha, merge_encrypted by done. cbn.
        apply wp_ret. cbn. split; [done |]. eexists. split.
        { repeat split; cbn; try done. by rewrite Htrace, <- app_assoc. }
        exists o, rest, a. repeat split; try done. rewrite Hmove. split; [done |].
        by rewrite fmap_app, Hops.
    + apply wp_ret, wp_ret. split; [done |]. exists evs. split; [done |].
      exists o, rest, a. repeat split; try done. by rewrite Hmove.
  - destruct Hr as [Ho Hops]. apply wp_ret. split; [done |]. exists evs.
    repeat split; try done.
    intros kp (o' & a' & Ho' & _)%has_key_pair_complete. congruence.
  - destruct Hr as [Hplan Hops]. split; [done |]. exists evs. repeat split; try done.
    eapply Forall_impl; [exact Hops |]. intros ev Hev. by apply finder_op_not_create.
Qed.

Lemma frame_refl w : frame w w [].
Proof. repeat split. by rewrite app_nil_r. Qed.

Lemma frame_trans w w1 w2 evs1 evs2 :
  frame w w1 evs1 → frame w1 w2 evs2 → frame w w2 (evs1 ++ evs2).
Proof.
  intros (Hs1 & Hf1 & Ht1) (Hs2 & Hf2 & Ht2). repeat split; [congruence.. |].
  by rewrite Ht2, Ht1, app_assoc.
Qed.

Lemma frame_after op e w w' :
  encryptedSavedObjectsSetup w' = encryptedSavedObjectsSetup w →
  frame w (after op e w w') [ {| ev_op := op; ev_threw := e |} ].
Proof. by repeat split. Qed.

Lemma frame_planned w w' evs e : frame w w' evs → planned w' e → planned w e.
Proof. intros (_ & Hf & _) [k Hk]. exists k. by rewrite <- Hf. Qed.

Lemma frame_encryption w w' evs :
  frame w w' evs → isEncryptionAvailable w' = isEncryptionAvailable w.
Proof. intros (Hs & _). unfold isEncryptionAvailable. by rewrite Hs. Qed.

Lemma frame_new_events w w' evs : frame w w' evs → new_events w w' = evs.
Proof. intros (_ & _ & Ht). unfold new_events. by rewrite Ht, drop_app_length. Qed.

Lemma planned_now w e : faults w (length (trace w)) = Some e → planned w e.
Proof. intros H. by exists (length (trace w)). Qed.

Lemma wp_passphrase p w :
  wp (if Js.truthy p then mret (default "" p) else generatePassphrase) (chosen p w) w.
Proof.
  unfold MessageSigning.chosen, MessageSigning.passphrase_for, seed_for, passphrase_ops.
  destruct (Js.truthy p).
  - apply wp_ret. split; [done |]. exists []. auto using frame_refl.
  - unfold MessageSigning.generatePassphrase, randomBytes.
    apply wp_bind, wp_call; [intros e He | intros _]; cbn.
    + split; [done |]. eexists. split; [by apply frame_after |].
      split; [| by apply planned_now].
      repeat constructor. intros [a Ha]. discriminate.
    + apply wp_ret. split; [done |]. eexists. split; [by apply frame_after |].
      split; [| done]. repeat constructor. intros [a Ha]. discriminate.
Qed.

Lemma read_existing_has_key_pair w w' evs kp : read_existing w w' evs kp → has_key_pair w kp.
Proof.
  intros (o & rest & a & Hw & Ha & Hc & Hkp & _). apply has_key_pair_complete.
  exists o, a. unfold current. by rewrite Hw.
Qed.

Lemma wp_generateKeyPair p w : wp (generateKeyPair p) (generated p w) w.
Proof.
  unfold MessageSigning.generateKeyPair.
  apply wp_bind. eapply wp_mono; [apply wp_checkForExistingKeyPair |].
  intros r w1 (Hrng1 & evs1 & Hframe1 & Hr).
  destruct r as [[kp|]|[e|msg]]; [| | | done].
  - apply wp_ret. exists evs1. split; [done |]. left.
    eauto using read_existing_has_key_pair.
  - destruct Hr as (Hnone & Hobj1 & Hops1).
    apply wp_bind. eapply wp_mono; [apply wp_passphrase |].
    intros r w2 (Hobj2 & evs2 & Hframe2 & Hnc2 & Hr2).
    destruct r as [pass|[e|msg]]; [| | done].
    + destruct Hr2 as (Hpass & Hrng2 & Hops2).
      unfold generateKeyPairSync. apply wp_bind, wp_call; [intros e He | intros _].
      { eexists. split; [eapply frame_trans; [eapply frame_trans |]; eauto using frame_after |].
        split; [eauto using frame_planned, planned_now, frame_trans |].
        rewrite !Forall_app. repeat split.
        - by apply not_create_threw, finder_ops_not_create.
        - by apply not_create_threw.
        - repeat constructor. intros [a Ha]. discriminate. }
      cbn [fst snd threw].
      set (w3 := after _ _ _ _).
      assert (frame w2 w3 [ {| ev_op := GenerateKeyPairSync; ev_threw := None |} ]) as Hframe3
        by by apply frame_after.
      assert (frame w w3 ((evs1 ++ evs2) ++ [ {| ev_op := GenerateKeyPairSync; ev_threw := None |} ]))
        as Hframe by eauto using frame_trans.
      apply wp_bind, wp_get_isEncryptionAvailable.
      rewrite (frame_encryption _ _ _ Hframe).
      unfold soClient_create. apply wp_bind, wp_call; [intros e He | intros _].
      { eexists. split; [eapply frame_trans; eauto using frame_after |].
        split; [eauto using frame_planned, planned_now |].
        rewrite !Forall_app. repeat split.
        - by apply not_create_threw, finder_ops_not_create.
        - by apply not_create_threw.
        - repeat constructor. intros [a Ha]. discriminate.
        - repeat constructor. intros _. by eexists. }
      cbn [fst snd threw]. apply wp_ret.
      eexists. split; [eapply frame_trans; [exact Hframe |]; by apply frame_after |].
      right. split; [done |].
      assert (passphrase_for p w1 = passphrase_for p w) as Hp
        by (unfold MessageSigning.passphrase_for; by rewrite Hrng1).
      assert (seed_for p w1 = seed_for p w) as Hs
        by (unfold seed_for; by rewrite Hrng1).
      rewrite Hp in Hpass. rewrite Hs in Hrng2. subst pass.
      unfold MessageSigning.created, MessageSigning.fresh_key_pair, attributes_of. cbn.
      rewrite Hrng2, Hobj2, Hobj1. repeat split.
      rewrite !fmap_app, Hops1, Hops2, <- !app_assoc. reflexivity.
    + exists (evs1 ++ evs2). split; [eauto using frame_trans |].
      split; [eauto using frame_planned |].
      rewrite Forall_app. split.
      * by apply not_create_threw, finder_ops_not_create.
      * by apply not_create_threw.
  - destruct Hr as [Hplan Hnc]. exists evs1. do 2 (split; [done |]).
    by apply not_create_threw.
Qed.

(** *** Consequences of the outcome lemmas *)

Lemma has_key_pair_unique w kp kp' : has_key_pair w kp → has_key_pair w kp' → kp = kp'.
Proof.
  intros (o & a & Ho & Ha & _ & ->)%has_key_pair_complete
         (o' & a' & Ho' & Ha' & _ & ->)%has_key_pair_complete.
  congruence.
Qed.

Lemma no_faults_frame w w' evs : frame w w' evs → no_faults w → no_faults w'.
Proof. intros (_ & Hf & _) H i. by rewrite Hf. Qed.

Lemma no_faults_planned w e : no_faults w → ¬ planned w e.
Proof. intros H [k Hk]. by rewrite H in Hk. Qed.

Lemma read_existing_ids w w' evs kp :
  read_existing w w' evs kp →
  so_id <$> objects w' = so_id <$> objects w ∧ Forall (λ ev, ¬ is_create ev) evs.
Proof.
  intros (o & rest & a & Hw & Ha & Hc & Hkp & Hmove).
  destruct (Js.truthy (passphrase_plain a) && isEncryptionAvailable w).
  - destruct Hmove as [-> Hops]. rewrite Hw. split; [done |].
    apply Forall_forall. intros ev Hev [a' Ha'].
    apply (list_elem_of_fmap_2 ev_op) in Hev. rewrite Hops, Ha' in Hev.
    apply elem_of_app in Hev as [Hev|Hev].
    + by eapply (finder_op_not_create {| ev_op := SoCreate a'; ev_threw := None |}); [| eexists].
    + by apply list_elem_of_singleton in Hev.
  - destruct Hmove as [-> Hops]. split; [done |]. by apply finder_ops_not_create.
Qed.

(** With no fault planned, [generateKeyPair] returns. *)
Lemma generateKeyPair_returns p w :
  no_faults w →
  ∃ kp evs, (generateKeyPair p w).1 = Ok kp
    ∧ frame w (generateKeyPair p w).2 evs
    ∧ ((has_key_pair w kp ∧ rng (generateKeyPair p w).2 = rng w
        ∧ read_existing w (generateKeyPair p w).2 evs kp)
       ∨ ((∀ kp', ¬ has_key_pair w kp') ∧ created p w (generateKeyPair p w).2 evs kp)).
Proof.
  intros Hnf. pose proof (wp_generateKeyPair p w) as (evs & Hframe & Hr). revert Hr.
  destruct (generateKeyPair p w).1 as [kp|[e|msg]]; [| | done].
  - intros Hr. by exists kp, evs.
  - intros [Hplan _]. by apply no_faults_planned in Hplan.
Qed.

Lemma generateKeyPair_cases (p : option string) (w : World) :
  no_faults w →
  (∀ kp, has_key_pair w kp →
     (generateKeyPair p w).1 = Ok kp
     ∧ so_id <$> objects (generateKeyPair p w).2 = so_id <$> objects w
     ∧ Forall (λ ev, ¬ is_create ev) (new_events w (generateKeyPair p w).2))
  ∧ ((∀ kp, ¬ has_key_pair w kp) →
     let kp := fresh_key_pair p w in
     let a := attributes_of (isEncryptionAvailable w) kp in
     (generateKeyPair p w).1 = Ok kp
     ∧ objects (generateKeyPair p w).2
       = {| so_id := fresh_id (objects w); attributes := Some a |} :: objects w
     ∧ ev_op <$> new_events w (generateKeyPair p w).2
       = finder_ops ++ passphrase_ops p ++ [GenerateKeyPairSync; SoCreate a]).
Proof.
  intros Hnf. destruct (generateKeyPair_returns p w Hnf) as (kp' & evs & Hr & Hframe & Hcase).
  rewrite (frame_new_events _ _ _ Hframe). split.
  - intros kp Hkp. destruct Hcase as [(Hkp' & _ & Hread) | [Hnone _]].
    + rewrite (has_key_pair_unique _ _ _ Hkp Hkp'). split; [done |].
      by apply read_existing_ids in Hread.
    + by apply Hnone in Hkp.
  - intros Hnone. destruct Hcase as [(Hkp' & _) | [_ (-> & Hobj & _ & Hops)]].
    + by apply Hnone in Hkp'.
    + done.
Qed.

(** C1. [generateKeyPair] is create-if-missing: when the newest saved object
    holds a key pair (non-empty private key, non-empty public key, a
    passphrase in [passphrase] or [passphrase_plain]) it returns exactly that
    key pair and creates no saved object; when there is none it generates a
    fresh [prime256v1] key pair, persists it with [soClient.create] and
    returns it. *)
Theorem generateKeyPair_create_if_missing (p : option string) (w : World) :
  no_faults w →
  (∀ kp, has_key_pair w kp →
     (generateKeyPair p w).1 = Ok kp
     ∧ so_id <$> objects (generateKeyPair p w).2 = so_id <$> objects w
     ∧ Forall (λ ev, ¬ is_create ev) (new_events w (generateKeyPair p w).2))
  ∧ ((∀ kp, ¬ has_key_pair w kp) →
     let kp := fresh_key_pair p w in
     let a := attributes_of (isEncryptionAvailable w) kp in
     (generateKeyPair p w).1 = Ok kp
     ∧ objects (generateKeyPair p w).2
       = {| so_id := fresh_id (objects w); attributes := Some a |} :: objects w
     ∧ ev_op <$> new_events w (generateKeyPair p w).2
       = finder_ops ++ passphrase_ops p ++ [GenerateKeyPairSync; SoCreate a]).
Proof.
  intros Hnf. pose proof (wp_generateKeyPair p w) as (evs & Hframe & Hr).
  rewrite (frame_new_events _ _ _ Hframe). revert Hr.
  destruct (generateKeyPair p w).1 as [kp'|[e|msg]]; [| | done].
  - intros [(Hkp' & _ & Hread) | [Hnone (-> & Hobj & _ & Hops)]]; split.
    + intros kp Hkp. rewrite (has_key_pair_unique _ _ _ Hkp Hkp'). split; [done |].
      by apply read_existing_ids in Hread.
    + intros Hnone. by apply Hnone in Hkp'.
    + intros kp Hkp. by apply Hnone in Hkp.
    + done.
  - intros [Hplan _]. by apply no_faults_planned in Hplan.
Qed.

(** C2. The passphrase-encryption toggle: the saved object [generateKeyPair]
    creates carries the private and the public key, and the passphrase in
    the [passphrase] attribute when encryption is available and in
    [passphrase_plain] when it is not, the other attribute being absent. *)
Theorem passphrase_encryption_toggle (p : option string) (w : World) (a : MessageSigningKeys) :
  {| ev_op := SoCreate a; ev_threw := None |} ∈ new_events w (generateKeyPair p w).2 →
  ∃ kp, (generateKeyPair p w).1 = Ok kp
    ∧ private_key a = Some (KeyPair.privateKey kp)
    ∧ public_key a = Some (KeyPair.publicKey kp)
    ∧ if isEncryptionAvailable w
      then passphrase a = Some (KeyPair.passphrase kp) ∧ passphrase_plain a = None
      else passphrase a = None ∧ passphrase_plain a = Some (KeyPair.passphrase kp).
Proof.
  pose proof (wp_generateKeyPair p w) as (evs & Hframe & Hr). revert Hr.
  rewrite (frame_new_events _ _ _ Hframe).
  destruct (generateKeyPair p w).1 as [kp|[e|msg]]; [| | done].
  - intros [(_ & _ & Hread) | [_ (_ & _ & _ & Hops)]] Hev.
    + apply read_existing_ids in Hread as [_ Hnc].
      rewrite Forall_forall in Hnc. destruct (Hnc _ Hev). by eexists.
    + apply (list_elem_of_fmap_2 ev_op) in Hev. rewrite Hops in Hev.
      rewrite !elem_of_app in Hev. destruct Hev as [Hev | [Hev | Hev]].
      * by destruct (finder_op_not_create {| ev_op := SoCreate a; ev_threw := None |});
          [| eexists].
      * unfold passphrase_ops in Hev. destruct (Js.truthy p).
        -- by apply elem_of_nil in Hev.
        -- by apply list_elem_of_singleton in Hev.
      * apply elem_of_cons in Hev as [Hev | Hev]; [done |].
        apply list_elem_of_singleton in Hev. injection Hev as ->.
        exists kp. unfold attributes_of. by destruct (isEncryptionAvailable w).
  - intros [_ Hnc] Hev. rewrite Forall_forall in Hnc.
    destruct (Hnc _ Hev) as [e' He']; [by eexists | done].
Qed.

Lemma passphrase_for_provided s w : s ≠ "" → passphrase_for (Some s) w = s.
Proof. unfold MessageSigning.passphrase_for. by destruct s. Qed.

(** C8. Once a key pair exists the provided passphrase is ignored: the call
    does the same whatever passphrase is given, and returns the stored key
    pair. The passphrase only counts when the call creates the key pair. *)
Theorem generateKeyPair_ignores_passphrase (w : World) :
  (∀ kp, has_key_pair w kp →
     ∀ p q, generateKeyPair p w = generateKeyPair q w
            ∧ (no_faults w → (generateKeyPair p w).1 = Ok kp))
  ∧ ((∀ kp, ¬ has_key_pair w kp) → no_faults w →
     ∀ s, s ≠ "" →
       ∃ kp, (generateKeyPair (Some s) w).1 = Ok kp ∧ KeyPair.passphrase kp = s).
Proof.
  split.
  - intros kp Hkp p q. split.
    + pose proof (wp_checkForExistingKeyPair w) as (_ & evs & _ & Hr). revert Hr.
      unfold MessageSigning.generateKeyPair, mbind, M_bind.
      destruct (checkForExistingKeyPair w) as [[[kp'|]|e] w1]; simpl; [done | | done].
      intros [Hnone _]. by apply Hnone in Hkp.
    + intros Hnf. by apply generateKeyPair_cases.
  - intros Hnone Hnf s Hs.
    destruct (generateKeyPair_cases (Some s) w Hnf) as [_ Hfresh].
    destruct (Hfresh Hnone) as (Hr & _). eexists. split; [exact Hr |].
    by apply passphrase_for_provided.
Qed.

(** *** Non-empty keys and passphrases *)

Lemma passphrase_for_nonempty p w : passphrase_for p w ≠ "".
Proof.
  unfold MessageSigning.passphrase_for. destruct (Js.truthy p) eqn:Hp;
    [by apply truthy_default |].
  by apply toString_hex_nonempty.
Qed.

(** A generated passphrase is 32 random bytes in hexadecimal. *)
Lemma generated_passphrase_length w : String.length (passphrase_for None w) = 64.
Proof.
  unfold MessageSigning.passphrase_for. simpl Js.truthy. cbv iota.
  by rewrite toString_hex_length, length_fmap, length_seq.
Qed.

Lemma fresh_key_pair_nonempty p w :
  KeyPair.privateKey (fresh_key_pair p w) ≠ "" ∧ KeyPair.publicKey (fresh_key_pair p w) ≠ ""
  ∧ KeyPair.passphrase (fresh_key_pair p w) ≠ "".
Proof using prime256v1_nonempty.
  unfold MessageSigning.fresh_key_pair. simpl.
  destruct (prime256v1_nonempty (seed_for p w) (passphrase_for p w)) as [Hpriv Hpub].
  auto using toString_base64_nonempty, passphrase_for_nonempty.
Qed.

Lemma read_existing_nonempty w w' evs kp :
  read_existing w w' evs kp →
  KeyPair.privateKey kp ≠ "" ∧ KeyPair.publicKey kp ≠ "" ∧ KeyPair.passphrase kp ≠ "".
Proof. intros (o & rest & a & _ & _ & Hc & -> & _). by apply key_pair_of_nonempty. Qed.

Lemma generated_nonempty p w kp w' :
  generated p w (Ok kp) w' →
  KeyPair.privateKey kp ≠ "" ∧ KeyPair.publicKey kp ≠ "" ∧ KeyPair.passphrase kp ≠ "".
Proof using prime256v1_nonempty.
  intros (evs & _ & [(_ & _ & Hread) | [_ [-> _]]]).
  - by eapply read_existing_nonempty.
  - apply fresh_key_pair_nonempty.
Qed.

Lemma generateKeyPair_nonempty p w kp :
  (generateKeyPair p w).1 = Ok kp →
  KeyPair.privateKey kp ≠ "" ∧ KeyPair.publicKey kp ≠ "" ∧ KeyPair.passphrase kp ≠ "".
Proof using prime256v1_nonempty.
  intros Hr. pose proof (wp_generateKeyPair p w) as H. unfold wp in H. rewrite Hr in H.
  by eapply generated_nonempty.
Qed.

Lemma sign_after_generateKeyPair m w :
  match (generateKeyPair None w).1 with
  | Ok kp =>
      KeyPair.privateKey kp ≠ "" → KeyPair.passphrase kp ≠ "" →
      signed m kp (generateKeyPair None w).2 (sign m w).1 (sign m w).2
  | Throw e => sign m w = (Throw e, (generateKeyPair None w).2)
  end.
Proof.
  enough (wp (sign m) (λ r w',
            match (generateKeyPair None w).1 with
            | Ok kp =>
                KeyPair.privateKey kp ≠ "" → KeyPair.passphrase kp ≠ "" →
                signed m kp (generateKeyPair None w).2 r w'
            | Throw e => (r, w') = (Throw e, (generateKeyPair None w).2)
            end) w) as H.
  { unfold wp in H. destruct (generateKeyPair None w).1; [done |].
    by rewrite <- H, <- surjective_pairing. }
  unfold MessageSigning.sign. apply wp_bind. unfold wp at 1.
  destruct (generateKeyPair None w) as [[kp|e] w1]; cbn [fst snd]; [| done].
  unfold createSign. apply wp_bind, wp_call; [intros e He | intros _].
  { intros _ _. repeat split. eexists.
    split; [by apply frame_after | by apply planned_now]. }
  cbn [fst snd threw].
  destruct (Js.truthy (Some (KeyPair.privateKey kp))) eqn:Hpriv; cbn [negb].
  2:{ apply wp_throw. intros Hne. by apply truthy_string in Hne; rewrite Hne in Hpriv. }
  destruct (Js.truthy (Some (KeyPair.passphrase kp))) eqn:Hpass; cbn [negb].
  2:{ apply wp_throw. intros _ Hne. by apply truthy_string in Hne; rewrite Hne in Hpass. }
  unfold signer_sign. apply wp_bind, wp_call; [intros e He | intros _].
  { intros _ _. repeat split. eexists. split.
    - eapply frame_trans; by apply frame_after.
    - exists (length (trace w1 ++ [ {| ev_op := CreateSign; ev_threw := None |} ])).
      exact He. }
  cbn [fst snd threw]. apply wp_ret. intros _ _. repeat split. eexists. split.
  - eapply frame_trans; by apply frame_after.
  - done.
Qed.

(** Outcome of [getPublicKey], likewise. *)
Lemma getPublicKey_after_generateKeyPair w :
  match generateKeyPair None w with
  | (Ok kp, w1) =>
      KeyPair.publicKey kp ≠ "" → getPublicKey w = (Ok (KeyPair.publicKey kp), w1)
  | (Throw e, w1) => getPublicKey w = (Throw e, w1)
  end.
Proof.
  unfold MessageSigning.getPublicKey. unfold mbind, M_bind.
  destruct (generateKeyPair None w) as [[kp|e] w1]; [| done].
  intros Hpub. apply truthy_string in Hpub. by rewrite Hpub.
Qed.

(** C9. The branches [unable to find private key], [unable to find
    passphrase] and [unable to find public key] are never taken: whenever
    [generateKeyPair] returns, the private key, the public key and the
    passphrase are non-empty. *)
Theorem not_found_branches_unreachable (w : World) :
  (∀ p kp, (generateKeyPair p w).1 = Ok kp →
     KeyPair.privateKey kp ≠ "" ∧ KeyPair.publicKey kp ≠ "" ∧ KeyPair.passphrase kp ≠ "")
  ∧ (∀ m msg, (sign m w).1 ≠ Throw (Error msg))
  ∧ (∀ msg, (getPublicKey w).1 ≠ Throw (Error msg)).
Proof using prime256v1_nonempty.
  split; [intros p kp; apply generateKeyPair_nonempty |]. split.
  - intros m msg Hr. pose proof (sign_after_generateKeyPair m w) as H.
    pose proof (generateKeyPair_nonempty None w) as Hne.
    pose proof (wp_generateKeyPair None w) as (evs & _ & Hg).
    destruct (generateKeyPair None w).1 as [kp|e] eqn:Hg1.
    + destruct (Hne kp eq_refl) as (Hpriv & _ & Hpass).
      destruct (H Hpriv Hpass) as (_ & _ & evs' & _ & H'). by rewrite Hr in H'.
    + rewrite H in Hr. simpl in Hr. injection Hr as ->. exact Hg.
  - intros msg. pose proof (getPublicKey_after_generateKeyPair w) as H.
    pose proof (generateKeyPair_nonempty None w) as Hne.
    pose proof (wp_generateKeyPair None w) as (evs & _ & Hg). revert H Hne Hg. unfold wp.
    destruct (generateKeyPair None w) as [[kp|[e|msg']] w1]; simpl; [| | done].
    + intros H Hne _. destruct (Hne kp eq_refl) as (_ & Hpub & _). by rewrite (H Hpub).
    + intros -> _ _. done.
Qed.

(** *** Signing and reading the public key when nothing fails *)

Lemma sign_returns m w kp :
  no_faults w →
  (generateKeyPair None w).1 = Ok kp →
  KeyPair.privateKey kp ≠ "" → KeyPair.passphrase kp ≠ "" →
  (sign m w).1
  = Ok {| data := msgBuffer m;
          signature := SHA256_sign (msgBuffer m)
                         (Buffer_from_base64 (KeyPair.privateKey kp))
                         (KeyPair.passphrase kp) |}
  ∧ objects (sign m w).2 = objects (generateKeyPair None w).2.
Proof.
  intros Hnf Hr Hpriv Hpass.
  destruct (generateKeyPair_returns None w Hnf) as (kp' & evs & Hr' & Hframe & _).
  pose proof (sign_after_generateKeyPair m w) as H. rewrite Hr in H.
  destruct (H Hpriv Hpass) as (Hobj & _ & evs' & Hframe' & H'). split; [| done].
  destruct (sign m w).1 as [s|[e|msg]]; [| | done].
  - by destruct H' as [-> _].
  - eapply no_faults_planned in H'; [done |]. by eapply no_faults_frame.
Qed.

(** C4. [sign] returns the message itself when it is a buffer, and the UTF-8
    bytes of its JSON serialisation otherwise, with the base64 SHA256
    signature of these bytes under the private key and the passphrase of the
    current key pair, which is generated first when there is none. *)
Theorem sign_returns_data_and_signature (m : Message JsRecord) (w : World) :
  no_faults w →
  ∃ kp s, (generateKeyPair None w).1 = Ok kp
    ∧ (sign m w).1 = Ok s
    ∧ data s = match m with
               | MsgBuffer _ b => b
               | MsgRecord _ r => Buffer_from_utf8 (JSON_stringify r)
               end
    ∧ signature s = SHA256_sign (data s) (Buffer_from_base64 (KeyPair.privateKey kp))
                      (KeyPair.passphrase kp)
    ∧ (∀ kp', has_key_pair w kp' → kp = kp')
    ∧ ((∀ kp', ¬ has_key_pair w kp') → kp = fresh_key_pair None w).
Proof using prime256v1_nonempty.
  intros Hnf. destruct (generateKeyPair_returns None w Hnf) as (kp & evs & Hg & _).
  destruct (generateKeyPair_nonempty None w kp Hg) as (Hpriv & _ & Hpass).
  destruct (sign_returns m w kp Hnf Hg Hpriv Hpass) as [Hs _].
  exists kp. eexists. split; [done |]. split; [exact Hs |].
  split; [by destruct m |]. split; [done |].
  destruct (generateKeyPair_cases None w Hnf) as [Hold Hnew]. split.
  - intros kp' Hkp'. destruct (Hold kp' Hkp') as [Hg' _]. congruence.
  - intros Hnone. destruct (Hnew Hnone) as [Hg' _]. congruence.
Qed.

(** C10. When the passphrase of the current key pair is only in
    [passphrase_plain] and encryption is available, reading the key pair
    rewrites the saved object: the passphrase moves to [passphrase],
    [passphrase_plain] becomes the empty string, the keys stay, and the
    caller gets the stored values. *)
Theorem plaintext_passphrase_is_encrypted_on_read
    (w : World) (o : SavedObject) (rest : list SavedObject) (a : MessageSigningKeys) :
  no_faults w →
  objects w = o :: rest →
  attributes o = Some a →
  Js.truthy (private_key a) = true →
  Js.truthy (public_key a) = true →
  Js.truthy (passphrase a) = false →
  Js.truthy (passphrase_plain a) = true →
  isEncryptionAvailable w = true →
  let kp := {| KeyPair.privateKey := default "" (private_key a);
               KeyPair.publicKey := default "" (public_key a);
               KeyPair.passphrase := default "" (passphrase_plain a) |} in
  let o' := {| so_id := so_id o;
               attributes := Some {| private_key := private_key a;
                                     public_key := public_key a;
                                     passphrase := passphrase_plain a;
                                     passphrase_plain := Some "" |} |} in
  (∀ p, (generateKeyPair p w).1 = Ok kp ∧ objects (generateKeyPair p w).2 = o' :: rest)
  ∧ (∀ m, (sign m w).1
          = Ok {| data := msgBuffer m;
                  signature := SHA256_sign (msgBuffer m)
                                 (Buffer_from_base64 (KeyPair.privateKey kp))
                                 (KeyPair.passphrase kp) |}
          ∧ objects (sign m w).2 = o' :: rest)
  ∧ ((getPublicKey w).1 = Ok (KeyPair.publicKey kp) ∧ objects (getPublicKey w).2 = o' :: rest).
Proof.
  intros Hnf Hw Ha Hpriv Hpub Hpass Hplain Henc kp o'.
  assert (complete a = true) as Hc.
  { unfold complete, Js.or. by rewrite Hpriv, Hpub, Hpass, Hplain. }
  assert (key_pair_of a = kp) as Hkp.
  { unfold key_pair_of, Js.or. by rewrite Hpass. }
  destruct (key_pair_of_nonempty a Hc) as (Hpriv' & Hpub' & Hpass'). rewrite Hkp in *.
  assert (rewritten o a (KeyPair.passphrase kp) = o') as Ho'.
  { unfold rewritten, encrypted, o'. simpl. by rewrite <- (truthy_eq_Some _ Hplain). }
  assert (∀ p, (generateKeyPair p w).1 = Ok kp ∧ objects (generateKeyPair p w).2 = o' :: rest)
    as Hgen.
  { intros p.
    destruct (generateKeyPair_returns p w Hnf) as (kp' & evs & Hr & Hframe & Hcase).
    destruct Hcase as [(_ & _ & o2 & rest2 & a2 & Hw2 & Ha2 & _ & Hkp2 & Hmove) | [Hnone _]].
    - assert (o2 = o ∧ rest2 = rest) as [-> ->] by (split; congruence).
      assert (a2 = a) as -> by congruence.
      rewrite Hplain, Henc in Hmove. destruct Hmove as [Hobj _].
      rewrite Hkp in Hkp2. subst kp'. by rewrite Hr, Hobj, Ho'.
    - destruct (Hnone kp). apply has_key_pair_complete. exists o, a.
      unfold current. by rewrite Hw. }
  split; [exact Hgen |]. destruct (Hgen None) as [Hg Hobj]. split.
  - intros m. destruct (sign_returns m w kp Hnf Hg Hpriv' Hpass') as [Hs Hobj'].
    by rewrite Hobj', Hobj.
  - pose proof (getPublicKey_after_generateKeyPair w) as H. revert H Hg Hobj.
    destruct (generateKeyPair None w) as [[kp'|e] w1]; simpl; [| done].
    intros H [= ->] Hobj. by rewrite (H Hpub').
Qed.

Lemma key_pair_of_attributes_of enc kp :
  KeyPair.privateKey kp ≠ "" → KeyPair.publicKey kp ≠ "" → KeyPair.passphrase kp ≠ "" →
  complete (attributes_of enc kp) = true ∧ key_pair_of (attributes_of enc kp) = kp.
Proof.
  destruct kp as [priv pub pass]. simpl. intros Hpriv Hpub Hpass.
  destruct priv; [done |]. destruct pub; [done |]. destruct pass; [done |].
  by destruct enc.
Qed.

Lemma key_pair_of_encrypted a :
  complete a = true →
  complete (encrypted a (KeyPair.passphrase (key_pair_of a))) = true
  ∧ key_pair_of (encrypted a (KeyPair.passphrase (key_pair_of a))) = key_pair_of a.
Proof.
  intros Hc. destruct (key_pair_of_nonempty a Hc) as (_ & _ & Hpass). revert Hc Hpass.
  unfold complete, key_pair_of, encrypted. simpl.
  destruct (default "" (Js.or (passphrase a) (passphrase_plain a))) eqn:Hd; [done |].
  intros Hc _. apply andb_prop in Hc as [-> _]. done.
Qed.

(** After [generateKeyPair] returned a key pair, the store holds it. *)
Lemma generated_has_key_pair p w kp w' : generated p w (Ok kp) w' → has_key_pair w' kp.
Proof using prime256v1_nonempty.
  intros (evs & Hframe & [(Hkp & _ & o & rest & a & Hw & Ha & Hc & -> & Hmove) | [_ Hnew]]).
  - destruct (Js.truthy (passphrase_plain a) && isEncryptionAvailable w).
    + destruct Hmove as [Hobj _]. apply has_key_pair_complete.
      destruct (key_pair_of_encrypted a Hc) as [Hc' Hkp'].
      eexists _, _. unfold current. rewrite Hobj. simpl. by repeat split.
    + destruct Hmove as [Hobj _]. unfold has_key_pair, current in *. by rewrite Hobj.
  - destruct Hnew as (-> & Hobj & _). apply has_key_pair_complete.
    destruct (fresh_key_pair_nonempty p w) as (Hpriv & Hpub & Hpass).
    destruct (key_pair_of_attributes_of (isEncryptionAvailable w) _ Hpriv Hpub Hpass)
      as [Hc Hkp].
    eexists _, _. unfold current. rewrite Hobj. simpl. by repeat split.
Qed.

Lemma getPublicKey_returns w :
  no_faults w →
  ∃ kp, (generateKeyPair None w).1 = Ok kp
    ∧ getPublicKey w = (Ok (KeyPair.publicKey kp), (generateKeyPair None w).2).
Proof using prime256v1_nonempty.
  intros Hnf. destruct (generateKeyPair_returns None w Hnf) as (kp & evs & Hr & _).
  destruct (generateKeyPair_nonempty None w kp Hr) as (_ & Hpub & _).
  exists kp. split; [done |].
  pose proof (getPublicKey_after_generateKeyPair w) as H. revert H Hr.
  destruct (generateKeyPair None w) as [[kp'|e] w1]; simpl; [| done].
  intros H [= ->]. by apply H.
Qed.

(** C5. [getPublicKey] returns the public key of the current key pair, which
    it generates and persists first when there is none, and a second call
    returns the same string. *)
Theorem getPublicKey_stable (w : World) :
  no_faults w →
  ∃ kp, (getPublicKey w).1 = Ok (KeyPair.publicKey kp)
    ∧ has_key_pair (getPublicKey w).2 kp
    ∧ (∀ kp', has_key_pair w kp' →
         kp' = kp ∧ Forall (λ ev, ¬ is_create ev) (new_events w (getPublicKey w).2))
    ∧ ((∀ kp', ¬ has_key_pair w kp') →
         kp = fresh_key_pair None w
         ∧ objects (getPublicKey w).2
           = {| so_id := fresh_id (objects w);
                attributes := Some (attributes_of (isEncryptionAvailable w) kp) |}
             :: objects w)
    ∧ (getPublicKey (getPublicKey w).2).1 = Ok (KeyPair.publicKey kp).
Proof using prime256v1_nonempty.
  intros Hnf. destruct (getPublicKey_returns w Hnf) as (kp & Hg & ->). simpl.
  pose proof (wp_generateKeyPair None w) as Hgen. unfold wp in Hgen. rewrite Hg in Hgen.
  assert (no_faults (generateKeyPair None w).2) as Hnf'.
  { destruct Hgen as (evs & Hframe & _). by eapply no_faults_frame. }
  pose proof (generated_has_key_pair _ _ _ _ Hgen) as Hkp.
  destruct (generateKeyPair_cases None w Hnf) as [Hold Hnew].
  exists kp. split; [done |]. split; [done |]. split; [| split].
  - intros kp' Hkp'. destruct (Hold kp' Hkp') as (Hg' & _ & Hnc). split; congruence.
  - intros Hnone. destruct (Hnew Hnone) as (Hg' & Hobj & _). rewrite Hobj.
    split; congruence.
  - destruct (getPublicKey_returns _ Hnf') as (kp2 & Hg2 & ->). simpl.
    destruct (generateKeyPair_cases None _ Hnf') as [Hold' _].
    destruct (Hold' kp Hkp) as [Hg' _]. congruence.
Qed.

(** *** Rotation *)

Lemma wp_removeKeyPair w : wp removeKeyPair (removed w) w.
Proof.
  unfold removeKeyPair.
  apply wp_bind. eapply wp_mono; [apply wp_getCurrentKeyPairObj |].
  intros r w1 (Hobj & Hrng & evs & Hframe & Hr).
  destruct r as [[o|]|[e|msg]]; [| | | done].
  - destruct Hr as [Ho Hops]. symmetry in Ho.
    assert (∃ rest, objects w = o :: rest) as [rest Hw].
    { unfold current in Ho. destruct (objects w) as [|o' rest]; [done |].
      exists rest. simpl in Ho. congruence. }
    unfold soClient_delete. apply wp_bind, wp_call; [intros e He | intros _].
    + split; [done |]. eexists. split; [eapply frame_trans; eauto using frame_after |].
      eauto using frame_planned, planned_now.
    + rewrite Hobj, Hw, delete_object_head. cbn [fst snd threw]. apply wp_ret.
      split; [done |]. eexists. split; [eapply frame_trans; eauto using frame_after |].
      exists o, rest. repeat split; [done |]. by rewrite fmap_app, Hops.
  - destruct Hr as [Ho Hops]. symmetry in Ho. apply wp_ret.
    assert (objects w = []) as Hw by (unfold current in Ho; by destruct (objects w)).
    split; [done |]. exists evs. repeat split; try apply Hframe; congruence.
  - destruct Hr as [Hplan _]. split; [done |]. by exists evs.
Qed.

Lemma rotateKeyPair_after_removeKeyPair w :
  rotateKeyPair w
  = match removeKeyPair w with
    | (Ok true, w1) =>
        match generateKeyPair None w1 with
        | (Ok _, w2) => (Ok true, w2)
        | (Throw e, w2) => (Throw e, w2)
        end
    | (Ok false, w1) => (Ok false, w1)
    | (Throw e, w1) => (Throw e, w1)
    end.
Proof.
  unfold MessageSigning.rotateKeyPair. unfold mbind at 1, M_bind at 1.
  destruct (removeKeyPair w) as [[[|]|e] w1]; [| done | done].
  unfold mbind, M_bind. by destruct (MessageSigning.generateKeyPair _ _ _ _) as [[kp|e] w2].
Qed.

Lemma stored_key_pair_current w :
  (∀ kp, ¬ has_key_pair w kp) ↔ (∀ o kp, head (objects w) = Some o → ¬ stored_key_pair o kp).
Proof.
  unfold has_key_pair, current. split.
  - intros H o kp Ho Hkp. apply (H kp). by exists o.
  - intros H kp (o & Ho & Hkp). by apply (H o kp).
Qed.

(** [rotateKeyPair] on any store, without faults: it returns [true] exactly
    when the store held a saved object of the key type. It then has deleted
    the newest one and called [generateKeyPair], which generates and persists
    a fresh key pair unless the next newest object holds a complete key pair. *)
Lemma rotateKeyPair_on_store (w : World) :
  no_faults w →
  (objects w = [] →
     (rotateKeyPair w).1 = Ok false
     ∧ objects (rotateKeyPair w).2 = []
     ∧ ev_op <$> new_events w (rotateKeyPair w).2 = finder_ops)
  ∧ (∀ o rest, objects w = o :: rest →
       (rotateKeyPair w).1 = Ok true
       ∧ ∃ evs, ev_op <$> new_events w (rotateKeyPair w).2
                = finder_ops ++ SoDelete (so_id o) :: (ev_op <$> evs)
         ∧ ((∀ o2 kp, head rest = Some o2 → ¬ stored_key_pair o2 kp) →
            let kp := fresh_key_pair None w in
            let a := attributes_of (isEncryptionAvailable w) kp in
            objects (rotateKeyPair w).2
            = {| so_id := fresh_id rest; attributes := Some a |} :: rest
            ∧ ev_op <$> evs
              = finder_ops ++ passphrase_ops None ++ [GenerateKeyPairSync; SoCreate a])
         ∧ (∀ o2 kp, head rest = Some o2 → stored_key_pair o2 kp →
            so_id <$> objects (rotateKeyPair w).2 = so_id <$> rest
            ∧ Forall (λ ev, ¬ is_create ev) evs)).
Proof.
  intros Hnf. rewrite rotateKeyPair_after_removeKeyPair.
  pose proof (wp_removeKeyPair w) as (Hrng & evs1 & Hframe1 & Hr). revert Hr. unfold wp.
  destruct (removeKeyPair w) as [[[|]|[e|msg]] w1]; cbn [fst snd] in *; [| | | done].
  - intros (o & rest & Hw & Hobj1 & Hops1).
    split; [intros Hnil; congruence |]. intros o' rest' Hw'.
    assert (o' = o ∧ rest' = rest) as [-> ->] by (split; congruence).
    assert (no_faults w1) as Hnf1 by by eapply no_faults_frame.
    destruct (generateKeyPair_returns None w1 Hnf1) as (kp & evs2 & Hg & Hframe2 & Hcase).
    pose proof (frame_trans _ _ _ _ _ Hframe1 Hframe2) as Hframe.
    destruct (generateKeyPair None w1) as [[kp'|e] w2]; cbn [fst snd] in *; [| done].
    split; [done |]. exists evs2.
    rewrite (frame_new_events _ _ _ Hframe), fmap_app, Hops1, <- app_assoc.
    split; [done |]. split.
    + intros Hnone'. rewrite <- Hobj1 in Hnone'.
      pose proof (proj2 (stored_key_pair_current w1) Hnone') as Hnone.
      destruct Hcase as [(Hkp & _) | [_ (-> & Hobj & _ & Hops)]]; [by apply Hnone in Hkp |].
      rewrite Hobj, Hops, Hobj1, (frame_encryption _ _ _ Hframe1).
      unfold MessageSigning.fresh_key_pair, MessageSigning.passphrase_for, seed_for. by rewrite Hrng.
    + intros o2 kp2 Ho2 Hkp2.
      destruct Hcase as [(_ & _ & Hread) | [Hnone _]].
      * apply read_existing_ids in Hread. by rewrite <- Hobj1.
      * destruct (Hnone kp2). exists o2. unfold current. by rewrite Hobj1.
  - intros (Hw & Hobj1 & Hops1). split; [| intros o rest Hw'; congruence].
    intros _. by rewrite (frame_new_events _ _ _ Hframe1).
  - intros Hplan. by apply no_faults_planned in Hplan.
Qed.

(** *** Errors of the dependencies *)

Lemma regular_ret {A} (a : A) : regular (mret a).
Proof. intros w. exists []. split; [by rewrite app_nil_r | constructor]. Qed.

Lemma regular_throw {A} msg : regular (@throw A (Error msg)).
Proof. intros w. exists []. split; [by rewrite app_nil_r | constructor]. Qed.

Lemma regular_get_isEncryptionAvailable : regular get_isEncryptionAvailable.
Proof. intros w. exists []. split; [by rewrite app_nil_r | constructor]. Qed.

Lemma regular_call {A} op (body : World → Result A * World) :
  op ≠ FinderClose → regular (call op body).
Proof.
  intros Hop w. unfold call.
  destruct (faults w (length (trace w))) as [e|].
  - simpl. eexists. split; [reflexivity |]. exists [], op.
    repeat split; [done | constructor].
  - destruct (body w) as [[a|[e|msg]] w']; simpl; eexists; (split; [reflexivity |]).
    + by repeat constructor.
    + exists [], op. repeat split; [done | constructor].
    + by repeat constructor.
Qed.

Lemma regular_finder_close f : regular (not_awaited (finder_close f)).
Proof.
  intros w. unfold not_awaited, finder_close, call. simpl.
  destruct (faults w (length (trace w))) as [e|]; simpl;
    (eexists; split; [reflexivity |]); repeat constructor; by intros [].
Qed.

Lemma regular_bind {A B} (m : M A) (f : A → M B) :
  regular m → (∀ a, regular (f a)) → regular (m ≫= f).
Proof.
  intros Hm Hf w. destruct (Hm w) as (evs1 & Ht1 & Hr1). revert Ht1 Hr1.
  unfold mbind, M_bind. destruct (m w) as [[a|e] w1]; simpl.
  - intros Ht1 Hq1. destruct (Hf a w1) as (evs2 & Ht2 & Hr2).
    exists (evs1 ++ evs2). split; [by rewrite Ht2, Ht1, app_assoc |].
    destruct (f a w1).1 as [b|[e|msg]].
    + by apply Forall_app.
    + destruct Hr2 as (pre & op & -> & Hop & Hpre). exists (evs1 ++ pre), op.
      split; [by rewrite app_assoc |]. split; [done |]. by apply Forall_app.
    + by apply Forall_app.
  - intros Ht1 Hr1. by exists evs1.
Qed.

Lemma regular_propagates {A} (m : M A) : regular m → propagates m.
Proof.
  intros Hm w. destruct (Hm w) as (evs & Ht & Hr).
  assert (new_events w (m w).2 = evs) as ->
    by (unfold new_events; by rewrite Ht, drop_app_length).
  split; [done |].
  intros pre ev post e Hnew Hev He. subst evs.
  assert (∀ l, quiet l → ev ∈ l → False) as Hquiet.
  { intros l Hl Hin. unfold quiet in Hl. rewrite Forall_forall in Hl.
    specialize (Hl ev Hin Hev). congruence. }
  destruct (m w).1 as [a|[e'|msg]].
  - destruct (Hquiet _ Hr). apply elem_of_app. right. by left.
  - destruct Hr as (pre' & op & Heq & Hop & Hpre).
    destruct post as [|x post _] using rev_ind.
    + apply app_inj_tail in Heq as [_ ->]. simpl in He. split; congruence.
    + rewrite app_comm_cons, app_assoc in Heq. apply app_inj_tail in Heq as [<- _].
      destruct (Hquiet _ Hpre). apply elem_of_app. right. by left.
  - destruct (Hquiet _ Hr). apply elem_of_app. right. by left.
Qed.

Lemma regular_getCurrentKeyPairObj : regular getCurrentKeyPairObj.
Proof.
  unfold getCurrentKeyPairObj.
  apply regular_bind; [by apply regular_call | intros finder].
  apply regular_bind; [by apply regular_call | intros result].
  apply regular_bind; [apply regular_finder_close | intros _]. apply regular_ret.
Qed.

Lemma regular_checkForExistingKeyPair : regular checkForExistingKeyPair.
Proof.
  unfold checkForExistingKeyPair.
  apply regular_bind; [apply regular_getCurrentKeyPairObj | intros [o|]];
    [| apply regular_ret].
  destruct (attributes o) as [a|]; [| apply regular_ret].
  destruct (negb _ || _ || _); [apply regular_ret |].
  apply regular_bind; [apply regular_get_isEncryptionAvailable | intros enc].
  apply regular_bind; [| intros _; apply regular_ret].
  destruct (_ && _); [by apply regular_call | apply regular_ret].
Qed.

Lemma regular_generateKeyPair p : regular (generateKeyPair p).
Proof.
  unfold MessageSigning.generateKeyPair.
  apply regular_bind; [apply regular_checkForExistingKeyPair | intros [kp|]];
    [apply regular_ret |].
  apply regular_bind.
  { destruct (Js.truthy p); [apply regular_ret |].
    apply regular_bind; [by apply regular_call | intros b; apply regular_ret]. }
  intros pass. apply regular_bind; [by apply regular_call | intros keys].
  apply regular_bind; [apply regular_get_isEncryptionAvailable | intros enc].
  apply regular_bind; [by apply regular_call | intros _; apply regular_ret].
Qed.

Lemma regular_sign m : regular (sign m).
Proof.
  unfold MessageSigning.sign.
  apply regular_bind; [apply regular_generateKeyPair | intros kp].
  apply regular_bind; [by apply regular_call | intros signer].
  destruct (negb _); [apply regular_throw |].
  destruct (negb _); [apply regular_throw |].
  apply regular_bind; [by apply regular_call | intros sig; apply regular_ret].
Qed.

Lemma regular_getPublicKey : regular getPublicKey.
Proof.
  unfold MessageSigning.getPublicKey.
  apply regular_bind; [apply regular_generateKeyPair | intros kp].
  destruct (negb _); [apply regular_throw | apply regular_ret].
Qed.

Lemma regular_rotateKeyPair : regular rotateKeyPair.
Proof.
  unfold MessageSigning.rotateKeyPair, removeKeyPair.
  apply regular_bind.
  { apply regular_bind; [apply regular_getCurrentKeyPairObj | intros [o|]];
      [| apply regular_ret].
    apply regular_bind; [by apply regular_call | intros _; apply regular_ret]. }
  intros [|]; [| apply regular_ret].
  apply regular_bind; [apply regular_generateKeyPair | intros _; apply regular_ret].
Qed.

(** C7. The service adds no failure recovery: when an awaited dependency
    call throws during [generateKeyPair], [sign], [getPublicKey] or
    [rotateKeyPair], the method throws that same error and calls nothing
    else. *)
Theorem no_failure_recovery :
  (∀ p, propagates (generateKeyPair p))
  ∧ (∀ m, propagates (sign m))
  ∧ propagates getPublicKey
  ∧ propagates rotateKeyPair.
Proof.
  split; [| split; [| split]].
  - intros p. apply regular_propagates, regular_generateKeyPair.
  - intros m. apply regular_propagates, regular_sign.
  - apply regular_propagates, regular_getPublicKey.
  - apply regular_propagates, regular_rotateKeyPair.
Qed.

(** *** What a failure leaves in the store *)

Lemma wp_conj {A} (m : M A) (Q1 Q2 : Result A → World → Prop) w :
  wp m Q1 w → wp m Q2 w → wp m (λ r w', Q1 r w' ∧ Q2 r w') w.
Proof. by split. Qed.

Lemma wp_checkForExistingKeyPair_throw w :
  wp checkForExistingKeyPair (store_kept_on_throw w) w.
Proof.
  unfold checkForExistingKeyPair.
  apply wp_bind. eapply wp_mono; [apply wp_getCurrentKeyPairObj |].
  intros r w1 (Hobj & _ & _).
  destruct r as [[o|]|e]; [| exact I | exact Hobj].
  destruct (attributes o) as [a|]; [| exact I].
  destruct (negb _ || _ || _); [exact I |].
  apply wp_bind, wp_get_isEncryptionAvailable. apply wp_bind.
  destruct (_ && _); [| exact I].
  unfold soClient_update. apply wp_call; [intros e He; exact Hobj | intros _].
  destruct (update_object _ _ _); cbn [fst snd]; [exact I | exact Hobj].
Qed.

Lemma wp_generateKeyPair_throw p w : wp (generateKeyPair p) (store_kept_on_throw w) w.
Proof.
  unfold MessageSigning.generateKeyPair. apply wp_bind.
  eapply wp_mono;
    [apply (wp_conj _ _ _ _ (wp_checkForExistingKeyPair w)
              (wp_checkForExistingKeyPair_throw w)) |].
  intros r w1 [(_ & evs1 & _ & Hr) Hthrow].
  destruct r as [[kp|]|e]; [exact I | | exact Hthrow].
  destruct Hr as (_ & Hobj1 & _).
  apply wp_bind. eapply wp_mono; [apply wp_passphrase |].
  intros r w2 (Hobj2 & _). destruct r as [pass|e]; [| simpl; congruence].
  unfold generateKeyPairSync.
  apply wp_bind, wp_call; [intros e He; simpl; congruence | intros _].
  cbn [fst snd threw]. apply wp_bind, wp_get_isEncryptionAvailable.
  unfold soClient_create.
  apply wp_bind, wp_call; [intros e He; simpl; congruence | intros _].
  exact I.
Qed.

Lemma wp_removeKeyPair_throw w : wp removeKeyPair (store_kept_on_throw w) w.
Proof.
  unfold removeKeyPair. apply wp_bind. eapply wp_mono; [apply wp_getCurrentKeyPairObj |].
  intros r w1 (Hobj & _ & _).
  destruct r as [[o|]|e]; [| exact I | exact Hobj].
  unfold soClient_delete. apply wp_bind, wp_call; [intros e He; exact Hobj | intros _].
  destruct (delete_object _ _); cbn [fst snd]; [exact I | exact Hobj].
Qed.

Lemma generateKeyPair_throw_store p w e :
  (generateKeyPair p w).1 = Throw e → objects (generateKeyPair p w).2 = objects w.
Proof.
  intros Hr. pose proof (wp_generateKeyPair_throw p w) as H. unfold wp in H.
  by rewrite Hr in H.
Qed.

(** X1. A [generateKeyPair] that throws leaves the saved objects as they
    were, whichever dependency call failed. *)
Theorem generateKeyPair_failure_keeps_store (p : option string) (w : World) (e : Exn) :
  (generateKeyPair p w).1 = Throw e → objects (generateKeyPair p w).2 = objects w.
Proof.
  intros Hr. pose proof (wp_generateKeyPair_throw p w) as H. unfold wp in H.
  rewrite Hr in H. exact H.
Qed.

(** X2. [rotateKeyPair] is not atomic. When it throws, either
    [removeKeyPair] threw and the saved objects are as they were, or the
    newest object is already deleted and stays deleted: nothing restores
    it. *)
Theorem rotateKeyPair_failure (w : World) (e : Exn) :
  (rotateKeyPair w).1 = Throw e →
  ((removeKeyPair w).1 = Ok true ∧ objects (rotateKeyPair w).2 = tail (objects w))
  ∨ ((∃ e', (removeKeyPair w).1 = Throw e') ∧ objects (rotateKeyPair w).2 = objects w).
Proof.
  rewrite rotateKeyPair_after_removeKeyPair.
  pose proof (wp_removeKeyPair w) as (_ & evs & _ & Hr).
  pose proof (wp_removeKeyPair_throw w) as Hthrow. revert Hr Hthrow. unfold wp.
  destruct (removeKeyPair w) as [[[|]|e'] w1]; cbn [fst snd].
  - intros (o & rest & Hw & Hobj1 & _) _.
    pose proof (generateKeyPair_throw_store None w1) as Hgen. revert Hgen.
    destruct (generateKeyPair None w1) as [[kp|e2] w2]; cbn [fst snd]; [done |].
    intros Hgen _. left. split; [done |]. rewrite (Hgen e2 eq_refl), Hobj1, Hw. done.
  - done.
  - intros _ Hobj _. right. split; [by exists e' | exact Hobj].
Qed.

(** *** At most one key pair *)

Lemma single_key_pair_objects w w' :
  objects w' = objects w → single_key_pair w → single_key_pair w'.
Proof. unfold single_key_pair. by intros ->. Qed.

Lemma single_key_pair_current w x kp :
  objects w = [x] → has_key_pair w kp → single_key_pair w.
Proof.
  intros Hw (o & Ho & Hkp). right. exists x, kp. split; [done |].
  unfold current in Ho. rewrite Hw in Ho. by injection Ho as ->.
Qed.

Lemma single_key_pair_none w :
  single_key_pair w → (∀ kp, ¬ has_key_pair w kp) → objects w = [].
Proof.
  intros [Hw | (o & kp & Hw & Hkp)] Hnone; [done |].
  destruct (Hnone kp). exists o. unfold current. by rewrite Hw.
Qed.

Lemma generateKeyPair_single p w :
  single_key_pair w → single_key_pair (generateKeyPair p w).2.
Proof using prime256v1_nonempty.
  intros Hw. pose proof (wp_generateKeyPair p w) as Hgen.
  pose proof (generateKeyPair_throw_store p w) as Hthrow. unfold wp in Hgen.
  destruct (generateKeyPair p w) as [[kp|e] w1]; cbn [fst snd] in *.
  2:{ eapply single_key_pair_objects; [by eapply Hthrow | done]. }
  pose proof (generated_has_key_pair _ _ _ _ Hgen) as Hkp.
  destruct Hgen as (evs & _ & [(_ & _ & o & rest & a & Hobj & _ & _ & _ & Hmove)
                              | (Hnone & _ & Hobj1 & _)]).
  - assert (rest = []) as ->.
    { destruct Hw as [Hw | (o' & kp' & Hw & _)]; congruence. }
    destruct (Js.truthy (passphrase_plain a) && isEncryptionAvailable w).
    + destruct Hmove as [Hobj1 _]. by eapply single_key_pair_current.
    + destruct Hmove as [Hobj1 _]. rewrite Hobj in Hobj1. by eapply single_key_pair_current.
  - rewrite (single_key_pair_none w Hw Hnone) in Hobj1. by eapply single_key_pair_current.
Qed.

Lemma sign_world_objects m w :
  objects (sign m w).2 = objects (generateKeyPair None w).2.
Proof using prime256v1_nonempty.
  pose proof (sign_after_generateKeyPair m w) as H.
  pose proof (generateKeyPair_nonempty None w) as Hne. revert H Hne.
  destruct (generateKeyPair None w).1 as [kp|e].
  - intros H Hne. destruct (Hne kp eq_refl) as (Hpriv & _ & Hpass).
    by destruct (H Hpriv Hpass) as (Hobj & _).
  - by intros -> _.
Qed.

Lemma getPublicKey_world w : (getPublicKey w).2 = (generateKeyPair None w).2.
Proof using prime256v1_nonempty.
  pose proof (getPublicKey_after_generateKeyPair w) as H.
  pose proof (generateKeyPair_nonempty None w) as Hne. revert H Hne.
  destruct (generateKeyPair None w) as [[kp|e] w1]; cbn [fst snd].
  - intros H Hne. destruct (Hne kp eq_refl) as (_ & Hpub & _). by rewrite (H Hpub).
  - by intros -> _.
Qed.

Lemma rotateKeyPair_single w :
  single_key_pair w → single_key_pair (rotateKeyPair w).2.
Proof using prime256v1_nonempty.
  intros Hw. rewrite rotateKeyPair_after_removeKeyPair.
  pose proof (wp_removeKeyPair w) as (_ & evs & _ & Hr).
  pose proof (wp_removeKeyPair_throw w) as Hthrow. revert Hr Hthrow. unfold wp.
  destruct (removeKeyPair w) as [[[|]|e'] w1]; cbn [fst snd].
  - intros (o & rest & Hobj & Hobj1 & _) _.
    assert (single_key_pair w1) as Hw1.
    { left. destruct Hw as [Hw | (o' & kp' & Hw & _)]; congruence. }
    pose proof (generateKeyPair_single None w1 Hw1) as H.
    by destruct (generateKeyPair None w1) as [[kp|e] w2].
  - intros (_ & Hobj1 & _) _. by left.
  - intros _ Hobj. by eapply single_key_pair_objects.
Qed.

Lemma serve_single r w :
  single_key_pair w →
  single_key_pair
    (serve JsRecord JSON_stringify entropy prime256v1 Buffer_from_base64 SHA256_sign r w).
Proof using prime256v1_nonempty.
  intros Hw. destruct r as [p|m| |]; simpl.
  - by apply generateKeyPair_single.
  - eapply single_key_pair_objects; [apply sign_world_objects |].
    by apply generateKeyPair_single.
  - rewrite getPublicKey_world. by apply generateKeyPair_single.
  - by apply rotateKeyPair_single.
Qed.

(** X3. The service keeps at most one key pair: on every plan of failures,
    any sequence of calls from a store with at most one saved object, which
    holds a key pair, leads to such a store again. *)
Theorem service_keeps_single_key_pair
    (rs : list (Request JsRecord)) (w : World) :
  single_key_pair w →
  single_key_pair
    (serve_all JsRecord JSON_stringify entropy prime256v1 Buffer_from_base64 SHA256_sign
       rs w).
Proof using prime256v1_nonempty.
  unfold serve_all. revert w. induction rs as [|r rs IH]; intros w Hw; [exact Hw |].
  simpl. apply IH. by apply serve_single.
Qed.

(** *** Rotation *)

(** C3. On the stores the service keeps, with at most one key pair,
    [rotateKeyPair] returns [true] exactly when a current key pair existed.
    It then has first deleted that key pair's saved object and then generated
    and persisted a fresh key pair, which is the current one afterwards.
    When it returns [false] the store is left unchanged and nothing is
    created: only the finder was called. *)
Theorem rotateKeyPair_replaces_key_pair (w : World) :
  no_faults w →
  single_key_pair w →
  ((rotateKeyPair w).1 = Ok true ↔ ∃ kp, has_key_pair w kp)
  ∧ (∀ o, objects w = [o] →
       let kp := fresh_key_pair None w in
       let a := attributes_of (isEncryptionAvailable w) kp in
       (rotateKeyPair w).1 = Ok true
       ∧ ev_op <$> new_events w (rotateKeyPair w).2
         = finder_ops ++ SoDelete (so_id o)
           :: finder_ops ++ passphrase_ops None ++ [GenerateKeyPairSync; SoCreate a]
       ∧ objects (rotateKeyPair w).2 = [ {| so_id := fresh_id []; attributes := Some a |} ]
       ∧ has_key_pair (rotateKeyPair w).2 kp)
  ∧ (objects w = [] →
       (rotateKeyPair w).1 = Ok false
       ∧ objects (rotateKeyPair w).2 = objects w
       ∧ ev_op <$> new_events w (rotateKeyPair w).2 = finder_ops).
Proof using prime256v1_nonempty.
  intros Hnf Hs. destruct (rotateKeyPair_on_store w Hnf) as [Hempty Hsome].
  split; [| split].
  - split.
    + intros Hr. destruct Hs as [Hw | (o & kp & Hw & Hkp)].
      * destruct (Hempty Hw) as [Hr' _]. congruence.
      * exists kp, o. unfold current. by rewrite Hw.
    + intros [kp (o & Ho & _)]. unfold current in Ho.
      destruct (objects w) as [|o' rest] eqn:Hw; [done |].
      by destruct (Hsome o' rest eq_refl).
  - intros o Hw kp a. destruct (Hsome o [] Hw) as (Hr & evs & Hops & Hnew & _).
    destruct Hnew as [Hobj Hevs]; [by intros o2 kp2 [=] |].
    split; [done |]. split; [by rewrite Hops, Hevs |]. split; [exact Hobj |].
    destruct (fresh_key_pair_nonempty None w) as (Hpriv & Hpub & Hpass).
    destruct (key_pair_of_attributes_of (isEncryptionAvailable w) kp Hpriv Hpub Hpass)
      as [Hc Hk].
    apply has_key_pair_complete. eexists _, _. unfold current. rewrite Hobj.
    split; [reflexivity |]. split; [reflexivity |]. by split.
  - intros Hw. destruct (Hempty Hw) as (Hr & Hobj & Hops). by rewrite Hobj, Hw.
Qed.

(** *** No plaintext passphrase when encryption is available *)

Lemma no_plaintext_passphrase_objects w w' :
  objects w' = objects w → no_plaintext_passphrase w → no_plaintext_passphrase w'.
Proof. unfold no_plaintext_passphrase. by intros ->. Qed.

Lemma generateKeyPair_encryption p w :
  isEncryptionAvailable (generateKeyPair p w).2 = isEncryptionAvailable w.
Proof.
  pose proof (wp_generateKeyPair p w) as (evs & Hframe & _). by eapply frame_encryption.
Qed.

Lemma generateKeyPair_no_plaintext p w :
  isEncryptionAvailable w = true →
  no_plaintext_passphrase w → no_plaintext_passphrase (generateKeyPair p w).2.
Proof.
  intros Henc Hw. pose proof (wp_generateKeyPair p w) as Hgen.
  pose proof (generateKeyPair_throw_store p w) as Hthrow. unfold wp in Hgen.
  destruct (generateKeyPair p w) as [[kp|e] w1]; cbn [fst snd] in *.
  2:{ eapply no_plaintext_passphrase_objects; [by eapply Hthrow | done]. }
  destruct Hgen as (evs & _ & [(_ & _ & o & rest & a & Hobj & Ha & _ & _ & Hmove)
                              | (_ & _ & Hobj1 & _)]).
  - assert (Js.truthy (passphrase_plain a) = false) as Hplain.
    { unfold no_plaintext_passphrase in Hw. rewrite Hobj in Hw.
      apply Forall_cons in Hw as [Ho _]. by apply Ho. }
    rewrite Hplain in Hmove. destruct Hmove as [Hobj1 _].
    by eapply no_plaintext_passphrase_objects.
  - unfold no_plaintext_passphrase. rewrite Hobj1, Henc. apply Forall_cons.
    split; [| exact Hw]. by intros a [= <-].
Qed.

Lemma sign_encryption m w : isEncryptionAvailable (sign m w).2 = isEncryptionAvailable w.
Proof using prime256v1_nonempty.
  rewrite <- (generateKeyPair_encryption None w).
  pose proof (sign_after_generateKeyPair m w) as H.
  pose proof (generateKeyPair_nonempty None w) as Hne. revert H Hne.
  destruct (generateKeyPair None w).1 as [kp|e].
  - intros H Hne. destruct (Hne kp eq_refl) as (Hpriv & _ & Hpass).
    destruct (H Hpriv Hpass) as (_ & _ & evs & Hframe & _). by eapply frame_encryption.
  - by intros -> _.
Qed.

Lemma serve_no_plaintext r w :
  isEncryptionAvailable w = true → no_plaintext_passphrase w →
  isEncryptionAvailable
    (serve JsRecord JSON_stringify entropy prime256v1 Buffer_from_base64 SHA256_sign r w)
  = true
  ∧ no_plaintext_passphrase
      (serve JsRecord JSON_stringify entropy prime256v1 Buffer_from_base64 SHA256_sign r w).
Proof using prime256v1_nonempty.
  intros Henc Hw. destruct r as [p|m| |]; simpl.
  - split; [by rewrite generateKeyPair_encryption | by apply generateKeyPair_no_plaintext].
  - split; [by rewrite sign_encryption |].
    eapply no_plaintext_passphrase_objects; [apply sign_world_objects |].
    by apply generateKeyPair_no_plaintext.
  - rewrite getPublicKey_world.
    split; [by rewrite generateKeyPair_encryption | by apply generateKeyPair_no_plaintext].
  - rewrite rotateKeyPair_after_removeKeyPair.
    pose proof (wp_removeKeyPair w) as (_ & evs & Hframe & Hr).
    pose proof (wp_removeKeyPair_throw w) as Hthrow. revert Hframe Hr Hthrow. unfold wp.
    destruct (removeKeyPair w) as [[[|]|e'] w1]; cbn [fst snd].
    + intros Hframe (o & rest & Hobj & Hobj1 & _) _.
      assert (isEncryptionAvailable w1 = true) as Henc1
        by by rewrite (frame_encryption _ _ _ Hframe).
      assert (no_plaintext_passphrase w1) as Hw1.
      { unfold no_plaintext_passphrase in *. rewrite Hobj1. rewrite Hobj in Hw.
        by apply Forall_cons in Hw as [_ Hw]. }
      pose proof (generateKeyPair_encryption None w1) as He.
      pose proof (generateKeyPair_no_plaintext None w1 Henc1 Hw1) as Hn.
      destruct (generateKeyPair None w1) as [[kp|e] w2]; cbn [fst snd] in *;
        (split; [congruence | done]).
    + intros Hframe (Hobj & Hobj1 & _) _.
      split; [by rewrite (frame_encryption _ _ _ Hframe) |].
      unfold no_plaintext_passphrase. by rewrite Hobj1.
    + intros Hframe _ Hobj. split; [by rewrite (frame_encryption _ _ _ Hframe) |].
      by eapply no_plaintext_passphrase_objects.
Qed.

(** X17. With encryption available the service stores no plaintext
    passphrase: on every plan of failures, any sequence of calls from a store
    whose saved objects carry none leads to such a store again. *)
Theorem service_keeps_passphrases_encrypted
    (rs : list (Request JsRecord)) (w : World) :
  isEncryptionAvailable w = true →
  no_plaintext_passphrase w →
  no_plaintext_passphrase
    (serve_all JsRecord JSON_stringify entropy prime256v1 Buffer_from_base64 SHA256_sign
       rs w).
Proof using prime256v1_nonempty.
  unfold serve_all. revert w. induction rs as [|r rs IH]; intros w Henc Hw; [exact Hw |].
  simpl. destruct (serve_no_plaintext r w Henc Hw) as [Henc' Hw']. by apply IH.
Qed.

(** *** Which calls a method makes *)

Lemma calls_only_ret {A} P (a : A) : calls_only P (mret a).
Proof. intros w. exists []. split; [by rewrite app_nil_r | by split]. Qed.

Lemma calls_only_throw {A} P e : calls_only P (@throw A e).
Proof. intros w. exists []. split; [by rewrite app_nil_r | by split]. Qed.

Lemma calls_only_get_isEncryptionAvailable P : calls_only P get_isEncryptionAvailable.
Proof. intros w. exists []. split; [by rewrite app_nil_r | by split]. Qed.

Lemma calls_only_call {A} (P : Op → Prop) op (body : World → Result A * World) :
  P op → calls_only P (call op body).
Proof.
  intros Hop w. unfold call.
  destruct (faults w (length (trace w))) as [e|]; [| destruct (body w) as [r w']];
    simpl; eexists; (split; [reflexivity |]); split; try done; by repeat constructor.
Qed.

Lemma calls_only_not_awaited {A} P (m : M A) : calls_only P m → calls_only P (not_awaited m).
Proof. intros Hm w. exact (Hm w). Qed.

Lemma calls_only_bind {A B} P (m : M A) (f : A → M B) :
  calls_only P m → (∀ a, calls_only P (f a)) → calls_only P (m ≫= f).
Proof.
  intros Hm Hf w. destruct (Hm w) as (evs1 & Ht1 & Hf1 & Hp1). revert Ht1 Hf1.
  unfold mbind, M_bind. destruct (m w) as [[a|e] w1]; simpl; intros Ht1 Hf1.
  - destruct (Hf a w1) as (evs2 & Ht2 & Hf2 & Hp2). exists (evs1 ++ evs2).
    split; [by rewrite Ht2, Ht1, app_assoc |]. split; [congruence | by apply Forall_app].
  - by exists evs1.
Qed.

Lemma calls_only_new_events {A} P (m : M A) w :
  calls_only P m → Forall (λ ev, P (ev_op ev)) (new_events w (m w).2).
Proof.
  intros Hm. destruct (Hm w) as (evs & Ht & _ & Hp). unfold new_events.
  by rewrite Ht, drop_app_length.
Qed.

Lemma calls_only_faults {A} P (m : M A) w : calls_only P m → faults (m w).2 = faults w.
Proof. intros Hm. by destruct (Hm w) as (evs & _ & Hf & _). Qed.

Local Ltac not_delete := intros [? ?]; discriminate.

Lemma getCurrentKeyPairObj_never_deletes :
  calls_only (λ op, ¬ is_delete op) getCurrentKeyPairObj.
Proof.
  unfold getCurrentKeyPairObj.
  apply calls_only_bind; [apply calls_only_call; not_delete | intros finder].
  apply calls_only_bind; [apply calls_only_call; not_delete | intros result].
  apply calls_only_bind; [| intros _; apply calls_only_ret].
  apply calls_only_not_awaited, calls_only_call. not_delete.
Qed.

Lemma generateKeyPair_never_deletes p : calls_only (λ op, ¬ is_delete op) (generateKeyPair p).
Proof.
  unfold MessageSigning.generateKeyPair, checkForExistingKeyPair.
  apply calls_only_bind.
  { apply calls_only_bind; [apply getCurrentKeyPairObj_never_deletes | intros [o|]];
      [| apply calls_only_ret].
    destruct (attributes o) as [a|]; [| apply calls_only_ret].
    destruct (negb _ || _ || _); [apply calls_only_ret |].
    apply calls_only_bind; [apply calls_only_get_isEncryptionAvailable | intros enc].
    apply calls_only_bind; [| intros _; apply calls_only_ret].
    destruct (_ && _); [apply calls_only_call; not_delete | apply calls_only_ret]. }
  intros [kp|]; [apply calls_only_ret |].
  apply calls_only_bind.
  { destruct (Js.truthy p); [apply calls_only_ret |].
    apply calls_only_bind; [apply calls_only_call; not_delete | intros b].
    apply calls_only_ret. }
  intros pass. apply calls_only_bind; [apply calls_only_call; not_delete | intros keys].
  apply calls_only_bind; [apply calls_only_get_isEncryptionAvailable | intros enc].
  apply calls_only_bind; [apply calls_only_call; not_delete | intros _].
  apply calls_only_ret.
Qed.

Lemma sign_never_deletes m : calls_only (λ op, ¬ is_delete op) (sign m).
Proof.
  unfold MessageSigning.sign.
  apply calls_only_bind; [apply generateKeyPair_never_deletes | intros kp].
  apply calls_only_bind; [apply calls_only_call; not_delete | intros signer].
  destruct (negb _); [apply calls_only_throw |].
  destruct (negb _); [apply calls_only_throw |].
  apply calls_only_bind; [apply calls_only_call; not_delete | intros sig].
  apply calls_only_ret.
Qed.

Lemma getPublicKey_never_deletes : calls_only (λ op, ¬ is_delete op) getPublicKey.
Proof.
  unfold MessageSigning.getPublicKey.
  apply calls_only_bind; [apply generateKeyPair_never_deletes | intros kp].
  destruct (negb _); [apply calls_only_throw | apply calls_only_ret].
Qed.

Lemma finder_ops_not_delete evs :
  Forall (λ ev, ev_op ev ∈ finder_ops) evs →
  Forall (λ ev, ∀ i, ev_op ev ≠ SoDelete i) evs.
Proof.
  intros H. eapply Forall_impl; [exact H |]. intros ev Hev i Hi. cbv beta in Hev. rewrite Hi in Hev.
  unfold finder_ops in Hev.
  repeat (apply elem_of_cons in Hev as [Hev|Hev]; [discriminate |]).
  by apply elem_of_nil in Hev.
Qed.

Lemma fmap_finder_ops evs :
  ev_op <$> evs = finder_ops → Forall (λ ev, ev_op ev ∈ finder_ops) evs.
Proof.
  intros Hops. apply Forall_forall. intros ev Hev. rewrite <- Hops.
  by apply list_elem_of_fmap_2.
Qed.

(** The only object [removeKeyPair] deletes is the newest one. *)
Lemma wp_removeKeyPair_deletes w :
  wp removeKeyPair
    (λ r w', ∃ evs, trace w' = trace w ++ evs
       ∧ Forall (λ ev, ∀ i, ev_op ev = SoDelete i → ∃ o, current w = Some o ∧ i = so_id o)
           evs) w.
Proof.
  unfold removeKeyPair. apply wp_bind. eapply wp_mono; [apply wp_getCurrentKeyPairObj |].
  intros r w1 (_ & _ & evs & (_ & _ & Ht) & Hr).
  assert (Forall (λ ev, ∀ i, ev_op ev = SoDelete i → ∃ o, current w = Some o ∧ i = so_id o)
            evs) as Hevs.
  { assert (Forall (λ ev, ev_op ev ∈ finder_ops) evs) as H.
    { destruct r as [o|[e|msg]]; [| | done].
      - destruct Hr as [_ Hops]. by apply fmap_finder_ops.
      - by destruct Hr. }
    apply finder_ops_not_delete in H. eapply Forall_impl; [exact H |].
    intros ev Hev i Hi. by destruct (Hev i). }
  destruct r as [[o|]|e]; [| by exists evs | by exists evs].
  destruct Hr as [Ho _].
  assert (Forall (λ ev, ∀ i, ev_op ev = SoDelete i → ∃ o, current w = Some o ∧ i = so_id o)
            (evs ++ [ {| ev_op := SoDelete (so_id o); ev_threw := None |} ])) as Hok.
  { apply Forall_app. split; [done |]. repeat constructor. intros i [= <-]. by exists o. }
  unfold soClient_delete. apply wp_bind, wp_call.
  - intros e He. eexists. split; [cbn; by rewrite Ht, <- app_assoc |].
    apply Forall_app. split; [done |]. repeat constructor. intros i [= <-]. by exists o.
  - intros _. destruct (delete_object _ _); cbn [fst snd threw].
    + apply wp_ret. eexists. split; [cbn; by rewrite Ht, <- app_assoc | done].
    + eexists. split; [cbn; by rewrite Ht, <- app_assoc |].
      apply Forall_app. split; [done |]. repeat constructor. intros i [= <-]. by exists o.
Qed.

(** X4. Signing, reading the public key and generating a key pair never
    delete a saved object, on any plan; the only object [rotateKeyPair]
    deletes is the newest one. *)
Theorem only_rotation_deletes (w : World) :
  (∀ p, Forall (λ ev, ¬ is_delete (ev_op ev)) (new_events w (generateKeyPair p w).2))
  ∧ (∀ m, Forall (λ ev, ¬ is_delete (ev_op ev)) (new_events w (sign m w).2))
  ∧ Forall (λ ev, ¬ is_delete (ev_op ev)) (new_events w (getPublicKey w).2)
  ∧ Forall (λ ev, ∀ i, ev_op ev = SoDelete i → ∃ o, current w = Some o ∧ i = so_id o)
      (new_events w (rotateKeyPair w).2).
Proof.
  split; [| split; [| split]].
  - intros p. apply (calls_only_new_events _ _ w (generateKeyPair_never_deletes p)).
  - intros m. apply (calls_only_new_events _ _ w (sign_never_deletes m)).
  - apply (calls_only_new_events _ _ w getPublicKey_never_deletes).
  - rewrite rotateKeyPair_after_removeKeyPair.
    pose proof (wp_removeKeyPair_deletes w) as (evs1 & Ht1 & Hd1). revert Ht1. unfold wp.
    assert (new_events w (removeKeyPair w).2 = evs1 →
            Forall (λ ev, ∀ i, ev_op ev = SoDelete i → ∃ o, current w = Some o ∧ i = so_id o)
              (new_events w (removeKeyPair w).2)) as Hsame by by intros ->.
    destruct (removeKeyPair w) as [[[|]|e] w1]; cbn [fst snd] in *; intros Ht1.
    + destruct (generateKeyPair_never_deletes None w1) as (evs2 & Ht2 & _ & Hd2).
      assert (new_events w (generateKeyPair None w1).2 = evs1 ++ evs2) as Hnew.
      { unfold new_events. by rewrite Ht2, Ht1, <- app_assoc, drop_app_length. }
      assert (Forall (λ ev, ∀ i, ev_op ev = SoDelete i →
                 ∃ o, current w = Some o ∧ i = so_id o) (evs1 ++ evs2)) as H.
      { apply Forall_app. split; [done |]. eapply Forall_impl; [exact Hd2 |].
        intros ev Hev i Hi. destruct Hev. by exists i. }
      by destruct (generateKeyPair None w1) as [[kp|e] w2]; cbn [fst snd] in *;
        rewrite Hnew.
    + apply Hsame. unfold new_events. by rewrite Ht1, drop_app_length.
    + apply Hsame. unfold new_events. by rewrite Ht1, drop_app_length.
Qed.

(** *** Reading an existing key pair *)

(** X5. Reading is read-only the second time: after [generateKeyPair] has
    returned, a further call returns the same key pair whatever passphrase
    it is given, calls only the finder and leaves the saved objects as they
    are. *)
Theorem second_read_is_read_only (p q : option string) (w : World) :
  no_faults w →
  ∃ kp, (generateKeyPair p w).1 = Ok kp
    ∧ (generateKeyPair q (generateKeyPair p w).2).1 = Ok kp
    ∧ objects (generateKeyPair q (generateKeyPair p w).2).2
      = objects (generateKeyPair p w).2
    ∧ ev_op <$> new_events (generateKeyPair p w).2
                  (generateKeyPair q (generateKeyPair p w).2).2
      = finder_ops.
Proof using prime256v1_nonempty.
  intros Hnf.
  destruct (generateKeyPair_returns p w Hnf) as (kp & evs & Hr & Hframe & Hcase).
  pose proof (wp_generateKeyPair p w) as Hgen. unfold wp in Hgen. rewrite Hr in Hgen.
  pose proof (generated_has_key_pair _ _ _ _ Hgen) as Hkp1.
  set (w1 := (generateKeyPair p w).2) in *.
  assert (no_faults w1) as Hnf1 by by eapply no_faults_frame.
  destruct (generateKeyPair_returns q w1 Hnf1) as (kp2 & evs2 & Hr2 & Hframe2 & Hcase2).
  exists kp. split; [done |]. rewrite (frame_new_events _ _ _ Hframe2).
  destruct Hcase2 as [(Hkp2 & _ & o1 & rest1 & a1 & Hobj1 & Ha1 & _ & _ & Hmove1)
                     | [Hnone _]]; [| by destruct (Hnone kp)].
  rewrite (has_key_pair_unique _ _ _ Hkp2 Hkp1) in *. split; [done |].
  assert (Js.truthy (passphrase_plain a1) && isEncryptionAvailable w1 = false) as Hcond.
  { rewrite (frame_encryption _ _ _ Hframe).
    destruct Hcase as [(_ & _ & o & rest & a & Hobj & Ha & _ & _ & Hmove)
                      | (_ & _ & Hobj & _)].
    - destruct (Js.truthy (passphrase_plain a) && isEncryptionAvailable w) eqn:Hc.
      + destruct Hmove as [Hobj' _]. rewrite Hobj' in Hobj1. injection Hobj1 as <- _.
        simpl in Ha1. by injection Ha1 as <-.
      + destruct Hmove as [Hobj' _]. rewrite Hobj', Hobj in Hobj1.
        injection Hobj1 as <- _. congruence.
    - rewrite Hobj in Hobj1. injection Hobj1 as <- _. simpl in Ha1. injection Ha1 as <-.
      unfold attributes_of. destruct (isEncryptionAvailable w); [done | apply andb_false_r]. }
  rewrite Hcond in Hmove1. by destruct Hmove1.
Qed.

(** X6. A passphrase in the encrypted attribute wins over one in
    [passphrase_plain]: it is the one returned, and a read leaves it, the
    keys and the identifier of the saved object as they are. *)
Theorem encrypted_passphrase_wins
    (p : option string) (w : World) (o : SavedObject) (rest : list SavedObject)
    (a : MessageSigningKeys) :
  no_faults w →
  objects w = o :: rest →
  attributes o = Some a →
  Js.truthy (private_key a) = true →
  Js.truthy (public_key a) = true →
  Js.truthy (passphrase a) = true →
  ∃ kp a', (generateKeyPair p w).1 = Ok kp
    ∧ Some (KeyPair.passphrase kp) = passphrase a
    ∧ objects (generateKeyPair p w).2 = {| so_id := so_id o; attributes := Some a' |} :: rest
    ∧ passphrase a' = passphrase a
    ∧ private_key a' = private_key a
    ∧ public_key a' = public_key a.
Proof.
  intros Hnf Hw Ha Hpriv Hpub Hpass.
  assert (complete a = true) as Hc by (unfold complete, Js.or; by rewrite Hpriv, Hpub, Hpass).
  assert (Some (KeyPair.passphrase (key_pair_of a)) = passphrase a) as Hsame.
  { unfold key_pair_of, Js.or. rewrite Hpass. simpl. symmetry. by apply truthy_eq_Some. }
  destruct (generateKeyPair_returns p w Hnf) as (kp & evs & Hr & _ & Hcase).
  destruct Hcase as [(_ & _ & o2 & rest2 & a2 & Hw2 & Ha2 & _ & -> & Hmove) | [Hnone _]].
  - assert (o2 = o ∧ rest2 = rest) as [-> ->] by (split; congruence).
    assert (a2 = a) as -> by congruence.
    exists (key_pair_of a). destruct (Js.truthy (passphrase_plain a) && _).
    + destruct Hmove as [Hobj _]. eexists. split; [done |]. split; [done |].
      split; [exact Hobj |]. by repeat split.
    + destruct Hmove as [Hobj _]. exists a. split; [done |]. split; [done |].
      split; [| done]. rewrite Hobj, Hw. by destruct o; simpl in *; subst.
  - destruct (Hnone (key_pair_of a)). apply has_key_pair_complete. exists o, a.
    unfold current. by rewrite Hw.
Qed.

(** X7. A read writes only to migrate: with a complete key pair in the newest
    object, [generateKeyPair] leaves the saved objects untouched exactly when
    there is no plaintext passphrase or encryption is not available. *)
Theorem read_writes_only_to_migrate
    (p : option string) (w : World) (o : SavedObject) (rest : list SavedObject)
    (a : MessageSigningKeys) :
  no_faults w →
  objects w = o :: rest →
  attributes o = Some a →
  complete a = true →
  objects (generateKeyPair p w).2 = objects w
  ↔ Js.truthy (passphrase_plain a) && isEncryptionAvailable w = false.
Proof.
  intros Hnf Hw Ha Hc.
  destruct (generateKeyPair_returns p w Hnf) as (kp & evs & Hr & _ & Hcase).
  destruct Hcase as [(_ & _ & o2 & rest2 & a2 & Hw2 & Ha2 & _ & -> & Hmove) | [Hnone _]].
  - assert (o2 = o ∧ rest2 = rest) as [-> ->] by (split; congruence).
    assert (a2 = a) as -> by congruence.
    destruct (Js.truthy (passphrase_plain a) && isEncryptionAvailable w) eqn:Hcond.
    + destruct Hmove as [Hobj _]. split; [| done]. rewrite Hobj, Hw.
      intros [= Ho]. rewrite <- Ho in Ha. simpl in Ha. injection Ha as Ha.
      apply andb_prop in Hcond as [Hplain _]. rewrite <- Ha in Hplain. done.
    + by destruct Hmove as [Hobj _].
  - destruct (Hnone (key_pair_of a)). apply has_key_pair_complete. exists o, a.
    unfold current. by rewrite Hw.
Qed.

(** *** Generation *)

(** X8. Without a usable passphrase from the caller (none, or the empty
    string) the passphrase of a generated key pair is 64 lower-case
    hexadecimal digits. *)
Theorem generated_passphrase_is_hex (p : option string) (w : World) :
  no_faults w →
  (∀ kp, ¬ has_key_pair w kp) →
  Js.truthy p = false →
  ∃ kp, (generateKeyPair p w).1 = Ok kp
    ∧ String.length (KeyPair.passphrase kp) = 64
    ∧ Forall (λ c, c ∈ hex_digits) (list_ascii_of_string (KeyPair.passphrase kp)).
Proof.
  intros Hnf Hnone Hp. destruct (generateKeyPair_cases p w Hnf) as [_ Hnew].
  destruct (Hnew Hnone) as (Hr & _). eexists. split; [exact Hr |].
  unfold MessageSigning.fresh_key_pair, MessageSigning.passphrase_for. rewrite Hp.
  cbn [KeyPair.passphrase]. split; [| apply toString_hex_digits].
  by rewrite toString_hex_length, length_fmap, length_seq.
Qed.

(** *** Rotation on the states the service reaches *)

Lemma serve_no_faults r w :
  no_faults w →
  no_faults
    (serve JsRecord JSON_stringify entropy prime256v1 Buffer_from_base64 SHA256_sign r w).
Proof.
  intros Hnf i. rewrite <- (Hnf i).
  enough (faults (serve JsRecord JSON_stringify entropy prime256v1 Buffer_from_base64
                    SHA256_sign r w) = faults w) as -> by done.
  destruct r as [p|m| |]; simpl.
  - apply (calls_only_faults _ _ w (generateKeyPair_never_deletes p)).
  - apply (calls_only_faults _ _ w (sign_never_deletes m)).
  - apply (calls_only_faults _ _ w getPublicKey_never_deletes).
  - rewrite rotateKeyPair_after_removeKeyPair.
    pose proof (wp_removeKeyPair w) as (_ & evs & (_ & Hf & _) & _). revert Hf. unfold wp.
    destruct (removeKeyPair w) as [[[|]|e] w1]; cbn [fst snd]; [| done..].
    intros Hf. rewrite <- Hf.
    pose proof (calls_only_faults _ _ w1 (generateKeyPair_never_deletes None)) as H.
    by destruct (generateKeyPair None w1) as [[kp|e] w2].
Qed.

(** X9. On every state the service reaches from an empty store, rotation
    does rotate: [rotateKeyPair] returns [true] exactly when there is a key
    pair, and then the store holds one saved object, with a freshly generated
    key pair, whose public key is what [getPublicKey] returns next. *)
Theorem rotateKeyPair_rotates_reachable
    (rs : list (Request JsRecord)) (w0 : World) :
  objects w0 = [] →
  no_faults w0 →
  let w := serve_all JsRecord JSON_stringify entropy prime256v1 Buffer_from_base64
             SHA256_sign rs w0 in
  let kp := fresh_key_pair None w in
  (objects w = [] → (rotateKeyPair w).1 = Ok false)
  ∧ (objects w ≠ [] →
     (rotateKeyPair w).1 = Ok true
     ∧ (∃ i, objects (rotateKeyPair w).2
             = [ {| so_id := i;
                    attributes := Some (attributes_of (isEncryptionAvailable w) kp) |} ])
     ∧ (getPublicKey (rotateKeyPair w).2).1 = Ok (KeyPair.publicKey kp)).
Proof using prime256v1_nonempty.
  intros Hw0 Hnf0 w kp.
  assert (single_key_pair w ∧ no_faults w) as [Hw Hnf].
  { subst w. unfold serve_all.
    assert (single_key_pair w0) as Hs0 by by left.
    clear Hw0 kp. revert w0 Hnf0 Hs0. induction rs as [|r rs IH]; intros w0 Hnf0 Hs0;
      [by split |].
    simpl. apply IH; [by apply serve_no_faults | by apply serve_single]. }
  rewrite rotateKeyPair_after_removeKeyPair.
  pose proof (wp_removeKeyPair w) as (Hrng & evs1 & Hframe1 & Hr). revert Hr. unfold wp.
  destruct (removeKeyPair w) as [[[|]|[e|msg]] w1]; cbn [fst snd] in *; [| | | done].
  - intros (o & rest & Hobj & Hobj1 & _). split; [intros; congruence |]. intros _.
    assert (rest = []) as -> by (destruct Hw as [Hw | (o' & kp' & Hw & _)]; congruence).
    assert (no_faults w1) as Hnf1 by by eapply no_faults_frame.
    assert (∀ kp', ¬ has_key_pair w1 kp') as Hnone1.
    { intros kp' (o' & Ho' & _). unfold current in Ho'. by rewrite Hobj1 in Ho'. }
    destruct (generateKeyPair_cases None w1 Hnf1) as [_ Hnew].
    destruct (Hnew Hnone1) as (Hg & Hobj2 & _).
    assert (fresh_key_pair None w1 = kp) as Hkp.
    { unfold kp, MessageSigning.fresh_key_pair, MessageSigning.passphrase_for, seed_for.
      by rewrite Hrng. }
    rewrite Hkp, (frame_encryption _ _ _ Hframe1), Hobj1 in Hobj2.
    pose proof (wp_generateKeyPair None w1) as Hgen. unfold wp in Hgen.
    rewrite Hg, Hkp in Hgen.
    pose proof (generated_has_key_pair _ _ _ _ Hgen) as Hkp2.
    assert (no_faults (generateKeyPair None w1).2) as Hnf2.
    { destruct Hgen as (evs2 & Hframe2 & _). by eapply no_faults_frame. }
    destruct (generateKeyPair None w1) as [[kp2|e2] w2]; cbn [fst snd] in *; [| done].
    split; [done |]. split; [by eexists |].
    destruct (getPublicKey_returns w2 Hnf2) as (kp3 & Hg3 & ->). cbn [fst].
    destruct (generateKeyPair_cases None w2 Hnf2) as [Hold _].
    destruct (Hold kp Hkp2) as [Hg3' _]. rewrite Hg3 in Hg3'. by injection Hg3' as ->.
  - intros (Hobj & _). split; [done | by intros []].
  - intros Hplan. by apply no_faults_planned in Hplan.
Qed.

End Properties.

(** ** The private key between [generateKeyPair] and [sign]

    [sign] decodes with [Buffer.from(_, 'base64')] what [generateKeyPair]
    encoded with [toString('base64')]. *)

Section Base64.

Variable JsRecord : Type.
Variable JSON_stringify : JsRecord → string.
Variable entropy : nat → byte.
Variable prime256v1 : nat → string → Buffer * Buffer.
Variable SHA256_sign : Buffer → Buffer → string → string.

Hypothesis prime256v1_nonempty :
  ∀ seed pass, (prime256v1 seed pass).1 ≠ [] ∧ (prime256v1 seed pass).2 ≠ [].

(** X10. Signing from a store without key pair hands the signer the very
    DER bytes of the private key generated for it, with the passphrase the
    key was encrypted under. *)
Theorem sign_uses_generated_private_key (m : Message JsRecord) (w : World) :
  no_faults w →
  (∀ kp, ¬ has_key_pair w kp) →
  let pass := passphrase_for entropy None w in
  let der := (prime256v1 (seed_for None w) pass).1 in
  (sign JsRecord JSON_stringify entropy prime256v1 from_base64 SHA256_sign m w).1
  = Ok {| data := msgBuffer JsRecord JSON_stringify m;
          signature := SHA256_sign (msgBuffer JsRecord JSON_stringify m) der pass |}.
Proof using prime256v1_nonempty.
  intros Hnf Hnone pass der.
  destruct (generateKeyPair_cases entropy prime256v1 None w Hnf) as [_ Hnew].
  destruct (Hnew Hnone) as [Hr _].
  destruct (fresh_key_pair_nonempty entropy prime256v1 prime256v1_nonempty None w)
    as (Hpriv & _ & Hpass).
  destruct (sign_returns JsRecord JSON_stringify entropy prime256v1 from_base64 SHA256_sign
              m w _ Hnf Hr Hpriv Hpass) as [-> _].
  unfold fresh_key_pair. cbn [KeyPair.privateKey KeyPair.passphrase].
  by rewrite EncodingFacts.from_base64_toString_base64.
Qed.

End Base64.

(** *** The service on the sample platform *)

Lemma sample_keys_nonempty :
  ∀ seed pass, (Sample.prime256v1 seed pass).1 ≠ [] ∧ (Sample.prime256v1 seed pass).2 ≠ [].
Proof. intros seed pass. split; discriminate. Defined.

Lemma sample_no_faults_empty enc : no_faults (Sample.empty_world enc).
Proof. intros i. reflexivity. Defined.

Lemma sample_no_faults_one enc : no_faults (Sample.one_key_pair enc).
Proof. intros i. reflexivity. Defined.

Lemma sample_no_key_pair enc kp : ¬ has_key_pair (Sample.empty_world enc) kp.
Proof. intros (o & Ho & _). discriminate. Defined.

Lemma sample_has_key_pair enc :
  has_key_pair (Sample.one_key_pair enc)
    {| KeyPair.privateKey := "cHJpdg=="; KeyPair.publicKey := "cHVi";
       KeyPair.passphrase := "secret" |}.
Proof.
  exists Sample.plain_key_pair. split; [reflexivity |].
  eexists. split; [reflexivity |]. simpl.
  repeat split; try discriminate. right. split; reflexivity.
Defined.

Lemma generateKeyPair_create_if_missing_witness :
  (Sample.generateKeyPair None (Sample.empty_world true)).1
  = Ok (fresh_key_pair Sample.entropy Sample.prime256v1 None (Sample.empty_world true))
  ∧ (Sample.generateKeyPair (Some "other") (Sample.one_key_pair false)).1
    = Ok {| KeyPair.privateKey := "cHJpdg=="; KeyPair.publicKey := "cHVi";
            KeyPair.passphrase := "secret" |}.
Proof.
  split.
  - destruct (generateKeyPair_create_if_missing Sample.entropy Sample.prime256v1 None
                (Sample.empty_world true) (sample_no_faults_empty true)) as [_ H].
    apply H. intros kp. apply sample_no_key_pair.
  - destruct (generateKeyPair_create_if_missing Sample.entropy Sample.prime256v1
                (Some "other") (Sample.one_key_pair false) (sample_no_faults_one false))
      as [H _].
    apply H. apply sample_has_key_pair.
Defined.

Lemma passphrase_encryption_toggle_witness :
  ∃ kp, (Sample.generateKeyPair (Some "pw") (Sample.empty_world false)).1 = Ok kp
    ∧ private_key Sample.plain_attributes = Some (KeyPair.privateKey kp)
    ∧ public_key Sample.plain_attributes = Some (KeyPair.publicKey kp)
    ∧ passphrase Sample.plain_attributes = None
    ∧ passphrase_plain Sample.plain_attributes = Some (KeyPair.passphrase kp).
Proof.
  apply (passphrase_encryption_toggle Sample.entropy Sample.prime256v1 (Some "pw")
           (Sample.empty_world false) Sample.plain_attributes).
  apply list_elem_of_In. simpl. tauto.
Defined.

Lemma generateKeyPair_ignores_passphrase_witness :
  Sample.generateKeyPair (Some "other") (Sample.one_key_pair false)
  = Sample.generateKeyPair None (Sample.one_key_pair false).
Proof.
  apply (proj1 (generateKeyPair_ignores_passphrase Sample.entropy Sample.prime256v1
                  (Sample.one_key_pair false)) _ (sample_has_key_pair false)).
Defined.

Lemma not_found_branches_unreachable_witness :
  (Sample.getPublicKey (Sample.empty_world true)).1
  ≠ Throw (Error "unable to find public key").
Proof.
  apply (not_found_branches_unreachable Sample.JsRecord Sample.JSON_stringify
           Sample.entropy Sample.prime256v1 Sample.Buffer_from_base64 Sample.SHA256_sign
           sample_keys_nonempty (Sample.empty_world true)).
Defined.

Lemma sign_returns_data_and_signature_witness :
  ∃ kp s, (Sample.generateKeyPair None (Sample.empty_world true)).1 = Ok kp
    ∧ (Sample.sign (MsgRecord _ [("a", "b")]) (Sample.empty_world true)).1 = Ok s
    ∧ data s = Buffer_from_utf8 (Sample.JSON_stringify [("a", "b")])
    ∧ signature s = Sample.SHA256_sign (data s)
                      (Sample.Buffer_from_base64 (KeyPair.privateKey kp))
                      (KeyPair.passphrase kp).
Proof.
  destruct (sign_returns_data_and_signature Sample.JsRecord Sample.JSON_stringify
              Sample.entropy Sample.prime256v1 Sample.Buffer_from_base64 Sample.SHA256_sign
              sample_keys_nonempty (MsgRecord _ [("a", "b")]) (Sample.empty_world true)
              (sample_no_faults_empty true))
    as (kp & s & Hg & Hs & Hd & Hsig & _).
  exists kp, s. repeat split; assumption.
Defined.

Lemma plaintext_passphrase_is_encrypted_on_read_witness :
  objects (Sample.getPublicKey (Sample.one_key_pair true)).2
  = [ {| so_id := 7;
         attributes := Some {| private_key := Some "cHJpdg=="; public_key := Some "cHVi";
                               passphrase := Some "secret";
                               passphrase_plain := Some "" |} |} ].
Proof.
  apply (plaintext_passphrase_is_encrypted_on_read Sample.JsRecord Sample.JSON_stringify
           Sample.entropy Sample.prime256v1 Sample.Buffer_from_base64 Sample.SHA256_sign
           (Sample.one_key_pair true) Sample.plain_key_pair []
           {| private_key := Some "cHJpdg=="; public_key := Some "cHVi";
              passphrase := None; passphrase_plain := Some "secret" |}
           (sample_no_faults_one true));
    reflexivity.
Defined.

Lemma getPublicKey_stable_witness :
  ∃ kp, (Sample.getPublicKey (Sample.empty_world true)).1 = Ok (KeyPair.publicKey kp)
    ∧ (Sample.getPublicKey (Sample.getPublicKey (Sample.empty_world true)).2).1
      = Ok (KeyPair.publicKey kp).
Proof.
  destruct (getPublicKey_stable Sample.entropy Sample.prime256v1 sample_keys_nonempty
              (Sample.empty_world true) (sample_no_faults_empty true))
    as (kp & H1 & _ & _ & _ & H2).
  exists kp. split; assumption.
Defined.

(** Outside [single_key_pair], on a store with an older key pair that no
    sequence of calls of the service produces, [rotateKeyPair] returns
    [true], deletes the newest object and creates nothing: the older key
    pair is the current one again. *)
Lemma rotateKeyPair_keeps_older_key_pair :
  no_faults Sample.two_key_pairs
  ∧ (Sample.rotateKeyPair Sample.two_key_pairs).1 = Ok true
  ∧ objects (Sample.rotateKeyPair Sample.two_key_pairs).2 = [Sample.older_key_pair]
  ∧ ev_op <$> new_events Sample.two_key_pairs (Sample.rotateKeyPair Sample.two_key_pairs).2
    = finder_ops ++ [SoDelete 7] ++ finder_ops.
Proof. split; [intros i; reflexivity |]. repeat split; reflexivity. Qed.

Lemma no_failure_recovery_witness :
  (Sample.generateKeyPair None Sample.create_fails).1 = Throw (DependencyError 503)
  ∧ objects (Sample.generateKeyPair None Sample.create_fails).2 = [].
Proof.
  split; [| reflexivity].
  destruct (no_failure_recovery Sample.JsRecord Sample.JSON_stringify Sample.entropy
              Sample.prime256v1 Sample.Buffer_from_base64 Sample.SHA256_sign) as [H _].
  destruct (H None Sample.create_fails) as [_ H'].
  refine (proj2 (H' (removelast (new_events Sample.create_fails
                                   (Sample.generateKeyPair None Sample.create_fails).2))
                   {| ev_op := SoCreate (attributes_of true
                                  (fresh_key_pair Sample.entropy Sample.prime256v1 None
                                     Sample.create_fails));
                      ev_threw := Some 503 |} [] 503 _ _ _)).
  - reflexivity.
  - discriminate.
  - reflexivity.
Defined.

Lemma sample_single_key_pair enc : single_key_pair (Sample.one_key_pair enc).
Proof.
  right. destruct (sample_has_key_pair enc) as (o & Ho & Hkp). injection Ho as <-.
  eexists _, _. split; [reflexivity | exact Hkp].
Defined.

Lemma sample_single_empty enc : single_key_pair (Sample.empty_world enc).
Proof. by left. Defined.

Lemma rotateKeyPair_replaces_key_pair_witness :
  (Sample.rotateKeyPair (Sample.one_key_pair false)).1 = Ok true
  ∧ objects (Sample.rotateKeyPair (Sample.one_key_pair false)).2
    = [ {| so_id := 1;
           attributes :=
             Some (attributes_of false
                     (fresh_key_pair Sample.entropy Sample.prime256v1 None
                        (Sample.one_key_pair false))) |} ]
  ∧ (Sample.rotateKeyPair (Sample.empty_world false)).1 = Ok false
  ∧ objects (Sample.rotateKeyPair (Sample.empty_world false)).2 = [].
Proof.
  split; [| split].
  - destruct (rotateKeyPair_replaces_key_pair Sample.entropy Sample.prime256v1 sample_keys_nonempty
                (Sample.one_key_pair false) (sample_no_faults_one false)
                (sample_single_key_pair false)) as (_ & H & _).
    destruct (H Sample.plain_key_pair eq_refl) as [Hr _]. exact Hr.
  - destruct (rotateKeyPair_replaces_key_pair Sample.entropy Sample.prime256v1 sample_keys_nonempty
                (Sample.one_key_pair false) (sample_no_faults_one false)
                (sample_single_key_pair false)) as (_ & H & _).
    destruct (H Sample.plain_key_pair eq_refl) as (_ & _ & Hobj & _). exact Hobj.
  - destruct (rotateKeyPair_replaces_key_pair Sample.entropy Sample.prime256v1 sample_keys_nonempty
                (Sample.empty_world false) (sample_no_faults_empty false)
                (sample_single_empty false)) as (_ & _ & H).
    destruct (H eq_refl) as (Hr & Hobj & _). by split.
Defined.

Lemma generateKeyPair_failure_keeps_store_witness :
  (Sample.generateKeyPair None Sample.create_fails).1 = Throw (DependencyError 503)
  ∧ objects (Sample.generateKeyPair None Sample.create_fails).2 = [].
Proof.
  split; [reflexivity |].
  apply (generateKeyPair_failure_keeps_store Sample.entropy Sample.prime256v1 None
           Sample.create_fails (DependencyError 503)).
  reflexivity.
Defined.

Lemma rotateKeyPair_failure_witness :
  (Sample.rotateKeyPair Sample.rotation_fails).1 = Throw (DependencyError 503)
  ∧ (((removeKeyPair Sample.rotation_fails).1 = Ok true
      ∧ objects (Sample.rotateKeyPair Sample.rotation_fails).2 = [])
     ∨ ((∃ e, (removeKeyPair Sample.rotation_fails).1 = Throw e)
        ∧ objects (Sample.rotateKeyPair Sample.rotation_fails).2 = [Sample.plain_key_pair])).
Proof.
  split; [reflexivity |].
  apply (rotateKeyPair_failure Sample.entropy Sample.prime256v1 Sample.rotation_fails
           (DependencyError 503)).
  reflexivity.
Defined.

Lemma service_keeps_single_key_pair_witness :
  single_key_pair
    (serve_all Sample.JsRecord Sample.JSON_stringify Sample.entropy Sample.prime256v1
       Sample.Buffer_from_base64 Sample.SHA256_sign
       [RotateKeyPair _; Sign _ (MsgBuffer _ []); GenerateKeyPair _ (Some "pw")]
       (Sample.one_key_pair true)).
Proof.
  apply (service_keeps_single_key_pair Sample.JsRecord Sample.JSON_stringify
           Sample.entropy Sample.prime256v1 Sample.Buffer_from_base64 Sample.SHA256_sign
           sample_keys_nonempty).
  apply sample_single_key_pair.
Defined.

Lemma second_read_is_read_only_witness :
  ∃ kp, (Sample.generateKeyPair (Some "pw") (Sample.empty_world true)).1 = Ok kp
    ∧ (Sample.generateKeyPair None
         (Sample.generateKeyPair (Some "pw") (Sample.empty_world true)).2).1 = Ok kp
    ∧ objects (Sample.generateKeyPair None
                 (Sample.generateKeyPair (Some "pw") (Sample.empty_world true)).2).2
      = objects (Sample.generateKeyPair (Some "pw") (Sample.empty_world true)).2
    ∧ ev_op <$> new_events (Sample.generateKeyPair (Some "pw") (Sample.empty_world true)).2
                  (Sample.generateKeyPair None
                     (Sample.generateKeyPair (Some "pw") (Sample.empty_world true)).2).2
      = finder_ops.
Proof.
  apply (second_read_is_read_only Sample.entropy Sample.prime256v1 sample_keys_nonempty
           (Some "pw") None (Sample.empty_world true)).
  apply sample_no_faults_empty.
Defined.

Lemma sample_no_faults_two_passphrases : no_faults Sample.two_passphrases.
Proof. intros i. reflexivity. Defined.

Lemma encrypted_passphrase_wins_witness :
  ∃ kp a', (Sample.generateKeyPair None Sample.two_passphrases).1 = Ok kp
    ∧ Some (KeyPair.passphrase kp) = Some "sealed"
    ∧ objects (Sample.generateKeyPair None Sample.two_passphrases).2
      = [ {| so_id := 7; attributes := Some a' |} ]
    ∧ passphrase a' = Some "sealed"
    ∧ private_key a' = Some "cHJpdg=="
    ∧ public_key a' = Some "cHVi".
Proof.
  apply (encrypted_passphrase_wins Sample.entropy Sample.prime256v1 None
           Sample.two_passphrases {| so_id := 7; attributes := Some Sample.both_passphrases |}
           [] Sample.both_passphrases sample_no_faults_two_passphrases);
    reflexivity.
Defined.

Lemma read_writes_only_to_migrate_witness :
  objects (Sample.generateKeyPair None (Sample.one_key_pair false)).2
  = objects (Sample.one_key_pair false)
  ↔ true && false = false.
Proof.
  apply (read_writes_only_to_migrate Sample.entropy Sample.prime256v1 None
           (Sample.one_key_pair false) Sample.plain_key_pair []
           {| private_key := Some "cHJpdg=="; public_key := Some "cHVi";
              passphrase := None; passphrase_plain := Some "secret" |}
           (sample_no_faults_one false));
    reflexivity.
Defined.

Lemma generated_passphrase_is_hex_witness :
  ∃ kp, (Sample.generateKeyPair (Some "") (Sample.empty_world true)).1 = Ok kp
    ∧ String.length (KeyPair.passphrase kp) = 64
    ∧ Forall (λ c, c ∈ hex_digits) (list_ascii_of_string (KeyPair.passphrase kp)).
Proof.
  apply (generated_passphrase_is_hex Sample.entropy Sample.prime256v1 (Some "")
           (Sample.empty_world true) (sample_no_faults_empty true)
           (sample_no_key_pair true)).
  reflexivity.
Defined.

Lemma rotateKeyPair_rotates_reachable_witness :
  let w := serve_all Sample.JsRecord Sample.JSON_stringify Sample.entropy Sample.prime256v1
             Sample.Buffer_from_base64 Sample.SHA256_sign
             [GenerateKeyPair _ None; Sign _ (MsgBuffer _ [])] (Sample.empty_world true) in
  let kp := fresh_key_pair Sample.entropy Sample.prime256v1 None w in
  (Sample.rotateKeyPair w).1 = Ok true
  ∧ (∃ i, objects (Sample.rotateKeyPair w).2
          = [ {| so_id := i; attributes := Some (attributes_of true kp) |} ])
  ∧ (Sample.getPublicKey (Sample.rotateKeyPair w).2).1 = Ok (KeyPair.publicKey kp).
Proof.
  intros w kp.
  destruct (rotateKeyPair_rotates_reachable Sample.JsRecord Sample.JSON_stringify
              Sample.entropy Sample.prime256v1 Sample.Buffer_from_base64 Sample.SHA256_sign
              sample_keys_nonempty [GenerateKeyPair _ None; Sign _ (MsgBuffer _ [])]
              (Sample.empty_world true) eq_refl (sample_no_faults_empty true))
    as [_ H].
  apply H. discriminate.
Defined.

Lemma sign_uses_generated_private_key_witness :
  (sign Sample.JsRecord Sample.JSON_stringify Sample.entropy Sample.prime256v1 from_base64
     Sample.SHA256_sign (MsgRecord _ [("a", "b")]) (Sample.empty_world true)).1
  = Ok {| data := Buffer_from_utf8 (Sample.JSON_stringify [("a", "b")]);
          signature :=
            Sample.SHA256_sign (Buffer_from_utf8 (Sample.JSON_stringify [("a", "b")]))
              (Sample.prime256v1 32
                 (passphrase_for Sample.entropy None (Sample.empty_world true))).1
              (passphrase_for Sample.entropy None (Sample.empty_world true)) |}.
Proof.
  apply (sign_uses_generated_private_key Sample.JsRecord Sample.JSON_stringify
           Sample.entropy Sample.prime256v1 Sample.SHA256_sign sample_keys_nonempty
           (MsgRecord _ [("a", "b")]) (Sample.empty_world true)
           (sample_no_faults_empty true) (sample_no_key_pair true)).
Defined.

Lemma service_keeps_passphrases_encrypted_witness :
  no_plaintext_passphrase
    (serve_all Sample.JsRecord Sample.JSON_stringify Sample.entropy Sample.prime256v1
       Sample.Buffer_from_base64 Sample.SHA256_sign
       [GenerateKeyPair _ (Some "pw"); RotateKeyPair _; Sign _ (MsgBuffer _ [])]
       (Sample.empty_world true)).
Proof.
  apply (service_keeps_passphrases_encrypted Sample.JsRecord Sample.JSON_stringify
           Sample.entropy Sample.prime256v1 Sample.Buffer_from_base64 Sample.SHA256_sign
           sample_keys_nonempty); [reflexivity | constructor].
Defined.

End MessageSigningProofs.

(** ** Properties of the trained-model routes *)

Module TrainedModelsRoutesProofs.
Import TrainedModelsRoutes.

Section Handlers.

Variable Pipeline : Type.
Variable Err : Type.
Variable WrappedError : Type.
Variable wrapError : Err → WrappedError.
Variable TypeError : string → Err.
Variable client : Client Pipeline Err.

Local Abbreviation proxy := (proxy Err WrappedError wrapError).

(** Propositional steps that leave the section's variables alone. *)
Local Ltac logic := try clear client; try clear TypeError; try clear wrapError; tauto.

Lemma with_pipelines_model_id (pipelinesResponse : PipelinesMap Pipeline) deployments
    (result : list (TrainedModelConfigResponse Pipeline)) :
  model_id Pipeline <$> (with_pipelines Pipeline pipelinesResponse deployments <$> result)
  = model_id Pipeline <$> result.
Proof. rewrite <- list_fmap_compose. by apply list_fmap_ext. Qed.

(** *** What [GET /api/ml/trained_models/{modelId?}] does, case by case *)

Lemma GetTrainedModel_cases (request : Request) :
  let params :=
    spread (spread [("size", JNum 1000)] (omit "with_pipelines" (query request)))
      (model_id_if (modelId request)) in
  let statsParams := spread (model_id_if (modelId request)) [("size", JNum 10000)] in
  let answer := GetTrainedModel Pipeline Err WrappedError wrapError TypeError client
                  request [] in
  match mlClient_getTrainedModels _ _ client params with
  | Throws e => answer = (Returns (customError (wrapError e)), [getTrainedModels Err params])
  | Returns body =>
      let result := trained_model_configs _ body in
      if truthy (prop "with_pipelines" (query request))
      then
        match mlClient_getTrainedModelsStats _ _ client (Some statsParams) with
        | Throws e =>
            answer = (Returns (ok result),
                      [getTrainedModels Err params;
                       getTrainedModelsStats Err (Some statsParams); mlLog_debug Err e])
        | Returns stats =>
            match modelDeploymentsMap Err TypeError (trained_model_stats stats) with
            | Throws e =>
                answer = (Returns (ok result),
                          [getTrainedModels Err params;
                           getTrainedModelsStats Err (Some statsParams); mlLog_debug Err e])
            | Returns deployments =>
                let ids := modelIdsAndAliases Pipeline result deployments in
                match modelsProvider_getModelsPipelines _ _ client ids with
                | Throws e =>
                    answer = (Returns (ok result),
                              [getTrainedModels Err params;
                               getTrainedModelsStats Err (Some statsParams);
                               getModelsPipelines Err ids; mlLog_debug Err e])
                | Returns pipelinesResponse =>
                    let loop :=
                      for_of Pipeline Err
                        (assign_pipelines Pipeline Err TypeError pipelinesResponse
                           deployments) result in
                    answer = (Returns (ok loop.2),
                              [getTrainedModels Err params;
                               getTrainedModelsStats Err (Some statsParams);
                               getModelsPipelines Err ids]
                              ++ match loop.1 with
                                 | Returns _ => []
                                 | Throws e => [mlLog_debug Err e]
                                 end)
                end
            end
        end
      else answer = (Returns (ok result), [getTrainedModels Err params])
  end.
Proof using Pipeline Err WrappedError wrapError TypeError client.
  unfold GetTrainedModel, try_catch, with_models, try_catch_block, lift, eval,
    for_of_result, await, debug, mbind, mret, H_bind, H_ret, Block_bind, Block_ret.
  simpl.
  destruct (mlClient_getTrainedModels _ _ client _) as [body|e]; [| done].
  destruct (truthy (prop "with_pipelines" (query request))); [| done].
  destruct (mlClient_getTrainedModelsStats _ _ client _) as [stats|e]; [| done].
  destruct (modelDeploymentsMap _ _ _) as [deployments|e]; [| done].
  destruct (modelsProvider_getModelsPipelines _ _ client _) as [pipelinesResponse|e];
    [| done].
  by destruct (for_of _ _ _ _) as [[[]|e] models].
Qed.

(** *** Object literals *)

Lemma prop_set k k' v o : prop k (set k' v o) = if String.eqb k' k then v else prop k o.
Proof.
  induction o as [|[k1 v1] o IH]; simpl; [done |].
  destruct (String.eqb k1 k') eqn:E1; simpl.
  - apply String.eqb_eq in E1 as ->. by destruct (String.eqb k' k).
  - rewrite IH. destruct (String.eqb k1 k) eqn:E2; [| done].
    apply String.eqb_eq in E2 as ->. by rewrite String.eqb_sym, E1.
Qed.

Lemma keys_set x k v o : x ∈ keys (set k v o) ↔ x = k ∨ x ∈ keys o.
Proof.
  unfold keys. induction o as [|[k1 v1] o IH]; simpl.
  - rewrite list_elem_of_singleton, elem_of_nil. logic.
  - destruct (String.eqb k1 k) eqn:E1; simpl.
    + apply String.eqb_eq in E1 as ->. rewrite !elem_of_cons. logic.
    + rewrite !elem_of_cons, IH. logic.
Qed.

Lemma prop_not_in k o : k ∉ keys o → prop k o = JUndefined.
Proof.
  unfold keys. induction o as [|[k1 v1] o IH]; simpl; [done |].
  intros Hk. apply not_elem_of_cons in Hk as [Hne Hk].
  destruct (String.eqb k1 k) eqn:E; [| by apply IH].
  apply String.eqb_eq in E. congruence.
Qed.

Lemma keys_spread x a b : x ∈ keys (spread a b) ↔ x ∈ keys a ∨ x ∈ keys b.
Proof.
  unfold spread. revert a. induction b as [|[k v] b IH]; intros a; simpl.
  - unfold keys. simpl. rewrite elem_of_nil. logic.
  - rewrite IH, keys_set. unfold keys. simpl. rewrite elem_of_cons. logic.
Qed.

Lemma prop_spread k a b :
  NoDup (keys b) →
  prop k (spread a b) = if decide (k ∈ keys b) then prop k b else prop k a.
Proof.
  unfold spread. revert a. induction b as [|[k1 v1] b IH]; intros a Hb; simpl.
  - done.
  - apply NoDup_cons in Hb as [Hk1 Hb]. rewrite (IH _ Hb), prop_set.
    destruct (String.eqb k1 k) eqn:E.
    + apply String.eqb_eq in E as ->.
      rewrite (decide_False (P := k ∈ keys b)) by done.
      by rewrite decide_True by by left.
    + apply String.eqb_neq in E.
      destruct (decide (k ∈ keys b)) as [Hin|Hin].
      * rewrite decide_True; [done | by right].
      * rewrite decide_False; [done |]. intros [?|?]%elem_of_cons; [congruence | done].
Qed.

Lemma set_fresh k v a : k ∉ keys a → set k v a = a ++ [(k, v)].
Proof.
  unfold keys. induction a as [|[k1 v1] a IH]; simpl; [done |].
  intros [Hne Hk]%not_elem_of_cons. rewrite IH by done.
  destruct (String.eqb k1 k) eqn:E; [| done]. apply String.eqb_eq in E. congruence.
Qed.

Lemma spread_fresh a b :
  NoDup (keys b) → (∀ k, k ∈ keys b → k ∉ keys a) → spread a b = a ++ b.
Proof.
  unfold spread. revert a. induction b as [|[k v] b IH]; intros a Hb Hab; simpl.
  - by rewrite app_nil_r.
  - apply NoDup_cons in Hb as [Hk Hb]. rewrite set_fresh by (apply Hab; by left).
    rewrite IH; [by rewrite <- app_assoc | done |].
    intros k' Hk'. unfold keys. rewrite fmap_app, elem_of_app. simpl.
    rewrite list_elem_of_singleton. intros [Hin | ->]; [| done].
    revert Hin. apply Hab. by right.
Qed.

Lemma keys_omit x k o : x ∈ keys (omit k o) ↔ x ≠ k ∧ x ∈ keys o.
Proof.
  unfold keys, omit. rewrite !list_elem_of_fmap. split.
  - intros ([k1 v1] & -> & [Hne Hin]%list_elem_of_filter). split; [done |]. by exists (k1, v1).
  - intros (Hne & [k1 v1] & -> & Hin). exists (k1, v1). split; [done |].
    by apply list_elem_of_filter.
Qed.

Lemma NoDup_omit k o : NoDup (keys o) → NoDup (keys (omit k o)).
Proof.
  intros Ho. eapply sublist_NoDup; [exact Ho |].
  unfold keys, omit. apply fmap_sublist, sublist_filter.
Qed.

Lemma prop_omit k k' o : k' ≠ k → prop k' (omit k o) = prop k' o.
Proof.
  intros Hne. unfold omit. induction o as [|[k1 v1] o IH]; [done |].
  cbn -[prop]. case_decide as Hk1.
  - cbn [prop]. destruct (String.eqb k1 k'); [done | exact IH].
  - subst k1. etrans; [exact IH |]. cbn [prop].
    destruct (String.eqb k k') eqn:E; [| done]. apply String.eqb_eq in E. congruence.
Qed.

Lemma keys_model_id_if x modelId : x ∈ keys (model_id_if modelId) → x = "model_id".
Proof.
  unfold model_id_if. destruct (truthy _); [| by intros ?%elem_of_nil].
  by intros ?%list_elem_of_singleton.
Qed.

Lemma NoDup_model_id_if modelId : NoDup (keys (model_id_if modelId)).
Proof.
  unfold model_id_if. destruct (truthy _); [apply NoDup_singleton | apply NoDup_nil_2].
Qed.

(** X11. What [GET /api/ml/trained_models/{modelId?}] forwards to
    [getTrainedModels]: never [with_pipelines]; the [size] of the query and
    else 1000; the model id of the path when there is one; every other
    parameter of the query as it is. *)
Theorem GetTrainedModel_forwards_query (request : Request) :
  NoDup (keys (query request)) →
  ∃ params calls,
    (GetTrainedModel Pipeline Err WrappedError wrapError TypeError client request []).2
    = (getTrainedModels Err params :: calls)
    ∧ ("with_pipelines" ∉ keys params)
    ∧ prop "size" params
      = (if decide ("size" ∈ keys (query request))
         then prop "size" (query request) else JNum 1000)
    ∧ prop "model_id" params
      = (if truthy (JStr (modelId request))
         then JStr (modelId request) else prop "model_id" (query request))
    ∧ ∀ k, k ≠ "with_pipelines" → k ≠ "size" → k ≠ "model_id" →
        prop k params = prop k (query request).
Proof.
  intros Hq.
  set (params := spread (spread [("size", JNum 1000)] (omit "with_pipelines" (query request)))
                   (model_id_if (modelId request))).
  assert (∃ calls,
            (GetTrainedModel Pipeline Err WrappedError wrapError TypeError client request []).2
            = getTrainedModels Err params :: calls) as [calls Hcalls].
  { pose proof (GetTrainedModel_cases request) as H. cbv zeta in H. fold params in H.
    repeat match type of H with
           | match ?x with _ => _ end => destruct x
           end; rewrite H; by eexists. }
  pose proof (NoDup_omit "with_pipelines" _ Hq) as Hq'.
  pose proof (NoDup_model_id_if (modelId request)) as Hm.
  exists params, calls. split; [done |]. unfold params. split; [| split; [| split]].
  - rewrite keys_spread, keys_spread, keys_omit.
    intros [[Hin | [Hne _]] | Hin%keys_model_id_if]; [| done | done].
    by apply list_elem_of_singleton in Hin.
  - rewrite (prop_spread _ _ _ Hm), decide_False by by intros ?%keys_model_id_if.
    rewrite (prop_spread _ _ _ Hq').
    destruct (decide ("size" ∈ keys (query request))) as [Hin|Hin].
    + rewrite decide_True by by apply keys_omit. by apply prop_omit.
    + rewrite decide_False; [done |]. by intros [_ ?]%keys_omit.
  - rewrite (prop_spread _ _ _ Hm). clear Hm. unfold model_id_if.
    destruct (truthy (JStr (modelId request))).
    + by rewrite decide_True by by apply list_elem_of_singleton.
    + rewrite decide_False by by intros ?%elem_of_nil.
      rewrite (prop_spread _ _ _ Hq').
      destruct (decide ("model_id" ∈ keys (omit "with_pipelines" (query request))))
        as [Hin|Hin]; [by apply prop_omit |].
      simpl. symmetry. apply prop_not_in. intros Hin'. apply Hin. by apply keys_omit.
  - intros k Hk1 Hk2 Hk3.
    rewrite (prop_spread _ _ _ Hm), decide_False
      by (intros ?%keys_model_id_if; congruence).
    rewrite (prop_spread _ _ _ Hq').
    destruct (decide (k ∈ keys (omit "with_pipelines" (query request)))) as [Hin|Hin];
      [by apply prop_omit |].
    rewrite (prop_not_in k [("size", JNum 1000)]) by by intros ?%list_elem_of_singleton.
    symmetry. apply prop_not_in. intros Hin'. apply Hin. by apply keys_omit.
Qed.

(** X12. Starting and updating a deployment forward the model id of the path
    followed by the parameters of the query, or of the body, as they are,
    when these hold no [model_id] of their own. *)
Theorem deployment_params_forwarded (request : Request) :
  NoDup (keys (query request)) → "model_id" ∉ keys (query request) →
  NoDup (keys (props (body request))) → "model_id" ∉ keys (props (body request)) →
  (StartTrainedModelDeployment Pipeline Err WrappedError wrapError client request []).2
  = [startTrainedModelDeployment Err (("model_id", JStr (modelId request)) :: query request)]
  ∧ (UpdateTrainedModelDeployment Pipeline Err WrappedError wrapError client request []).2
    = [updateTrainedModelDeployment Err
         (("model_id", JStr (modelId request)) :: props (body request))].
Proof.
  intros Hq Hqm Hb Hbm.
  assert (∀ o, NoDup (keys o) → "model_id" ∉ keys o →
            spread [("model_id", JStr (modelId request))] o
            = ("model_id", JStr (modelId request)) :: o) as Hspread.
  { intros o Ho Hom. rewrite spread_fresh; [done | done |].
    intros k Hk Hin. apply list_elem_of_singleton in Hin. simpl in Hin. congruence. }
  unfold StartTrainedModelDeployment, UpdateTrainedModelDeployment, try_catch, await,
    mbind, H_bind. simpl. rewrite (Hspread _ Hq Hqm), (Hspread _ Hb Hbm). split.
  - by destruct (mlClient_startTrainedModelDeployment _ _ client _).
  - by destruct (mlClient_updateTrainedModelDeployment _ _ client _).
Qed.

(** *** Deployments by model *)

Lemma deployments_of_push k k' v acc :
  deployments_of k (push k' v acc)
  = if String.eqb k' k then deployments_of k acc ++ [v] else deployments_of k acc.
Proof.
  induction acc as [|[k1 vs] acc IH]; simpl; [done |].
  destruct (String.eqb k1 k') eqn:E1; simpl.
  - apply String.eqb_eq in E1 as ->. by destruct (String.eqb k' k).
  - rewrite IH. destruct (String.eqb k1 k) eqn:E2; [| done].
    apply String.eqb_eq in E2 as ->. by rewrite String.eqb_sym, E1.
Qed.

Lemma inherited_false k : inherited k = false ↔ own_key k.
Proof. unfold inherited, own_key. apply bool_decide_eq_false. Qed.

Lemma inherited_true k : inherited k = true ↔ ¬ own_key k.
Proof.
  rewrite <- inherited_false. by destruct (inherited k).
Qed.

Lemma elem_of_concat (x : string) (ls : list (list string)) :
  x ∈ concat ls ↔ ∃ l, l ∈ ls ∧ x ∈ l.
Proof.
  induction ls as [|l ls IH]; simpl.
  - split; [by intros ?%elem_of_nil | by intros (l & ?%elem_of_nil & _)].
  - rewrite elem_of_app, IH. split.
    + intros [Hx | (l' & Hl' & Hx)]; [exists l; split; [by left | done] |].
      exists l'. split; [by right | done].
    + intros (l' & [-> | Hl']%elem_of_cons & Hx); [by left | right; by exists l'].
Qed.

Lemma values_push x k v acc :
  x ∈ concat (snd <$> push k v acc) ↔ x = v ∨ x ∈ concat (snd <$> acc).
Proof.
  induction acc as [|[k1 vs] acc IH]; simpl.
  - rewrite list_elem_of_singleton, elem_of_nil. logic.
  - destruct (String.eqb k1 k); simpl.
    + rewrite !elem_of_app, list_elem_of_singleton. logic.
    + rewrite !elem_of_app, IH. logic.
Qed.

Lemma add_deployment_Throws e l :
  foldl (add_deployment Err TypeError) (Throws e) l = Throws e.
Proof. induction l as [|s l IH]; [done | exact IH]. Qed.

Lemma add_deployment_returns l :
  Forall (λ s, is_Some (deployment_stats s) → own_key (stats_model_id s)) l →
  ∀ acc, ∃ m,
    foldl (add_deployment Err TypeError) (Returns acc) l = Returns m
    ∧ (∀ k, deployments_of k m = deployments_of k acc ++ deployment_ids k l)
    ∧ (∀ x, x ∈ concat (snd <$> m)
          ↔ x ∈ concat (snd <$> acc)
            ∨ ∃ s d, s ∈ l ∧ deployment_stats s = Some d ∧ deployment_id d = x).
Proof.
  induction 1 as [|s l Hs Hl IH]; intros acc.
  - exists acc. split; [done |]. split; [intros k; by rewrite app_nil_r |].
    intros x. split; [by left | intros [Hx | (s & d & ?%elem_of_nil & _)]; done].
  - cbn [foldl]. unfold add_deployment at 2.
    destruct (deployment_stats s) as [d|] eqn:Hd.
    + rewrite (proj2 (inherited_false _) (Hs (mk_is_Some _ _ eq_refl))).
      destruct (IH (push (stats_model_id s) (deployment_id d) acc))
        as (m & Hm & Hof & Hin).
      exists m. split; [done |]. split.
      * intros k. rewrite Hof, deployments_of_push. unfold deployment_ids. simpl.
        rewrite Hd.
        destruct (String.eqb (stats_model_id s) k); simpl; [by rewrite <- app_assoc | done].
      * intros x. rewrite Hin, values_push. split.
        -- intros [[-> | Hx] | (s' & d' & Hs' & Hd' & Hx)]; [right | by left | right].
           ++ exists s, d. split; [by left | done].
           ++ exists s', d'. split; [by right | done].
        -- intros [Hx | (s' & d' & [-> | Hs']%elem_of_cons & Hd' & Hx)].
           ++ left. by right.
           ++ left. left. congruence.
           ++ right. by exists s', d'.
    + destruct (IH acc) as (m & Hm & Hof & Hin). exists m. split; [done |]. split.
      * intros k. rewrite Hof. unfold deployment_ids. simpl. rewrite Hd.
        by destruct (String.eqb (stats_model_id s) k).
      * intros x. rewrite Hin. split.
        -- intros [Hx | (s' & d' & Hs' & Hd' & Hx)]; [by left | right].
           exists s', d'. split; [by right | done].
        -- intros [Hx | (s' & d' & [-> | Hs']%elem_of_cons & Hd' & Hx)];
             [by left | congruence | right; by exists s', d'].
Qed.

Lemma modelDeploymentsMap_returns l :
  Forall (λ s, is_Some (deployment_stats s) → own_key (stats_model_id s)) l →
  ∃ m, modelDeploymentsMap Err TypeError l = Returns m
    ∧ (∀ k, deployments_of k m = deployment_ids k l)
    ∧ (∀ x, x ∈ concat (snd <$> m)
          ↔ ∃ s d, s ∈ l ∧ deployment_stats s = Some d ∧ deployment_id d = x).
Proof.
  intros Hl. destruct (add_deployment_returns l Hl []) as (m & Hm & Hof & Hin).
  exists m. split; [done |]. split; [done |]. intros x. rewrite Hin. simpl.
  rewrite elem_of_nil. logic.
Qed.

Lemma modelDeploymentsMap_throws l :
  Exists (λ s, is_Some (deployment_stats s) ∧ ¬ own_key (stats_model_id s)) l →
  modelDeploymentsMap Err TypeError l = Throws (TypeError "push").
Proof.
  intros Hex. unfold modelDeploymentsMap.
  enough (∀ acc, foldl (add_deployment Err TypeError) (Returns acc) l
                 = Throws (TypeError "push")) as H by apply H.
  induction Hex as [s l [[d Hd] Hs] | s l _ IH]; intros acc; cbn [foldl].
  - unfold add_deployment at 2. rewrite Hd, (proj2 (inherited_true _) Hs).
    apply add_deployment_Throws.
  - unfold add_deployment at 2. destruct (deployment_stats s) as [d|]; [| apply IH].
    destruct (inherited (stats_model_id s)); [apply add_deployment_Throws | apply IH].
Qed.

Lemma deployments_of_values k deployments x :
  x ∈ deployments_of k deployments → x ∈ concat (snd <$> deployments).
Proof.
  induction deployments as [|[k1 vs] deployments IH]; simpl; [done |].
  rewrite elem_of_app. destruct (String.eqb k1 k); [by left | right; by apply IH].
Qed.

(** X13. The deployments grouped under a model id are the deployment ids of
    the statistics entries of that model, in the order of the statistics;
    entries without [deployment_stats] count for nothing. The model ids are
    taken not to be names inherited from [Object.prototype], under which
    [acc[k]] finds a value that is no list: then the reduce does not throw. *)
Theorem modelDeploymentsMap_groups_by_model (k : string) (l : list TrainedModelStats) :
  Forall own_key (stats_model_id <$> l) → own_key k →
  ∃ m, modelDeploymentsMap Err TypeError l = Returns m
    ∧ deployments_of k m = deployment_ids k l
    ∧ ∀ x, x ∈ deployment_ids k l
         ↔ ∃ s d, s ∈ l ∧ stats_model_id s = k ∧ deployment_stats s = Some d
             ∧ deployment_id d = x.
Proof.
  intros Hl _.
  destruct (modelDeploymentsMap_returns l) as (m & Hm & Hof & _).
  { apply Forall_forall. intros s Hs _. rewrite Forall_forall in Hl. apply Hl.
    apply list_elem_of_fmap. by exists s. }
  exists m. split; [done |]. split; [apply Hof |].
  intros x. unfold deployment_ids. rewrite list_elem_of_omap. split.
  - intros (s & Hs & Hx). destruct (String.eqb (stats_model_id s) k) eqn:E; [| done].
    apply String.eqb_eq in E. destruct (deployment_stats s) as [d|] eqn:Hd; [| done].
    injection Hx as Hx. by exists s, d.
  - intros (s & d & Hs & Hk & Hd & Hx). exists s. split; [done |].
    apply String.eqb_eq in Hk. rewrite Hk, Hd. simpl. by rewrite Hx.
Qed.

(** *** The ids whose pipelines are requested *)

Lemma unique_foldl (acc l : list string) :
  NoDup acc →
  NoDup (foldl (λ acc x, if bool_decide (x ∈ acc) then acc else acc ++ [x]) acc l)
  ∧ ∀ x, x ∈ foldl (λ acc x, if bool_decide (x ∈ acc) then acc else acc ++ [x]) acc l
         ↔ x ∈ acc ∨ x ∈ l.
Proof.
  revert acc. induction l as [|y l IH]; intros acc Hacc; simpl.
  - split; [done |]. intros x. rewrite elem_of_nil. logic.
  - case_bool_decide as Hy.
    + destruct (IH acc Hacc) as [Hnd Hin]. split; [done |]. intros x.
      rewrite Hin, elem_of_cons. split; [logic |]. intros [? | [-> | ?]]; logic.
    + assert (NoDup (acc ++ [y])) as Hacc'.
      { apply NoDup_app. split; [done |]. split; [| apply NoDup_singleton].
        intros x Hx ->%list_elem_of_singleton. done. }
      destruct (IH _ Hacc') as [Hnd Hin]. split; [done |]. intros x.
      rewrite Hin, elem_of_app, list_elem_of_singleton, elem_of_cons. logic.
Qed.

Lemma NoDup_unique l : NoDup (unique l).
Proof. apply unique_foldl, NoDup_nil_2. Qed.

Lemma elem_of_unique x l : x ∈ unique l ↔ x ∈ l.
Proof.
  unfold unique. destruct (unique_foldl [] l NoDup_nil_2) as [_ ->].
  rewrite elem_of_nil. logic.
Qed.

Lemma elem_of_Object_values (x : string) (o : list (string * list string)) :
  x ∈ concat (Object_values o) ↔ x ∈ concat (snd <$> o).
Proof.
  assert (merge_sort index_le (filter (λ kv, is_Some (array_index kv.1)) o)
          ++ filter (λ kv, ¬ is_Some (array_index kv.1)) o ≡ₚ o) as Hperm.
  { rewrite merge_sort_Permutation. apply filter_app_complement. }
  unfold Object_values. rewrite !elem_of_concat.
  split; intros (l & Hl & Hx); exists l; (split; [| done]);
    [by rewrite <- Hperm | by rewrite Hperm].
Qed.

Lemma elem_of_modelIdsAndAliases x (result : list (TrainedModelConfigResponse Pipeline))
    deployments :
  x ∈ modelIdsAndAliases Pipeline result deployments
  ↔ (∃ m, m ∈ result ∧ (x = model_id _ m ∨ x ∈ aliases _ m))
    ∨ x ∈ concat (snd <$> deployments).
Proof.
  unfold modelIdsAndAliases.
  rewrite elem_of_unique, elem_of_app, elem_of_Object_values, elem_of_concat.
  apply or_iff_compat_r. split.
  - intros (l & (m & -> & Hm)%list_elem_of_fmap & Hx). exists m. split; [done |].
    by apply elem_of_cons in Hx.
  - intros (m & Hm & Hx). exists (model_id _ m :: aliases _ m).
    split; [| by apply elem_of_cons]. apply list_elem_of_fmap. by exists m.
Qed.

(** X14. With [with_pipelines], once the models and the statistics are there,
    the pipelines are requested for a list without duplicates of exactly the
    model ids, their aliases and the deployment ids of the statistics. This
    is so unless a statistics entry with [deployment_stats] has a model id
    inherited from [Object.prototype] (such as [constructor]): then the
    grouping throws a [TypeError], which is logged, no pipelines are
    requested and the models are answered as they came. *)
Theorem GetTrainedModel_requests_pipelines (request : Request)
    (body : TrainedModelsResponse Pipeline) (stats : TrainedModelsStatsResponse) :
  let params :=
    spread (spread [("size", JNum 1000)] (omit "with_pipelines" (query request)))
      (model_id_if (modelId request)) in
  let statsParams := spread (model_id_if (modelId request)) [("size", JNum 10000)] in
  truthy (prop "with_pipelines" (query request)) = true →
  mlClient_getTrainedModels _ _ client params = Returns body →
  mlClient_getTrainedModelsStats _ _ client (Some statsParams) = Returns stats →
  (Forall (λ s, is_Some (deployment_stats s) → own_key (stats_model_id s))
     (trained_model_stats stats) →
   ∃ ids calls,
     (GetTrainedModel Pipeline Err WrappedError wrapError TypeError client request []).2
     = (getTrainedModels Err params :: getTrainedModelsStats Err (Some statsParams)
        :: getModelsPipelines Err ids :: calls)
     ∧ NoDup ids
     ∧ ∀ x, x ∈ ids
         ↔ (∃ m, m ∈ trained_model_configs _ body ∧ (x = model_id _ m ∨ x ∈ aliases _ m))
           ∨ (∃ s d, s ∈ trained_model_stats stats ∧ deployment_stats s = Some d
                 ∧ deployment_id d = x))
  ∧ (Exists (λ s, is_Some (deployment_stats s) ∧ ¬ own_key (stats_model_id s))
       (trained_model_stats stats) →
     GetTrainedModel Pipeline Err WrappedError wrapError TypeError client request []
     = (Returns (ok (trained_model_configs _ body)),
        [getTrainedModels Err params; getTrainedModelsStats Err (Some statsParams);
         mlLog_debug Err (TypeError "push")])).
Proof using Pipeline Err WrappedError wrapError TypeError client.
  intros params statsParams Hwith Hbody Hstats.
  pose proof (GetTrainedModel_cases request) as H. cbv zeta in H.
  fold params statsParams in H. rewrite Hbody, Hwith, Hstats in H. split.
  - intros Hown. destruct (modelDeploymentsMap_returns _ Hown) as (m & Hm & _ & Hin).
    rewrite Hm in H.
    exists (modelIdsAndAliases Pipeline (trained_model_configs _ body) m).
    assert (∃ calls,
              (GetTrainedModel Pipeline Err WrappedError wrapError TypeError client
                 request []).2
              = (getTrainedModels Err params :: getTrainedModelsStats Err (Some statsParams)
                 :: getModelsPipelines Err
                      (modelIdsAndAliases Pipeline (trained_model_configs _ body) m)
                 :: calls)) as [calls Hcalls].
    { destruct (modelsProvider_getModelsPipelines _ _ client _); rewrite H; by eexists. }
    exists calls. split; [done |]. split; [apply NoDup_unique |]. intros x.
    by rewrite elem_of_modelIdsAndAliases, Hin.
  - intros Hinh. by rewrite (modelDeploymentsMap_throws _ Hinh) in H.
Qed.

(** *** The pipelines attached to a model *)

Lemma collect_is_Some (pipelinesResponse : PipelinesMap Pipeline) l k :
  is_Some (collect _ pipelinesResponse l !! k)
  ↔ ∃ key, key ∈ l ∧ is_Some (pipelines_of _ pipelinesResponse key !! k).
Proof.
  unfold collect.
  enough (∀ acc : gmap string Pipeline,
            is_Some (foldl (λ (acc : gmap string Pipeline) a,
                              (pipelines_of _ pipelinesResponse a : gmap string Pipeline)
                              ∪ acc) acc l !! k)
            ↔ is_Some (acc !! k)
              ∨ ∃ key, key ∈ l ∧ is_Some (pipelines_of _ pipelinesResponse key !! k)) as H.
  { rewrite H, lookup_empty. split; [intros [[? [=]] | ?]; done | by right]. }
  induction l as [|a l IH]; intros acc; simpl.
  - split; [by left | intros [? | (key & ?%elem_of_nil & _)]; done].
  - rewrite IH, lookup_union_is_Some. split.
    + intros [[Ha | Hacc] | (key & Hkey & Hk)]; [right | by left | right].
      * exists a. split; [by left | done].
      * exists key. split; [by right | done].
    + intros [Hacc | (key & [-> | Hkey]%elem_of_cons & Hk)];
        [left; by right | left; by left | right; by exists key].
Qed.

Lemma union_is_Some (m1 m2 : gmap string Pipeline) k :
  is_Some ((m1 ∪ m2) !! k) ↔ is_Some (m1 !! k) ∨ is_Some (m2 !! k).
Proof. apply lookup_union_is_Some. Qed.

(** X15. The pipelines attached to a model are those the response lists under
    the model's id, its aliases and its deployment ids, and each of these
    keys was among the ids requested (for a model id that is no name
    inherited from [Object.prototype]). *)
Theorem attached_pipelines (pipelinesResponse : PipelinesMap Pipeline)
    (deployments : list (string * list string))
    (result : list (TrainedModelConfigResponse Pipeline))
    (model : TrainedModelConfigResponse Pipeline) :
  model ∈ result → own_key (model_id _ model) →
  (∃ ps, pipelines _ (with_pipelines _ pipelinesResponse deployments model) = Some ps
     ∧ ∀ k, is_Some (ps !! k)
          ↔ ∃ key, key ∈ lookup_keys _ deployments model
              ∧ is_Some (pipelines_of _ pipelinesResponse key !! k))
  ∧ ∀ key, key ∈ lookup_keys _ deployments model →
      key ∈ modelIdsAndAliases _ result deployments.
Proof.
  intros Hmodel _. split.
  - eexists. split; [reflexivity |]. intros k. unfold lookup_keys.
    pose proof (union_is_Some
                  (collect _ pipelinesResponse
                     (deployments_of (model_id _ model) deployments))
                  ((collect _ pipelinesResponse (aliases _ model) : gmap string Pipeline)
                   ∪ pipelines_of _ pipelinesResponse (model_id _ model)) k) as H1.
    pose proof (union_is_Some (collect _ pipelinesResponse (aliases _ model))
                  (pipelines_of _ pipelinesResponse (model_id _ model)) k) as H2.
    split.
    + intros [(key & Hkey & Hk)%collect_is_Some | [(key & Hkey & Hk)%collect_is_Some | Hk]%H2]%H1.
      * exists key. split; [| done]. right. apply elem_of_app. by right.
      * exists key. split; [| done]. right. apply elem_of_app. by left.
      * exists (model_id _ model). split; [by left | done].
    + intros (key & [-> | [Hkey | Hkey]%elem_of_app]%elem_of_cons & Hk); apply H1.
      * right. apply H2. by right.
      * right. apply H2. left. apply collect_is_Some. by exists key.
      * left. apply collect_is_Some. by exists key.
  - intros key [-> | [Hkey | Hkey]%elem_of_app]%elem_of_cons;
      apply elem_of_modelIdsAndAliases.
    + left. exists model. split; [done | by left].
    + left. exists model. split; [done | by right].
    + right. by eapply deployments_of_values.
Qed.

(** *** The ids of [GET /api/ml/trained_models/{modelId}/pipelines] *)

Lemma split_commas_nonempty s : split_commas s ≠ [].
Proof. destruct s as [|c s]; simpl; [done |]. by destruct (Ascii.eqb c ","), (split_commas s). Qed.

Lemma concat_split_commas s : String.concat "," (split_commas s) = s.
Proof.
  induction s as [|c s IH]; [done |]. pose proof (split_commas_nonempty s) as Hne.
  cbn [split_commas]. destruct (Ascii.eqb c ",") eqn:E.
  - apply Ascii.eqb_eq in E as ->. destruct (split_commas s) as [|x xs]; [done |].
    by rewrite <- IH.
  - destruct (split_commas s) as [|x xs]; [done |]. rewrite <- IH.
    by destruct xs.
Qed.

Lemma split_commas_no_comma s :
  Forall (λ id, ","%char ∉ list_ascii_of_string id) (split_commas s).
Proof.
  induction s as [|c s IH]; simpl.
  - repeat constructor. by intros ?%elem_of_nil.
  - destruct (Ascii.eqb c ",") eqn:E.
    + constructor; [by intros ?%elem_of_nil | done].
    + apply Ascii.eqb_neq in E. destruct (split_commas s) as [|x xs].
      * repeat constructor. simpl. intros [? | ?%elem_of_nil]%elem_of_cons; congruence.
      * apply Forall_cons in IH as [Hx Hxs]. constructor; [| done]. simpl.
        intros [? | ?]%elem_of_cons; [congruence | done].
Qed.

(** X16. The pipelines handler requests the comma-separated ids of the path
    parameter: at least one id, none with a comma in it, and joined with
    commas they give the parameter back. *)
Theorem GetTrainedModelPipelines_ids (request : Request) :
  ∃ ids,
    (GetTrainedModelPipelines Pipeline Err WrappedError wrapError client request []).2
    = [getModelsPipelines Err ids]
    ∧ ids ≠ []
    ∧ String.concat "," ids = modelId request
    ∧ Forall (λ id, ","%char ∉ list_ascii_of_string id) ids.
Proof.
  exists (split_commas (modelId request)). split.
  - unfold GetTrainedModelPipelines, try_catch, await, mbind, H_bind. simpl.
    by destruct (modelsProvider_getModelsPipelines _ _ client _).
  - split; [apply split_commas_nonempty |].
    split; [apply concat_split_commas | apply split_commas_no_comma].
Qed.

(** *** The loop over the models *)

Lemma for_of_own (pipelinesResponse : PipelinesMap Pipeline) deployments
    (result : list (TrainedModelConfigResponse Pipeline)) :
  Forall (λ m, own_key (model_id _ m)) result →
  for_of Pipeline Err (assign_pipelines Pipeline Err TypeError pipelinesResponse deployments)
    result
  = (Returns (), with_pipelines Pipeline pipelinesResponse deployments <$> result).
Proof.
  induction 1 as [|m result Hm _ IH]; [done |].
  cbn [for_of]. unfold assign_pipelines at 1.
  by rewrite (proj2 (inherited_false _) Hm), IH.
Qed.

(** *** The handlers as proxies *)

Local Ltac thin_proxy :=
  unfold GetTrainedModelStats, GetTrainedModelStatsById, GetTrainedModelPipelines,
    PutTrainedModel, DeleteTrainedModel, StartTrainedModelDeployment,
    UpdateTrainedModelDeployment, StopTrainedModelDeployment, SimulateIngestPipeline,
    InferTrainedModelDeployment, TrainedModelsRoutes.proxy, try_catch, await, mbind, H_bind;
  simpl;
  match goal with |- context [match ?r with Returns _ => _ | Throws _ => _ end] =>
    by destruct r
  end.


End Handlers.


(** The order of [Object.values]: array indices first, in ascending order,
    then the other names as inserted. *)
Example Object_values_order :
  Object_values [("b", 1); ("10", 2); ("2", 3); ("01", 4); ("4294967295", 5); ("0", 6)]
  = [6; 3; 2; 1; 4; 5].
Proof. reflexivity. Qed.

(** A model called [constructor] stops the loop: the error is logged and the
    models before it are answered with their pipelines, the others
    without. *)
Example GetTrainedModel_answers_partly_enriched :
  GetTrainedModel string string (nat * string) Sample.wrapError Sample.TypeError
    Sample.two_models_client Sample.request_with_pipelines []
  = (Returns (ok [with_pipelines string Sample.pipelines_b [("model-b", ["deployment-b"])]
                    Sample.model_b;
                  Sample.model_constructor]),
     [getTrainedModels string [("size", JNum 1000)];
      getTrainedModelsStats string (Some [("size", JNum 10000)]);
      getModelsPipelines string ["model-b"; "alias-b"; "constructor"; "deployment-b"];
      mlLog_debug string "reduce is not a function"]).
Proof. reflexivity. Qed.


Lemma GetTrainedModel_forwards_query_witness :
  ∃ params calls,
    (GetTrainedModel string string (nat * string) Sample.wrapError Sample.TypeError
       Sample.answering_client Sample.request_model_b []).2
    = (getTrainedModels string params :: calls)
    ∧ ("with_pipelines" ∉ keys params)
    ∧ prop "size" params = JNum 5
    ∧ prop "model_id" params = JStr "model-b"
    ∧ ∀ k, k ≠ "with_pipelines" → k ≠ "size" → k ≠ "model_id" →
        prop k params = prop k (query Sample.request_model_b).
Proof.
  apply (GetTrainedModel_forwards_query string string (nat * string) Sample.wrapError
           Sample.TypeError Sample.answering_client Sample.request_model_b).
  compute_done.
Defined.

Lemma deployment_params_forwarded_witness :
  (StartTrainedModelDeployment string string (nat * string) Sample.wrapError
     Sample.answering_client Sample.request_deployment []).2
  = [startTrainedModelDeployment string
       [("model_id", JStr "model-b"); ("number_of_allocations", JNum 2)]]
  ∧ (UpdateTrainedModelDeployment string string (nat * string) Sample.wrapError
       Sample.answering_client Sample.request_deployment []).2
    = [updateTrainedModelDeployment string
         [("model_id", JStr "model-b"); ("number_of_allocations", JNum 2)]].
Proof.
  apply (deployment_params_forwarded string string (nat * string) Sample.wrapError
           Sample.answering_client Sample.request_deployment); compute_done.
Defined.

Lemma modelDeploymentsMap_groups_by_model_witness :
  ∃ m, modelDeploymentsMap string Sample.TypeError (trained_model_stats Sample.stats_b)
       = Returns m
    ∧ deployments_of "model-b" m = ["deployment-b"].
Proof.
  destruct (modelDeploymentsMap_groups_by_model string Sample.TypeError "model-b"
              (trained_model_stats Sample.stats_b)) as (m & Hm & Hof & _);
    [compute_done | compute_done |].
  by exists m.
Defined.

Lemma GetTrainedModel_requests_pipelines_witness :
  (∃ ids calls,
     (GetTrainedModel string string (nat * string) Sample.wrapError Sample.TypeError
        Sample.answering_client Sample.request_model_b []).2
     = (getTrainedModels string [("size", JNum 5); ("model_id", JStr "model-b")]
        :: getTrainedModelsStats string
             (Some [("model_id", JStr "model-b"); ("size", JNum 10000)])
        :: getModelsPipelines string ids :: calls)
     ∧ NoDup ids
     ∧ ∀ x, x ∈ ids
         ↔ (∃ m, m ∈ trained_model_configs _ Sample.models_b
               ∧ (x = model_id _ m ∨ x ∈ aliases _ m))
           ∨ (∃ s d, s ∈ trained_model_stats Sample.stats_b ∧ deployment_stats s = Some d
                 ∧ deployment_id d = x))
  ∧ GetTrainedModel string string (nat * string) Sample.wrapError Sample.TypeError
      Sample.constructor_client Sample.request_model_b []
    = (Returns (ok [Sample.model_b]),
       [getTrainedModels string [("size", JNum 5); ("model_id", JStr "model-b")];
        getTrainedModelsStats string
          (Some [("model_id", JStr "model-b"); ("size", JNum 10000)]);
        mlLog_debug string "push is not a function"]).
Proof.
  split.
  - apply (GetTrainedModel_requests_pipelines string string (nat * string)
             Sample.wrapError Sample.TypeError Sample.answering_client
             Sample.request_model_b Sample.models_b Sample.stats_b);
      [reflexivity | reflexivity | reflexivity | compute_done].
  - apply (GetTrainedModel_requests_pipelines string string (nat * string)
             Sample.wrapError Sample.TypeError Sample.constructor_client
             Sample.request_model_b Sample.models_b Sample.stats_constructor);
      [reflexivity | reflexivity | reflexivity |].
    apply Exists_cons_hd. split; [by eexists | compute_done].
Defined.

Lemma attached_pipelines_witness :
  (∃ ps, pipelines _ (with_pipelines _ Sample.pipelines_b [("model-b", ["deployment-b"])]
                        Sample.model_b) = Some ps
     ∧ ∀ k, is_Some (ps !! k)
          ↔ ∃ key, key ∈ ["model-b"; "alias-b"; "deployment-b"]
              ∧ is_Some (pipelines_of _ Sample.pipelines_b key !! k))
  ∧ ∀ key, key ∈ ["model-b"; "alias-b"; "deployment-b"] →
      key ∈ modelIdsAndAliases _ [Sample.model_b] [("model-b", ["deployment-b"])].
Proof.
  apply (attached_pipelines string Sample.pipelines_b [("model-b", ["deployment-b"])]
           [Sample.model_b] Sample.model_b); [by left | compute_done].
Defined.

End TrainedModelsRoutesProofs.
